(** * myHeap.c: a boundary-tag heap allocator with best-fit placement,
      splitting and delayed coalescing.

    The development embeds [myAlloc], [myFree], [coalesce] and [myInit] of
    [src/myHeap.c] as functions over an explicit process state and proves
    the properties the specification states about them.

    Conventions of the embedding:
    - a C [int] is a [Z]; every [int] addition and subtraction of the source
      goes through [wrap] (32-bit two's complement), [%] is C's truncating
      remainder [Z.rem], [&] is [Z.land];
    - an address is a [Z] (0 is NULL); [void*] arithmetic is plain addition;
    - the memory is a finite map from the byte address of a 4-byte word to
      the [int] stored there; an access to an address that is not mapped
      makes the operation return [None] (the run leaves the model);
    - a [while] loop is a [Fixpoint] on a fuel argument that returns [None]
      when the fuel runs out; the theorems give a fuel that suffices;
    - the size of a pointer, which [coalesce] uses at line 306, is an
      argument of [coalesce]; the theorems take it to be 4 ([ILP32]), the
      size of a header, and an example shows the run with 8;
    - [getpagesize], [open] and [mmap] are the fields of an environment
      [env] that [myInit] takes as an argument;
    - the messages [myInit] prints to stderr are not part of the state. *)

From Stdlib Require Import ZArith Lia.
From stdpp Require Import base option list gmap.

Local Open Scope Z_scope.

(** ** C integers *)

Definition INT_MAX : Z := 2147483647.
Definition INT_MIN : Z := -2147483648.

Definition wrap (z : Z) : Z := (z + 2147483648) mod 4294967296 - 2147483648.

Definition iadd (a b : Z) : Z := wrap (a + b).
Definition isub (a b : Z) : Z := wrap (a - b).
Definition irem (a b : Z) : Z := Z.rem a b.

(** [sizeof(blockHeader)]: the struct holds one [int]. *)
Definition sizeof_blockHeader : Z := 4.

(** ** Memory *)

Definition load (m : gmap Z Z) (a : Z) : option Z := m !! a.

Definition store (m : gmap Z Z) (a v : Z) : option (gmap Z Z) :=
  match m !! a with
  | Some _ => Some (<[a := v]> m)
  | None => None
  end.

(** ** Process state: the globals [heapStart] and [allocsize], the static
    [allocated_once] of [myInit], and the memory. *)

Record state := State {
  heapStart : Z;
  allocsize : Z;
  allocated_once : Z;
  mem : gmap Z Z
}.

Definition set_mem (s : state) (m : gmap Z Z) : state :=
  State (heapStart s) (allocsize s) (allocated_once s) m.

Definition NULL : Z := 0.

(** ** myAlloc *)

(** The block size computed from the requested payload size
    (lines 105-111). *)
Definition block_size_for (size : Z) : Z :=
  let size := iadd size 4 in
  if negb (irem size 8 =? 0) then isub (iadd size 8) (irem size 8) else size.

(** The best-fit loop (lines 125-157). The loop state is
    [(flag, best, best_size)]; [current] is the loop pointer. *)
Fixpoint alloc_scan (fuel : nat) (m : gmap Z Z) (size : Z)
    (current : Z) (flag best best_size : Z) : option (Z * Z * Z) :=
  match fuel with
  | O => None
  | S fuel =>
    h ← load m current;
    if h =? 1 then Some (flag, best, best_size)
    else
      let current_size := isub h (irem h 8) in
      if negb (irem h 2 =? 0) || (current_size <? size) then
        alloc_scan fuel m size (current + current_size) flag best best_size
      else
        let '(flag, best, best_size) :=
          if flag =? 0 then (1, current, current_size)
          else (flag, best, best_size) in
        let '(best, best_size) :=
          if current_size <? best_size then (current, current_size)
          else (best, best_size) in
        alloc_scan fuel m size (current + current_size) flag best best_size
  end.

Definition myAlloc (fuel : nat) (s : state) (size : Z) : option (state * Z) :=
  if (size <=? 0) || (size >? allocsize s) then Some (s, NULL)
  else
    let size := block_size_for size in
    '(flag, best, best_size) ← alloc_scan fuel (mem s) size (heapStart s) 0 NULL 0;
    if flag =? 0 then Some (s, NULL)
    else if best_size =? size then
      h ← load (mem s) best;
      m1 ← store (mem s) best (iadd h 1);
      let new := best + best_size in
      hn ← load m1 new;
      m2 ← (if negb (hn =? 1) then store m1 new (iadd hn 2) else Some m1);
      Some (set_mem s m2, best + sizeof_blockHeader)
    else
      let new := best + size in
      h ← load (mem s) best;
      m1 ← store (mem s) best (iadd h (iadd (isub size best_size) 1));
      m2 ← store m1 new (iadd (iadd 2 0) (isub best_size size));
      let new_footer := new + best_size - size - sizeof_blockHeader in
      m3 ← store m2 new_footer (isub best_size size);
      Some (set_mem s m3, best + sizeof_blockHeader).

(** ** myFree *)

Definition myFree (s : state) (ptr : Z) : option (state * Z) :=
  if ptr =? NULL then Some (s, -1)
  else if negb (irem (wrap ptr) 8 =? 0) then Some (s, -1)
  else if (ptr <? heapStart s) || (ptr >? heapStart s + allocsize s)
  then Some (s, -1)
  else
    let header := ptr - sizeof_blockHeader in
    h ← load (mem s) header;
    if irem h 2 =? 0 then Some (s, -1)
    else
      m1 ← store (mem s) header (isub h 1);
      h1 ← load m1 header;
      let block_size := isub h1 (irem h1 8) in
      let new := header + block_size in
      hn ← load m1 new;
      m2 ← (if negb (hn =? 1)
            then let p := Z.land hn 2 in store m1 new (isub hn p)
            else Some m1);
      let footer := header + block_size - sizeof_blockHeader in
      m3 ← store m2 footer block_size;
      Some (set_mem s m3, 0).

(** ** coalesce

    [psz] is [sizeof(blockHeader* )], the size of a pointer, which line 306
    subtracts to reach the footer of the next block: 4 on an ILP32 target,
    8 on an LP64 target. The assignment [ptr_size += next_size] that ends
    the loop body (line 311) is overwritten at the top of the next
    iteration and is left out. *)

Fixpoint coalesce_loop (psz : Z) (fuel : nat) (m : gmap Z Z) (ptr : Z)
    : option (gmap Z Z) :=
  match fuel with
  | O => None
  | S fuel =>
    h ← load m ptr;
    if h =? 1 then Some m
    else
      let ptr_size := isub h (irem h 8) in
      if negb (Z.land h 1 =? 0) then
        coalesce_loop psz fuel m (ptr + ptr_size)
      else
        let next := ptr + ptr_size in
        hn ← load m next;
        if negb (Z.land hn 1 =? 0) then coalesce_loop psz fuel m next
        else
          let next_size := isub hn (irem hn 8) in
          let nextFooter := next + next_size - psz in
          m1 ← store m ptr (iadd h next_size);
          hf ← load m1 nextFooter;
          m2 ← store m1 nextFooter (iadd hf ptr_size);
          coalesce_loop psz fuel m2 ptr
  end.

Definition coalesce (psz : Z) (fuel : nat) (s : state) : option (state * Z) :=
  m ← coalesce_loop psz fuel (mem s) (heapStart s);
  Some (set_mem s m, 1).

(** ** myInit

    The environment of [myInit]: the page size, the descriptor [open]
    returns for /dev/zero (-1 on failure) and the address [mmap] returns for
    a length ([None] is MAP_FAILED). A successful [mmap] maps the words of
    the new region, each holding 0. A page size of 0 makes [%] trap: the
    model returns [None]. *)

Record env := Env {
  getpagesize : Z;
  open_dev_zero : Z;
  mmap : Z → option Z
}.

Fixpoint zero_words (n : nat) (p : Z) (m : gmap Z Z) : gmap Z Z :=
  match n with
  | O => m
  | S n => <[p := 0]> (zero_words n (p + 4) m)
  end.

Definition map_region (m : gmap Z Z) (p len : Z) : gmap Z Z :=
  zero_words (Z.to_nat (len / 4)) p m.

Definition myInit (e : env) (s : state) (sizeOfRegion : Z) : option (state * Z) :=
  if negb (0 =? allocated_once s) then Some (s, -1)
  else if sizeOfRegion <=? 0 then Some (s, -1)
  else
    let pagesize := getpagesize e in
    if pagesize =? 0 then None
    else
      let padsize := irem sizeOfRegion pagesize in
      let padsize := irem (isub pagesize padsize) pagesize in
      let s := State (heapStart s) (iadd sizeOfRegion padsize)
                     (allocated_once s) (mem s) in
      let fd := open_dev_zero e in
      if -1 =? fd then Some (s, -1)
      else
        match mmap e (allocsize s) with
        | None =>
          Some (State (heapStart s) (allocsize s) 0 (mem s), -1)
        | Some mmap_ptr =>
          let m := map_region (mem s) mmap_ptr (allocsize s) in
          let allocated := 1 in
          let asz := isub (allocsize s) 8 in
          let hs := mmap_ptr + 1 * sizeof_blockHeader in
          let endMark := hs + asz in
          m ← store m endMark 1;
          m ← store m hs asz;
          h ← load m hs;
          m ← store m hs (iadd h 2);
          let footer := hs + asz - 4 in
          m ← store m footer asz;
          Some (State hs asz allocated m, 0)
        end.

(** The state of a process before [myInit]. *)
Definition initial_state : state := State NULL 0 0 ∅.

(** ** dispMem

    The traversal of [dispMem] (lines 430-463) with the rows it prints:
    (used, previous used, t_begin, t_end, t_size), and the totals
    [used_size] and [free_size]. *)

Record row := Row {
  r_used : bool;
  r_prev_used : bool;
  r_begin : Z;
  r_end : Z;
  r_size : Z
}.

Fixpoint dispMem_loop (fuel : nat) (m : gmap Z Z) (current : Z)
    (used_size free_size : Z) : option (list row * Z * Z) :=
  match fuel with
  | O => None
  | S fuel =>
    h ← load m current;
    if h =? 1 then Some ([], used_size, free_size)
    else
      let t_begin := current in
      let t_size := h in
      let is_used := negb (Z.land t_size 1 =? 0) in
      let t_size := if is_used then isub t_size 1 else t_size in
      let p_used := negb (Z.land t_size 2 =? 0) in
      let t_size := if p_used then isub t_size 2 else t_size in
      let used_size := if is_used then iadd used_size t_size else used_size in
      let free_size := if is_used then free_size else iadd free_size t_size in
      let t_end := t_begin + t_size - 1 in
      '(rows, u, f) ← dispMem_loop fuel m (current + t_size) used_size free_size;
      Some (Row is_used p_used t_begin t_end t_size :: rows, u, f)
  end.

Definition dispMem (fuel : nat) (s : state) : option (list row * Z * Z) :=
  dispMem_loop fuel (mem s) (heapStart s) 0 0.

(** * The block list

    The region seen as the list of its blocks in address order. *)

Record block := Block { bsize : Z; balloc : bool }.

(** The fields of a header word. *)
Definition size_of (h : Z) : Z := h - h mod 8.
Definition alloc_bit (h : Z) : bool := Z.testbit h 0.
Definition prev_alloc_bit (h : Z) : bool := Z.testbit h 1.

(** The size field as the code reads it from a header word:
    [size_status - size_status % 8]. *)
Definition csize (h : Z) : Z := isub h (irem h 8).

(** The header word of a block of size [sz] with the two status bits. *)
Definition hdr (sz : Z) (p a : bool) : Z :=
  sz + (if p then 2 else 0) + (if a then 1 else 0).

Definition total (bs : list block) : Z :=
  foldr (λ b acc, bsize b + acc) 0 bs.

(** [blocks_at m a p bs]: the memory holds the blocks [bs] one after the
    other from address [a], the block before [a] having alloc-bit [p]. *)
Fixpoint blocks_at (m : gmap Z Z) (a : Z) (p : bool) (bs : list block) : Prop :=
  match bs with
  | [] => True
  | b :: bs =>
    8 ≤ bsize b ∧ bsize b mod 8 = 0 ∧
    m !! a = Some (hdr (bsize b) p (balloc b)) ∧
    (balloc b = false → m !! (a + bsize b - 4) = Some (bsize b)) ∧
    blocks_at m (a + bsize b) (balloc b) bs
  end.

(** The invariant of an initialized heap whose block list is [bs]. *)
Record heap_inv (s : state) (bs : list block) : Prop := HeapInv {
  inv_start : 0 < heapStart s;
  inv_align : heapStart s mod 8 = 4;
  inv_range : 0 ≤ allocsize s ≤ INT_MAX - 15;
  inv_mapped : ∀ k, 0 ≤ k ≤ allocsize s / 4 →
               is_Some (mem s !! (heapStart s + 4 * k));
  inv_blocks : blocks_at (mem s) (heapStart s) true bs;
  inv_total : total bs = allocsize s;
  inv_end : mem s !! (heapStart s + allocsize s) = Some 1
}.

(** The address of the header of block [i] and of its payload. *)
Definition block_addr (s : state) (bs : list block) (i : nat) : Z :=
  heapStart s + total (take i bs).

Definition payload_addr (s : state) (bs : list block) (i : nat) : Z :=
  block_addr s bs i + sizeof_blockHeader.

(** ** The operations on the block list, as the specification words them *)

(** Needed block size: the payload plus the header overhead, rounded up to
    the next multiple of 8. *)
Definition needed (n : Z) : Z := (n + 4 + 7) / 8 * 8.

(** Block [i] is the best fit for [size]: free, large enough, of smallest
    size among such blocks, and the first of that size in address order. *)
Definition is_best_fit (bs : list block) (size : Z) (i : nat) : Prop :=
  ∃ b, bs !! i = Some b ∧ balloc b = false ∧ size ≤ bsize b ∧
    ∀ j b', bs !! j = Some b' → balloc b' = false → size ≤ bsize b' →
      bsize b < bsize b' ∨ (bsize b = bsize b' ∧ (i ≤ j)%nat).

Definition no_fit (bs : list block) (size : Z) : Prop :=
  ∀ j b', bs !! j = Some b' → balloc b' = false → bsize b' < size.

(** Placing a block of [size] bytes in block [i]: the whole block when the
    sizes are equal, else an allocated block followed by the free rest. *)
Definition place (bs : list block) (i : nat) (size : Z) : list block :=
  match bs !! i with
  | Some b =>
    take i bs ++
    (if bsize b =? size then [Block size true]
     else [Block size true; Block (bsize b - size) false]) ++
    drop (S i) bs
  | None => bs
  end.

(** Freeing block [i]. *)
Definition release (bs : list block) (i : nat) : list block :=
  match bs !! i with
  | Some b => take i bs ++ Block (bsize b) false :: drop (S i) bs
  | None => bs
  end.

(** Merging every run of adjacent free blocks. *)
Fixpoint merge_free (bs : list block) : list block :=
  match bs with
  | [] => []
  | b :: bs =>
    let r := merge_free bs in
    if balloc b then b :: r
    else match r with
         | Block sz false :: r' => Block (bsize b + sz) false :: r'
         | _ => b :: r
         end
  end.

(** [run] is a maximal run of free blocks of [pre ++ run ++ post]. *)
Definition all_free (run : list block) : Prop :=
  Forall (λ b, balloc b = false) run.

Definition ends_allocated (pre : list block) : Prop :=
  pre = [] ∨ ∃ pre' b, pre = pre' ++ [b] ∧ balloc b = true.

Definition starts_allocated (post : list block) : Prop :=
  post = [] ∨ ∃ b post', post = b :: post' ∧ balloc b = true.

Definition maximal_free_run (pre run post : list block) : Prop :=
  ends_allocated pre ∧ all_free run ∧ run ≠ [] ∧ starts_allocated post.

(** Block [i] of [bs] has a free block right after or right before it. *)
Definition free_neighbour (bs : list block) (i : nat) : Prop :=
  (∃ b', bs !! S i = Some b' ∧ balloc b' = false) ∨
  (∃ j b', i = S j ∧ bs !! j = Some b' ∧ balloc b' = false).

(** ** The region a successful [myInit] sets up *)

(** The requested size rounded up to a multiple of the page size, and the
    usable size: 8 bytes less. *)
Definition padded (pagesize sizeOfRegion : Z) : Z :=
  (sizeOfRegion + pagesize - 1) / pagesize * pagesize.

Definition usable (e : env) (sizeOfRegion : Z) : Z :=
  padded (getpagesize e) sizeOfRegion - 8.

(** What [myInit] needs from its environment to succeed with the region at
    [mmap_ptr]: a page size that is a multiple of 8, a padded size that
    fits an [int], /dev/zero opened, and an aligned region mapped. *)
Record env_ok (e : env) (sizeOfRegion mmap_ptr : Z) : Prop := EnvOk {
  ok_pagesize : 16 ≤ getpagesize e ∧ getpagesize e mod 8 = 0;
  ok_size : 0 < sizeOfRegion ≤ INT_MAX - getpagesize e;
  ok_open : open_dev_zero e ≠ -1;
  ok_mmap : mmap e (padded (getpagesize e) sizeOfRegion) = Some mmap_ptr;
  ok_aligned : 0 ≤ mmap_ptr ∧ mmap_ptr mod 8 = 0
}.

(** ** Runs of the public operations *)

(** The pointer size of an ILP32 target, where [sizeof(blockHeader* )] is
    [sizeof(blockHeader)]. *)
Definition ILP32 : Z := 4.

(** The payload addresses of the allocated blocks of [bs] laid out from
    [a]: the addresses [myAlloc] has returned and [myFree] has not yet
    taken back. *)
Fixpoint alloc_ptrs (a : Z) (bs : list block) : gset Z :=
  match bs with
  | [] => ∅
  | b :: rest =>
    (if balloc b then {[a + sizeof_blockHeader]} else ∅) ∪
    alloc_ptrs (a + bsize b) rest
  end.

(** [reachable e sz s live]: the state [s] is reached from a successful
    [myInit e _ sz] by calls of [myAlloc], [myFree] and [coalesce] that
    return, and by writes of the caller into the blocks it holds; [live] is
    the set of addresses returned by [myAlloc] and not yet freed. A caller
    passes to [myFree] an address of [live] (a call with any other address
    is part of a run only when it fails) and writes only between an address
    [p] of [live] and the end of the block of [p]. *)
Inductive reachable (e : env) (sz : Z) : state → gset Z → Prop :=
  | reach_init s0 s :
      allocated_once s0 = 0 → myInit e s0 sz = Some (s, 0) →
      reachable e sz s ∅
  | reach_alloc s live fuel n s' p :
      reachable e sz s live → myAlloc fuel s n = Some (s', p) →
      reachable e sz s' (if decide (p = NULL) then live else {[p]} ∪ live)
  | reach_free s live ptr s' r :
      reachable e sz s live → myFree s ptr = Some (s', r) →
      r = -1 ∨ ptr ∈ live →
      reachable e sz s' (if decide (r = -1) then live else live ∖ {[ptr]})
  | reach_coalesce s live fuel s' r :
      reachable e sz s live → coalesce ILP32 fuel s = Some (s', r) →
      reachable e sz s' live
  | reach_write s live p h x v m' :
      reachable e sz s live → p ∈ live →
      mem s !! (p - sizeof_blockHeader) = Some h →
      p ≤ x < p - sizeof_blockHeader + size_of h →
      store (mem s) x v = Some m' →
      reachable e sz (set_mem s m') live.

(** The sum of the sizes [dispMem] reports. *)
Definition sum_sizes (rows : list row) : Z :=
  foldr (λ r acc, r_size r + acc) 0 rows.

(** ** Auxiliary definitions of the proofs *)

(** The alloc-bit of the last block of [l], [p] when [l] is empty. *)
Definition last_alloc (p : bool) (l : list block) : bool :=
  match last l with Some b => balloc b | None => p end.

(** The invariant of the best-fit loop of [myAlloc] once it has scanned the
    blocks [l] from address [a0]. *)
Definition scan_inv (l : list block) (size a0 : Z) (acc : Z * Z * Z) : Prop :=
  let '(flag, best, best_size) := acc in
  (flag = 0 ∧ no_fit l size) ∨
  (flag = 1 ∧ ∃ i b, is_best_fit l size i ∧ l !! i = Some b ∧
                     best = a0 + total (take i l) ∧ best_size = bsize b).

(** The first block of [bs] is free. *)
Definition head_free (bs : list block) : bool :=
  match bs with
  | b :: _ => negb (balloc b)
  | [] => false
  end.

(** [unchanged_blocks m m' a prev_free bs]: every word of every block of
    [bs] (laid out from [a]) that is allocated, or free with no free
    neighbour, is the same in [m'] as in [m]. *)
Fixpoint unchanged_blocks (m m' : gmap Z Z) (a : Z) (prev_free : bool)
    (bs : list block) : Prop :=
  match bs with
  | [] => True
  | b :: rest =>
    (balloc b = true ∨ (prev_free = false ∧ head_free rest = false) →
     ∀ x, a ≤ x < a + bsize b → m' !! x = m !! x) ∧
    unchanged_blocks m m' (a + bsize b) (negb (balloc b)) rest
  end.

(** The invariant of the states of a run: a well-formed block list whose
    allocated payloads are the live addresses, in the region that [myInit]
    set up at [mmap_ptr]. *)
Definition run_inv (e : env) (sz mmap_ptr : Z) (s : state) (live : gset Z)
    : Prop :=
  ∃ bs, heap_inv s bs ∧ live = alloc_ptrs (heapStart s) bs ∧
        heapStart s = mmap_ptr + sizeof_blockHeader ∧
        allocsize s = usable e sz.

(** ** Executable checks, for the examples *)

(** An executable check of [heap_inv]. *)
Fixpoint check_blocks (m : gmap Z Z) (a : Z) (p : bool) (bs : list block) : bool :=
  match bs with
  | [] => true
  | b :: bs =>
    (8 <=? bsize b) && (bsize b mod 8 =? 0) &&
    bool_decide (m !! a = Some (hdr (bsize b) p (balloc b))) &&
    (balloc b || bool_decide (m !! (a + bsize b - 4) = Some (bsize b))) &&
    check_blocks m (a + bsize b) (balloc b) bs
  end.

Definition check_heap (s : state) (bs : list block) : bool :=
  (0 <? heapStart s) && (heapStart s mod 8 =? 4) &&
  (0 <=? allocsize s) && (allocsize s <=? INT_MAX - 15) &&
  forallb (λ k, bool_decide (is_Some (mem s !! (heapStart s + 4 * k))))
          (seqZ 0 (allocsize s / 4 + 1)) &&
  check_blocks (mem s) (heapStart s) true bs &&
  (total bs =? allocsize s) &&
  bool_decide (mem s !! (heapStart s + allocsize s) = Some 1).

(** An executable check of [is_best_fit]. *)
Fixpoint fit_check (size sz : Z) (i j : nat) (bs : list block) : bool :=
  match bs with
  | [] => true
  | b' :: rest =>
    (balloc b' || (bsize b' <? size) || (sz <? bsize b') ||
     ((sz =? bsize b') && (i <=? j)%nat)) &&
    fit_check size sz i (S j) rest
  end.

Definition best_fit_check (bs : list block) (size : Z) (i : nat) : bool :=
  match bs !! i with
  | Some b =>
    negb (balloc b) && (size <=? bsize b) && fit_check size (bsize b) i 0 bs
  | None => false
  end.

(** ** Example heaps and environments *)

(** [heap_of mmap_ptr bs] is an initialized heap whose region was mapped at
    [mmap_ptr] and whose block list is [bs]. *)
Fixpoint layout (m : gmap Z Z) (a : Z) (p : bool) (bs : list block)
    : gmap Z Z :=
  match bs with
  | [] => <[a := 1]> m
  | b :: rest =>
    let m := <[a := hdr (bsize b) p (balloc b)]> m in
    let m := if balloc b then m else <[a + bsize b - 4 := bsize b]> m in
    layout m (a + bsize b) (balloc b) rest
  end.

Definition heap_of (mmap_ptr : Z) (bs : list block) : state :=
  State (mmap_ptr + 4) (total bs) 1
        (layout (map_region ∅ mmap_ptr (total bs + 8)) (mmap_ptr + 4) true bs).

(** Free blocks of 40, 24 and 64 bytes kept apart by allocated blocks. *)
Definition blocks_40_24_64 : list block :=
  [Block 40 false; Block 16 true; Block 24 false; Block 16 true;
   Block 64 false].
Definition heap_40_24_64 : state := heap_of 4096 blocks_40_24_64.

(** One free block of 64 bytes. *)
Definition heap_64 : state := heap_of 4096 [Block 64 false].

(** Three adjacent free blocks of 16, 24 and 8 bytes before an allocated
    block. *)
Definition blocks_16_24_8 : list block :=
  [Block 16 false; Block 24 false; Block 8 false; Block 16 true].
Definition heap_16_24_8 : state := heap_of 4096 blocks_16_24_8.

(** An environment with 4096-byte pages whose [mmap] succeeds at 40960. *)
Definition env_4096 : env := Env 4096 3 (λ _, Some 40960).

(** An environment whose /dev/zero cannot be opened. *)
Definition env_open_fails : env := Env 4096 (-1) (λ _, Some 40960).

(** The state an operation leaves, for the examples. *)
Definition state_after (r : option (state * Z)) (s : state) : state :=
  match r with
  | Some (s', _) => s'
  | None => s
  end.

(** What [dispMem] shows of a state: the size and used flag of each block. *)
Definition block_view (fuel : nat) (s : state) : option (list (Z * bool)) :=
  '(rows, _, _) ← dispMem fuel s;
  Some (map (λ r, (r_size r, r_used r)) rows).

(** ** Further definitions: what [dispMem] reports, adjacency *)

(** No two neighbours of [bs] are both free, the block before [bs] having
    alloc-bit [p]. *)
Fixpoint no_free_pair (p : bool) (bs : list block) : bool :=
  match bs with
  | [] => true
  | b :: rest => (p || balloc b) && no_free_pair (balloc b) rest
  end.

(** The rows of the block list [bs] laid out from [a], the block before
    [a] having alloc-bit [p]. *)
Fixpoint rows_of (a : Z) (p : bool) (bs : list block) : list row :=
  match bs with
  | [] => []
  | b :: rest =>
    Row (balloc b) p a (a + bsize b - 1) (bsize b) ::
    rows_of (a + bsize b) (balloc b) rest
  end.

(** The bytes of the blocks of [bs] whose alloc-bit is [al]. *)
Fixpoint total_of (al : bool) (bs : list block) : Z :=
  match bs with
  | [] => 0
  | b :: rest =>
    (if bool_decide (balloc b = al) then bsize b else 0) + total_of al rest
  end.

(** The rows of a walk from [a] are those of consistent blocks of the
    memory [m]: each row starts where the one before ends, its previous-used
    flag is the used flag of the one before ([p] for the first), its size is
    a positive multiple of 8, and a free row has its size in its last
    word. *)
Fixpoint rows_consistent (m : gmap Z Z) (a : Z) (p : bool) (rows : list row)
    : Prop :=
  match rows with
  | [] => True
  | r :: rest =>
    r_begin r = a ∧ r_prev_used r = p ∧
    8 ≤ r_size r ∧ r_size r mod 8 = 0 ∧
    r_end r = a + r_size r - 1 ∧
    (r_used r = false → m !! (r_end r - 3) = Some (r_size r)) ∧
    rows_consistent m (r_end r + 1) (r_used r) rest
  end.

(** A state before [myInit]: no region, usable size 0. *)
Definition uninitialized (s : state) : Prop :=
  heapStart s = NULL ∧ allocsize s = 0.

(** Blocks of 16 and 24 bytes allocated, then a free block of 24. *)
Definition blocks_a16_a24_f24 : list block :=
  [Block 16 true; Block 24 true; Block 24 false].
Definition heap_a16_a24_f24 : state := heap_of 4096 blocks_a16_a24_f24.

(** A heap fresh from [myInit], and the same after [myAlloc 100], whose
    result 40968 is then the only live address. *)
Definition fresh_4096 : state :=
  state_after (myInit env_4096 initial_state 100) initial_state.
Definition fresh_4096_alloc : state :=
  state_after (myAlloc 3 fresh_4096 100) fresh_4096.
Definition live_40968 : gset Z :=
  if decide (40968 = NULL) then ∅ else {[40968]} ∪ ∅.

(** The same after [myAlloc 50], whose result 41072 is live as well. *)
Definition fresh_4096_alloc2 : state :=
  state_after (myAlloc 3 fresh_4096_alloc 50) fresh_4096_alloc.
Definition live_41072_40968 : gset Z :=
  if decide (41072 = NULL) then live_40968 else {[41072]} ∪ live_40968.

(** ** Headers alone, and the pointer size

    [coalesce] is the one function that depends on the size of a pointer
    (line 306). With 8-byte pointers it leaves footers that do not hold the
    size of their block, so what holds for both sizes is stated on the
    headers alone. *)

(** The pointer size of an LP64 target. *)
Definition LP64 : Z := 8.

Definition pointer_size (psz : Z) : Prop := psz = ILP32 ∨ psz = LP64.

(** [headers_at m a p bs]: the memory holds the headers of the blocks [bs]
    one after the other from address [a], the block before [a] having
    alloc-bit [p]; nothing is asked of the footers. *)
Fixpoint headers_at (m : gmap Z Z) (a : Z) (p : bool) (bs : list block) : Prop :=
  match bs with
  | [] => True
  | b :: bs =>
    8 ≤ bsize b ∧ bsize b mod 8 = 0 ∧
    m !! a = Some (hdr (bsize b) p (balloc b)) ∧
    headers_at m (a + bsize b) (balloc b) bs
  end.

(** [heap_inv] without the footers. *)
Record headers_inv (s : state) (bs : list block) : Prop := HeadersInv {
  hinv_start : 0 < heapStart s;
  hinv_align : heapStart s mod 8 = 4;
  hinv_range : 0 ≤ allocsize s ≤ INT_MAX - 15;
  hinv_mapped : ∀ k, 0 ≤ k ≤ allocsize s / 4 →
                is_Some (mem s !! (heapStart s + 4 * k));
  hinv_headers : headers_at (mem s) (heapStart s) true bs;
  hinv_total : total bs = allocsize s;
  hinv_end : mem s !! (heapStart s + allocsize s) = Some 1
}.

(** The run of the three free blocks: on a fresh heap, blocks of 16, 24, 8
    and 16 bytes are allocated (at 40968, 40984, 41008 and 41016) and the
    first three are freed. *)
Definition run_16_24_8 : state :=
  let s := fresh_4096 in
  let s := state_after (myAlloc 3 s 12) s in
  let s := state_after (myAlloc 4 s 20) s in
  let s := state_after (myAlloc 5 s 4) s in
  let s := state_after (myAlloc 6 s 12) s in
  let s := state_after (myFree s 40968) s in
  let s := state_after (myFree s 40984) s in
  state_after (myFree s 41008) s.

(** The same run continued with 8-byte pointers: [coalesce] merges the
    three blocks, leaving 8 in the last word of the block of 48, and the
    block of 16 bytes is freed. *)
Definition run_lp64_freed : state :=
  let s := run_16_24_8 in
  let s := state_after (coalesce LP64 8 s) s in
  state_after (myFree s 41016) s.

(** A fresh heap after [myAlloc 100] and [myFree] of its result 40968: two
    adjacent free blocks, no live address. *)
Definition fresh_4096_freed : state :=
  state_after (myFree fresh_4096_alloc 40968) fresh_4096_alloc.
Definition live_freed : gset Z :=
  if decide (0 = -1) then live_40968 else live_40968 ∖ {[40968]}.

(** An executable check of [headers_inv]. *)
Fixpoint check_headers_at (m : gmap Z Z) (a : Z) (p : bool) (bs : list block)
    : bool :=
  match bs with
  | [] => true
  | b :: bs =>
    (8 <=? bsize b) && (bsize b mod 8 =? 0) &&
    bool_decide (m !! a = Some (hdr (bsize b) p (balloc b))) &&
    check_headers_at m (a + bsize b) (balloc b) bs
  end.

Definition check_headers (s : state) (bs : list block) : bool :=
  (0 <? heapStart s) && (heapStart s mod 8 =? 4) &&
  (0 <=? allocsize s) && (allocsize s <=? INT_MAX - 15) &&
  forallb (λ k, bool_decide (is_Some (mem s !! (heapStart s + 4 * k))))
          (seqZ 0 (allocsize s / 4 + 1)) &&
  check_headers_at (mem s) (heapStart s) true bs &&
  (total bs =? allocsize s) &&
  bool_decide (mem s !! (heapStart s + allocsize s) = Some 1).


(** * Proofs *)

(* [set_solver] clears hypotheses that may be absent. *)
#[local] Set Warnings "-clear-no-such-hyp".

Ltac zlia := Z.to_euclidean_division_equations; lia.

(** ** Integer arithmetic *)

Lemma wrap_id z : INT_MIN ≤ z ≤ INT_MAX → wrap z = z.
Proof. unfold wrap, INT_MIN, INT_MAX. intros. zlia. Qed.

Lemma wrap_range z : INT_MIN ≤ wrap z ≤ INT_MAX.
Proof. unfold wrap, INT_MIN, INT_MAX. zlia. Qed.

Lemma wrap_mod8 z : wrap z mod 8 = z mod 8.
Proof. unfold wrap. zlia. Qed.

(** Removes the [wrap]s of the goal whose argument is in range. *)
Ltac int_range :=
  unfold hdr, INT_MIN, INT_MAX in *;
  repeat match goal with |- context [if ?c then _ else _] => destruct c end;
  lia.

Ltac int_norm :=
  unfold iadd, isub;
  repeat match goal with
         | |- context [wrap ?z] =>
           lazymatch z with
           | context [wrap _] => fail
           | _ => rewrite (wrap_id z) by int_range
           end
         end.

Lemma land_1 x : Z.land x 1 = x mod 2.
Proof. change 1 with (Z.ones 1). rewrite Z.land_ones by lia. reflexivity. Qed.

Lemma land_2_bit x : Z.land x 2 = if Z.testbit x 1 then 2 else 0.
Proof.
  apply Z.bits_inj'. intros n Hn.
  rewrite Z.land_spec. change 2 with (2 ^ 1) at 1.
  rewrite Z.pow2_bits_eqb by lia.
  destruct (Z.eqb_spec 1 n) as [<-|Hne].
  - rewrite andb_true_r. destruct (Z.testbit x 1); reflexivity.
  - rewrite andb_false_r. destruct (Z.testbit x 1); simpl.
    + change 2 with (2 ^ 1). rewrite Z.pow2_bits_eqb by lia.
      symmetry. apply Z.eqb_neq. done.
    + symmetry. apply Z.testbit_0_l.
Qed.

Lemma land_2 x : Z.land x 2 = 2 * ((x / 2) mod 2).
Proof.
  rewrite land_2_bit.
  pose proof (Z.testbit_spec' x 1 ltac:(lia)) as H. change (2 ^ 1) with 2 in H.
  rewrite <- H. destruct (Z.testbit x 1); reflexivity.
Qed.

Lemma testbit_0 x : Z.testbit x 0 = negb (x mod 2 =? 0).
Proof.
  rewrite Z.bit0_odd, Zodd_mod.
  destruct (Z.eqb_spec (x mod 2) 1), (Z.eqb_spec (x mod 2) 0);
    try reflexivity; zlia.
Qed.

Lemma testbit_1 x : Z.testbit x 1 = negb ((x / 2) mod 2 =? 0).
Proof.
  pose proof (Z.testbit_spec' x 1 ltac:(lia)) as H. change (2 ^ 1) with 2 in H.
  destruct (Z.testbit x 1); simpl in H; rewrite <- H; reflexivity.
Qed.

(** ** Header words *)

Section header.
Variables (sz : Z) (p a : bool).
Hypothesis Hsz : 8 ≤ sz ≤ INT_MAX - 15.
Hypothesis Hmod : sz mod 8 = 0.

Lemma hdr_range : 8 ≤ hdr sz p a ≤ INT_MAX - 12.
Proof. unfold hdr, INT_MAX in *. destruct p, a; lia. Qed.

Lemma hdr_not_end : (hdr sz p a =? 1) = false.
Proof. apply Z.eqb_neq. pose proof hdr_range. lia. Qed.

Lemma hdr_size_c : isub (hdr sz p a) (irem (hdr sz p a) 8) = sz.
Proof.
  unfold isub, irem. pose proof hdr_range as Hr.
  assert (hdr sz p a - Z.rem (hdr sz p a) 8 = sz) as ->.
  { unfold hdr in *. destruct p, a; zlia. }
  apply wrap_id. unfold INT_MIN, INT_MAX in *. lia.
Qed.

Lemma hdr_rem2 : (irem (hdr sz p a) 2 =? 0) = negb a.
Proof.
  unfold irem, hdr. destruct a; simpl;
    [apply Z.eqb_neq | apply Z.eqb_eq]; destruct p; zlia.
Qed.

Lemma hdr_land1 : (Z.land (hdr sz p a) 1 =? 0) = negb a.
Proof.
  rewrite land_1. unfold hdr. destruct a; simpl;
    [apply Z.eqb_neq | apply Z.eqb_eq]; destruct p; zlia.
Qed.

Lemma hdr_land2 : Z.land (hdr sz p a) 2 = if p then 2 else 0.
Proof. rewrite land_2. unfold hdr. destruct p, a; zlia. Qed.

Lemma hdr_size_of : size_of (hdr sz p a) = sz.
Proof. unfold size_of, hdr. destruct p, a; zlia. Qed.

Lemma hdr_alloc_bit : alloc_bit (hdr sz p a) = a.
Proof.
  unfold alloc_bit. rewrite testbit_0. unfold hdr.
  destruct a; simpl; [apply negb_true_iff, Z.eqb_neq
                     | apply negb_false_iff, Z.eqb_eq]; destruct p; zlia.
Qed.

Lemma hdr_prev_alloc_bit : prev_alloc_bit (hdr sz p a) = p.
Proof.
  unfold prev_alloc_bit. rewrite testbit_1. unfold hdr.
  destruct p; simpl; [apply negb_true_iff, Z.eqb_neq
                     | apply negb_false_iff, Z.eqb_eq]; destruct a; zlia.
Qed.
End header.

(** ** Block lists *)

Lemma total_app l1 l2 : total (l1 ++ l2) = total l1 + total l2.
Proof. induction l1 as [|b l1 IH]; simpl; [|rewrite IH]; lia. Qed.

Lemma total_cons b l : total (b :: l) = bsize b + total l.
Proof. reflexivity. Qed.

Lemma total_take_drop (bs : list block) i b :
  bs !! i = Some b → total bs = total (take i bs) + bsize b + total (drop (S i) bs).
Proof.
  intros H. rewrite <- (take_drop_middle bs i b H) at 1.
  rewrite total_app, total_cons. lia.
Qed.

Lemma last_alloc_cons p b l : last_alloc p (b :: l) = last_alloc (balloc b) l.
Proof.
  unfold last_alloc. destruct l as [|b' l]; [reflexivity|].
  change (last (b :: b' :: l)) with (last (b' :: l)).
  destruct (last (b' :: l)) eqn:E; [reflexivity|].
  apply last_None in E. discriminate.
Qed.

Lemma last_alloc_snoc p l b : last_alloc p (l ++ [b]) = balloc b.
Proof. unfold last_alloc. rewrite last_snoc. reflexivity. Qed.

Lemma blocks_at_app m a p l1 l2 :
  blocks_at m a p (l1 ++ l2) ↔
  blocks_at m a p l1 ∧ blocks_at m (a + total l1) (last_alloc p l1) l2.
Proof.
  revert a p. induction l1 as [|b l1 IH]; intros a p; simpl.
  - rewrite Z.add_0_r. unfold last_alloc. simpl. tauto.
  - rewrite IH, last_alloc_cons.
    replace (a + (bsize b + total l1)) with (a + bsize b + total l1) by lia.
    tauto.
Qed.

Lemma blocks_at_sizes m a p bs :
  blocks_at m a p bs → Forall (λ b, 8 ≤ bsize b ∧ bsize b mod 8 = 0) bs.
Proof.
  revert a p. induction bs as [|b bs IH]; intros a p H; constructor.
  - simpl in H. tauto.
  - simpl in H. apply (IH (a + bsize b) (balloc b)). tauto.
Qed.

Lemma sizes_total bs :
  Forall (λ b, 8 ≤ bsize b ∧ bsize b mod 8 = 0) bs →
  8 * Z.of_nat (length bs) ≤ total bs ∧ total bs mod 8 = 0.
Proof.
  induction 1 as [|b bs [H1 H2] _ [IH1 IH2]]; simpl; [done|].
  split; [lia|zlia].
Qed.

Lemma sizes_lookup bs i b :
  Forall (λ b, 8 ≤ bsize b ∧ bsize b mod 8 = 0) bs → bs !! i = Some b →
  8 ≤ bsize b ∧ bsize b mod 8 = 0 ∧
  0 ≤ total (take i bs) ∧ total (take i bs) mod 8 = 0 ∧
  0 ≤ total (drop (S i) bs) ∧ total (drop (S i) bs) mod 8 = 0.
Proof.
  intros HF Hi.
  pose proof (Forall_lookup_1 _ _ _ _ HF Hi) as [? ?].
  pose proof (sizes_total _ (Forall_take _ i _ HF)) as [? ?].
  pose proof (sizes_total _ (Forall_drop _ (S i) _ HF)) as [? ?].
  repeat split; try done; lia.
Qed.

(** [blocks_at] reads only the words of the blocks. *)
Lemma blocks_at_frame m m' a p bs :
  (∀ x, a ≤ x < a + total bs → m' !! x = m !! x) →
  blocks_at m a p bs → blocks_at m' a p bs.
Proof.
  revert a p. induction bs as [|b bs IH]; intros a p Hx H; [done|].
  simpl in *. destruct H as (H8 & Hm & Hh & Hf & Hr).
  pose proof (blocks_at_sizes _ _ _ _ Hr) as HF.
  apply sizes_total in HF as [HF _].
  repeat split; try done.
  - rewrite Hx by lia. done.
  - intros Hb. rewrite Hx by lia. auto.
  - apply IH; [|done]. intros x ?. apply Hx. lia.
Qed.

(** The middle block of a list. *)
Lemma blocks_at_middle m a p pre b post :
  blocks_at m a p (pre ++ b :: post) ↔
  blocks_at m a p pre ∧
  (8 ≤ bsize b ∧ bsize b mod 8 = 0 ∧
   m !! (a + total pre) = Some (hdr (bsize b) (last_alloc p pre) (balloc b)) ∧
   (balloc b = false → m !! (a + total pre + bsize b - 4) = Some (bsize b))) ∧
  blocks_at m (a + total pre + bsize b) (balloc b) post.
Proof. rewrite blocks_at_app. simpl. tauto. Qed.

(** Changing the prev-alloc-bit of the first block of a list. *)
Lemma blocks_at_set_prev m a p p' post :
  blocks_at m a p post →
  blocks_at (match post with
             | b :: _ => <[a := hdr (bsize b) p' (balloc b)]> m
             | [] => m
             end) a p' post.
Proof.
  destruct post as [|b post]; [done|]. simpl.
  intros (H8 & Hm & Hh & Hf & Hr).
  pose proof (blocks_at_sizes _ _ _ _ Hr) as HF.
  apply sizes_total in HF as [HF _].
  repeat split; try done.
  - apply lookup_insert_eq.
  - intros Hb. rewrite lookup_insert_ne by lia. auto.
  - eapply blocks_at_frame; [|done]. intros x ?.
    apply lookup_insert_ne. lia.
Qed.

(** ** Best fit *)

Lemma best_fit_unique bs size i j :
  is_best_fit bs size i → is_best_fit bs size j → i = j.
Proof.
  intros (b & Hb & Hfb & Hsb & Hmin) (c & Hc & Hfc & Hsc & Hmin').
  destruct (Hmin j c Hc Hfc Hsc) as [?|[? ?]];
    destruct (Hmin' i b Hb Hfb Hsb) as [?|[? ?]]; lia.
Qed.

Lemma no_fit_snoc l size b :
  no_fit l size → (balloc b = true ∨ bsize b < size) → no_fit (l ++ [b]) size.
Proof.
  intros Hn Hb j b' Hj Hf.
  apply lookup_app_Some in Hj as [Hj|[Hlen Hj]]; [by eapply Hn|].
  destruct (j - length l)%nat; simpl in Hj; [|done].
  injection Hj as <-. destruct Hb; [congruence|done].
Qed.

Lemma best_fit_first l size b :
  no_fit l size → balloc b = false → size ≤ bsize b →
  is_best_fit (l ++ [b]) size (length l).
Proof.
  intros Hn Hf Hs. exists b. split; [|split; [done|split; [done|]]].
  - rewrite lookup_app_r by lia. rewrite Nat.sub_diag. done.
  - intros j b' Hj Hf' Hs'.
    apply lookup_app_Some in Hj as [Hj|[Hlen Hj]].
    + specialize (Hn j b' Hj Hf'). lia.
    + destruct (j - length l)%nat; simpl in Hj; [|done].
      injection Hj as <-. right. split; [done|lia].
Qed.

Lemma best_fit_keep l size i bi b :
  is_best_fit l size i → l !! i = Some bi →
  (balloc b = true ∨ bsize b < size ∨ bsize bi ≤ bsize b) →
  is_best_fit (l ++ [b]) size i.
Proof.
  intros (c & Hc & Hfc & Hsc & Hmin) Hi Hb.
  assert (c = bi) as -> by congruence.
  exists bi. split; [|split; [done|split; [done|]]].
  - apply lookup_app_l_Some. done.
  - intros j b' Hj Hf' Hs'.
    apply lookup_app_Some in Hj as [Hj|[Hlen Hj]]; [by eapply Hmin|].
    destruct (j - length l)%nat; simpl in Hj; [|done].
    injection Hj as <-. apply lookup_lt_Some in Hi.
    destruct Hb as [?|[?|?]]; [congruence|lia|].
    destruct (Z.eq_dec (bsize bi) (bsize b)); [right; split; [done|lia]|lia].
Qed.

Lemma best_fit_replace l size i bi b :
  is_best_fit l size i → l !! i = Some bi →
  balloc b = false → size ≤ bsize b → bsize b < bsize bi →
  is_best_fit (l ++ [b]) size (length l).
Proof.
  intros (c & Hc & Hfc & Hsc & Hmin) Hi Hf Hs Hlt.
  assert (c = bi) as -> by congruence.
  exists b. split; [|split; [done|split; [done|]]].
  - rewrite lookup_app_r by lia. rewrite Nat.sub_diag. done.
  - intros j b' Hj Hf' Hs'.
    apply lookup_app_Some in Hj as [Hj|[Hlen Hj]].
    + destruct (Hmin j b' Hj Hf' Hs') as [?|[? ?]]; lia.
    + destruct (j - length l)%nat; simpl in Hj; [|done].
      injection Hj as <-. right. split; [done|lia].
Qed.

(** One iteration of the loop keeps the invariant. *)
Lemma scan_inv_skip l size a0 acc b :
  scan_inv l size a0 acc → (balloc b = true ∨ bsize b < size) →
  scan_inv (l ++ [b]) size a0 acc.
Proof.
  destruct acc as [[flag best] bsz]. simpl.
  intros [[-> Hn]|[-> (i & bi & Hbf & Hi & -> & ->)]] Hb.
  - left. split; [done|]. by apply no_fit_snoc.
  - right. split; [done|]. exists i, bi. split; [|split; [|split]]; try done.
    + eapply best_fit_keep; [done..|]. destruct Hb; auto.
    + apply lookup_app_l_Some. done.
    + rewrite take_app_le; [done|]. apply lookup_lt_Some in Hi. lia.
Qed.

Lemma scan_inv_candidate l size a0 flag best bsz b :
  scan_inv l size a0 (flag, best, bsz) → balloc b = false → size ≤ bsize b →
  scan_inv (l ++ [b]) size a0
    (let '(flag, best, best_size) :=
       if flag =? 0 then (1, a0 + total l, bsize b) else (flag, best, bsz) in
     let '(best, best_size) :=
       if bsize b <? best_size then (a0 + total l, bsize b)
       else (best, best_size) in
     (flag, best, best_size)).
Proof.
  simpl. intros [[-> Hn]|[-> (i & bi & Hbf & Hi & -> & ->)]] Hf Hs; simpl.
  - rewrite Z.ltb_irrefl. right. split; [done|].
    exists (length l), b. split; [|split; [|split]]; try done.
    + by apply best_fit_first.
    + rewrite lookup_app_r by lia. rewrite Nat.sub_diag. done.
    + rewrite take_app_length. done.
  - destruct (Z.ltb_spec (bsize b) (bsize bi)); right; (split; [done|]).
    + exists (length l), b. split; [|split; [|split]]; try done.
      * by eapply best_fit_replace.
      * rewrite lookup_app_r by lia. rewrite Nat.sub_diag. done.
      * rewrite take_app_length. done.
    + exists i, bi. split; [|split; [|split]]; try done.
      * eapply best_fit_keep; [done..|]. auto.
      * apply lookup_app_l_Some. done.
      * rewrite take_app_le; [done|]. apply lookup_lt_Some in Hi. lia.
Qed.

(** ** The best-fit loop *)

Lemma alloc_scan_spec m size a0 p0 all :
  blocks_at m a0 p0 all → total all ≤ INT_MAX - 15 →
  m !! (a0 + total all) = Some 1 →
  ∀ bs pre fuel flag best bsz,
    all = pre ++ bs → (length bs < fuel)%nat →
    scan_inv pre size a0 (flag, best, bsz) →
    ∃ acc, alloc_scan fuel m size (a0 + total pre) flag best bsz = Some acc ∧
           scan_inv all size a0 acc.
Proof.
  intros Hall Hmax Hend.
  induction bs as [|b bs IH]; intros pre fuel flag best bsz -> Hfuel Hinv;
    (destruct fuel as [|fuel]; [simpl in Hfuel; lia|]); simpl.
  - rewrite app_nil_r in *. unfold load. rewrite Hend. simpl.
    eexists. split; [done|]. done.
  - apply blocks_at_middle in Hall as Hmid.
    destruct Hmid as (Hpre & (H8 & Hm8 & Hh & Hfoot) & Hpost).
    pose proof (sizes_total _ (blocks_at_sizes _ _ _ _ Hpre)) as [Hp0 _].
    pose proof (sizes_total _ (blocks_at_sizes _ _ _ _ Hpost)) as [Hp1 _].
    rewrite total_app, total_cons in Hmax.
    assert (8 ≤ bsize b ≤ INT_MAX - 15) as Hb by lia.
    unfold load. rewrite Hh. simpl.
    rewrite hdr_not_end, hdr_size_c, hdr_rem2 by done.
    rewrite negb_involutive.
    assert (a0 + total pre + bsize b = a0 + total (pre ++ [b])) as Hnext.
    { rewrite total_app. simpl. lia. }
    assert (pre ++ b :: bs = (pre ++ [b]) ++ bs) as Hassoc.
    { rewrite <- app_assoc. done. }
    simpl in Hfuel.
    destruct (balloc b) eqn:Hba; simpl.
    { rewrite Hnext. apply IH; [done|lia|].
      apply scan_inv_skip; auto. }
    destruct (Z.ltb_spec (bsize b) size); simpl.
    { rewrite Hnext. apply IH; [done|lia|].
      apply scan_inv_skip; auto. }
    pose proof (scan_inv_candidate pre size a0 flag best bsz b Hinv Hba H) as Hc.
    destruct (flag =? 0); destruct (bsize b <? _);
      rewrite Hnext; apply IH; try done; lia.
Qed.

(** ** Memory and the invariant *)

Lemma store_Some m a v :
  is_Some (m !! a) → store m a v = Some (<[a := v]> m).
Proof. intros [w Hw]. unfold store. rewrite Hw. done. Qed.

Lemma insert_is_Some (m : gmap Z Z) a v x :
  is_Some (m !! x) → is_Some (<[a := v]> m !! x).
Proof.
  intros H. destruct (decide (a = x)) as [->|Hne].
  - rewrite lookup_insert_eq. eauto.
  - rewrite lookup_insert_ne by done. done.
Qed.

Ltac msimpl :=
  repeat first [rewrite lookup_insert_eq
               | rewrite lookup_insert_ne by lia ].

Lemma heap_inv_mapped s bs x :
  heap_inv s bs → heapStart s ≤ x ≤ heapStart s + allocsize s →
  (x - heapStart s) mod 4 = 0 → is_Some (mem s !! x).
Proof.
  intros H Hx Hm.
  replace x with (heapStart s + 4 * ((x - heapStart s) / 4)) by zlia.
  apply (inv_mapped _ _ H). zlia.
Qed.

Lemma heap_inv_update s bs m' bs' :
  heap_inv s bs →
  (∀ x, is_Some (mem s !! x) → is_Some (m' !! x)) →
  blocks_at m' (heapStart s) true bs' →
  total bs' = allocsize s →
  m' !! (heapStart s + allocsize s) = Some 1 →
  heap_inv (set_mem s m') bs'.
Proof.
  intros H Hdom Hb Ht He. destruct H. constructor; simpl; auto.
Qed.

Lemma heap_inv_block s bs i b :
  heap_inv s bs → bs !! i = Some b →
  8 ≤ bsize b ≤ INT_MAX - 15 ∧ bsize b mod 8 = 0 ∧
  0 ≤ total (take i bs) ∧ total (take i bs) mod 8 = 0 ∧
  0 ≤ total (drop (S i) bs) ∧ total (drop (S i) bs) mod 8 = 0 ∧
  allocsize s = total (take i bs) + bsize b + total (drop (S i) bs) ∧
  blocks_at (mem s) (heapStart s) true (take i bs) ∧
  mem s !! block_addr s bs i =
    Some (hdr (bsize b) (last_alloc true (take i bs)) (balloc b)) ∧
  (balloc b = false →
   mem s !! (block_addr s bs i + bsize b - 4) = Some (bsize b)) ∧
  blocks_at (mem s) (block_addr s bs i + bsize b) (balloc b) (drop (S i) bs).
Proof.
  intros H Hi.
  pose proof (inv_blocks _ _ H) as Hb.
  pose proof (sizes_lookup _ _ _ (blocks_at_sizes _ _ _ _ Hb) Hi)
    as (? & ? & ? & ? & ? & ?).
  pose proof (total_take_drop _ _ _ Hi) as Ht.
  rewrite (inv_total _ _ H) in Ht.
  rewrite <- (take_drop_middle bs i b Hi) in Hb.
  apply blocks_at_middle in Hb as (Hpre & (_ & _ & Hh & Hf) & Hpost).
  pose proof (inv_range _ _ H). unfold block_addr.
  repeat split; try done; lia.
Qed.

Lemma block_size_for_needed n :
  0 < n ≤ INT_MAX - 15 → block_size_for n = needed n.
Proof.
  intros Hn. unfold block_size_for, needed, iadd, isub, irem, INT_MAX in *.
  rewrite (wrap_id (n + 4)) by (unfold INT_MIN, INT_MAX; lia).
  destruct (Z.eqb_spec (Z.rem (n + 4) 8) 0) as [E|E]; simpl; [zlia|].
  rewrite (wrap_id (n + 4 + 8)) by (unfold INT_MIN, INT_MAX; lia).
  rewrite wrap_id by (unfold INT_MIN, INT_MAX; zlia). zlia.
Qed.

Lemma needed_spec n : n + 4 ≤ needed n < n + 12 ∧ needed n mod 8 = 0.
Proof. unfold needed. zlia. Qed.

(** ** myAlloc *)

Lemma myAlloc_scan_result s bs n fuel :
  heap_inv s bs → (length bs < fuel)%nat →
  ∃ acc, alloc_scan fuel (mem s) (needed n) (heapStart s) 0 NULL 0 = Some acc ∧
         scan_inv bs (needed n) (heapStart s) acc.
Proof.
  intros H Hf.
  pose proof (alloc_scan_spec (mem s) (needed n) (heapStart s) true bs
                (inv_blocks _ _ H)) as Hs.
  rewrite (inv_total _ _ H) in Hs.
  specialize (Hs (proj2 (inv_range _ _ H)) (inv_end _ _ H)
                 bs [] fuel 0 NULL 0 eq_refl Hf).
  simpl in Hs. rewrite Z.add_0_r in Hs. apply Hs.
  left. split; [done|]. intros j b' Hj. done.
Qed.

Lemma myAlloc_fit s bs n i fuel :
  heap_inv s bs → 0 < n → is_best_fit bs (needed n) i →
  (length bs < fuel)%nat →
  ∃ s', myAlloc fuel s n = Some (s', payload_addr s bs i) ∧
        heap_inv s' (place bs i (needed n)) ∧
        heapStart s' = heapStart s ∧ allocsize s' = allocsize s ∧
        allocated_once s' = allocated_once s.
Proof.
  intros H Hn Hbf Hfuel.
  destruct (Hbf) as (b & Hi & Hfree & Hsz & Hmin).
  pose proof (heap_inv_block _ _ _ _ H Hi)
    as (Hb8 & Hbm & Hp0 & Hpm & Hd0 & Hdm & Has & Hpre & Hh & Hfoot & Hpost).
  specialize (Hfoot Hfree). rewrite Hfree in Hh, Hpost.
  pose proof (needed_spec n) as (Hn1 & Hnm).
  pose proof (inv_range _ _ H) as Hr.
  pose proof (inv_end _ _ H) as Hend.
  unfold myAlloc.
  destruct (Z.leb_spec n 0); [lia|].
  destruct (Z.gtb_spec n (allocsize s)); [lia|]. simpl.
  rewrite block_size_for_needed by lia.
  destruct (myAlloc_scan_result s bs n fuel H Hfuel) as (acc & -> & Hinv).
  simpl. destruct acc as [[flag best] bsz]. simpl in Hinv.
  destruct Hinv as [[-> Hnf]|[-> (i' & b' & Hbf' & Hi' & -> & ->)]].
  { specialize (Hnf i b Hi Hfree). lia. }
  assert (i' = i) as -> by (eapply best_fit_unique; done).
  assert (b' = b) as -> by congruence.
  simpl. fold (block_addr s bs i) in *.
  unfold payload_addr, place. rewrite Hi.
  assert (block_addr s bs i = heapStart s + total (take i bs)) as HA by done.
  remember (block_addr s bs i) as A eqn:HAeq. clear HAeq.
  assert ((A - heapStart s) mod 8 = 0) as HA3.
  { replace (A - heapStart s) with (total (take i bs)) by lia. done. }
  unfold load. rewrite Hh. simpl.
  destruct (Z.eqb_spec (bsize b) (needed n)) as [Heq|Hne].
  - (* the block has exactly the needed size *)
    rewrite store_Some by (rewrite Hh; eauto). simpl.
    rewrite lookup_insert_ne by lia.
    assert (iadd (hdr (bsize b) (last_alloc true (take i bs)) false) 1
            = hdr (needed n) (last_alloc true (take i bs)) true) as ->.
    { unfold iadd. rewrite wrap_id; unfold hdr, INT_MIN, INT_MAX in *;
        destruct (last_alloc true (take i bs)); lia. }
    destruct (drop (S i) bs) as [|b2 post] eqn:Hdrop.
    + simpl in Has. assert (A + bsize b = heapStart s + allocsize s) as ->.
      { lia. }
      rewrite Hend. simpl. eexists. split; [done|].
      split; [|done].
      eapply heap_inv_update; [done|intros; by apply insert_is_Some| | |].
      * apply blocks_at_middle. split; [|split].
        -- eapply blocks_at_frame; [|done]. intros x ?.
           apply lookup_insert_ne. lia.
        -- simpl. rewrite <- HA. msimpl.
           repeat split; try done; try lia.
        -- done.
      * rewrite total_app. simpl. lia.
      * rewrite lookup_insert_ne by lia. done.
    + simpl in Hpost. destruct Hpost as (H28 & H2m & H2h & H2f & H2r).
      rewrite H2h. simpl.
      simpl in Has.
      pose proof (sizes_total _ (blocks_at_sizes _ _ _ _ H2r)) as [Hq0 _].
      rewrite hdr_not_end by (try done; lia). simpl.
      rewrite store_Some by (rewrite lookup_insert_ne by lia; rewrite H2h; eauto).
      simpl. eexists. split; [done|]. split; [|done].
      assert (iadd (hdr (bsize b2) false (balloc b2)) 2
            = hdr (bsize b2) true (balloc b2)) as ->.
      { unfold iadd. rewrite wrap_id; unfold hdr, INT_MIN, INT_MAX in *;
        destruct (balloc b2); lia. }
      eapply heap_inv_update; [done|intros; by do 2 apply insert_is_Some| | |].
      * apply blocks_at_middle. split; [|split].
        -- eapply blocks_at_frame; [|done]. intros x ?.
           msimpl. done.
        -- simpl. rewrite <- HA. msimpl.
           repeat split; try done; try lia.
        -- simpl bsize. rewrite <- HA, <- Heq.
           apply (blocks_at_set_prev _ _ false true (b2 :: post)).
           eapply blocks_at_frame; [|simpl; repeat split; done].
           intros x ?. msimpl. done.
      * rewrite total_app. simpl. lia.
      * msimpl. done.
  - (* the block is larger: split *)
    assert (8 ≤ bsize b - needed n) as Hrem by zlia.
    assert ((bsize b - needed n) mod 8 = 0) as Hremm by zlia.
    pose proof (sizes_total _ (blocks_at_sizes _ _ _ _ Hpost)) as [Hq0 _].
    rewrite store_Some by (rewrite Hh; eauto). simpl.
    rewrite store_Some
      by (apply insert_is_Some, (heap_inv_mapped s bs); [done|lia|zlia]).
    simpl.
    replace (A + needed n + bsize b - needed n - sizeof_blockHeader)
      with (A + bsize b - 4) by (unfold sizeof_blockHeader; lia).
    rewrite store_Some by (do 2 apply insert_is_Some; rewrite Hfoot; eauto).
    simpl. eexists. split; [done|]. split; [|done].
    assert (iadd (hdr (bsize b) (last_alloc true (take i bs)) false)
                 (iadd (isub (needed n) (bsize b)) 1)
            = hdr (needed n) (last_alloc true (take i bs)) true) as ->.
    { int_norm. unfold hdr. destruct (last_alloc true (take i bs)); lia. }
    assert (iadd (iadd 2 0) (isub (bsize b) (needed n))
            = hdr (bsize b - needed n) true false) as ->.
    { int_norm. unfold hdr. lia. }
    assert (isub (bsize b) (needed n) = bsize b - needed n) as ->.
    { int_norm. done. }
    eapply heap_inv_update; [done|intros; by do 3 apply insert_is_Some| | |].
    + apply blocks_at_middle. split; [|split].
      * eapply blocks_at_frame; [|done]. intros x ?. msimpl. done.
      * simpl. rewrite <- HA. msimpl. repeat split; try done; zlia.
      * simpl. rewrite <- HA. msimpl.
        replace (A + needed n + (bsize b - needed n) - 4)
          with (A + bsize b - 4) by lia.
        replace (A + needed n + (bsize b - needed n))
          with (A + bsize b) by lia.
        msimpl. repeat split; try done.
        eapply blocks_at_frame; [|done]. intros x ?. msimpl. done.
    + rewrite total_app. simpl. lia.
    + msimpl. done.
Qed.

Lemma fit_dec bs size :
  no_fit bs size ∨ ∃ i, is_best_fit bs size i.
Proof.
  induction bs as [|b bs IH] using rev_ind.
  - left. intros j b' Hj. done.
  - destruct (balloc b) eqn:Hb.
    { destruct IH as [Hn|[i Hi]].
      - left. apply no_fit_snoc; auto.
      - right. exists i. destruct (Hi) as (bi & Hbi & _).
        eapply best_fit_keep; eauto. }
    destruct (Z.lt_ge_cases (bsize b) size).
    { destruct IH as [Hn|[i Hi]].
      - left. apply no_fit_snoc; auto.
      - right. exists i. destruct (Hi) as (bi & Hbi & _).
        eapply best_fit_keep; eauto. }
    right. destruct IH as [Hn|[i Hi]].
    + exists (length bs). by apply best_fit_first.
    + destruct (Hi) as (bi & Hbi & _).
      destruct (Z.lt_ge_cases (bsize b) (bsize bi)).
      * exists (length bs). eapply best_fit_replace; eauto.
      * exists i. eapply best_fit_keep; eauto.
Qed.

Lemma myAlloc_no_fit s bs n fuel :
  heap_inv s bs → (length bs < fuel)%nat →
  n ≤ 0 ∨ no_fit bs (needed n) →
  myAlloc fuel s n = Some (s, NULL).
Proof.
  intros H Hfuel Hn. unfold myAlloc.
  destruct (Z.leb_spec n 0); [done|].
  destruct (Z.gtb_spec n (allocsize s)); [done|]. simpl.
  destruct Hn as [?|Hn]; [lia|].
  pose proof (inv_range _ _ H).
  rewrite block_size_for_needed by lia.
  destruct (myAlloc_scan_result s bs n fuel H Hfuel) as (acc & -> & Hinv).
  simpl. destruct acc as [[flag best] bsz]. simpl in Hinv.
  destruct Hinv as [[-> Hnf]|[-> (i' & b' & Hbf' & Hi' & -> & ->)]]; [done|].
  destruct Hbf' as (b & Hb & Hf & Hs & _).
  specialize (Hn _ _ Hb Hf). lia.
Qed.

(** ** myFree *)

Lemma myFree_block s bs i b :
  heap_inv s bs → bs !! i = Some b → balloc b = true →
  ∃ s', myFree s (payload_addr s bs i) = Some (s', 0) ∧
        heap_inv s' (release bs i) ∧
        heapStart s' = heapStart s ∧ allocsize s' = allocsize s ∧
        allocated_once s' = allocated_once s.
Proof.
  intros H Hi Halloc.
  pose proof (heap_inv_block _ _ _ _ H Hi)
    as (Hb8 & Hbm & Hp0 & Hpm & Hd0 & Hdm & Has & Hpre & Hh & _ & Hpost).
  rewrite Halloc in Hh, Hpost.
  pose proof (inv_range _ _ H) as Hr.
  pose proof (inv_end _ _ H) as Hend.
  pose proof (inv_start _ _ H) as Hst.
  pose proof (inv_align _ _ H) as Hal.
  unfold payload_addr, release. rewrite Hi.
  assert (block_addr s bs i = heapStart s + total (take i bs)) as HA by done.
  remember (block_addr s bs i) as A eqn:HAeq. clear HAeq.
  unfold myFree, sizeof_blockHeader, NULL.
  destruct (Z.eqb_spec (A + 4) 0); [lia|].
  assert (irem (wrap (A + 4)) 8 = 0) as ->.
  { unfold irem. pose proof (wrap_mod8 (A + 4)). zlia. }
  simpl.
  destruct (Z.ltb_spec (A + 4) (heapStart s)); [lia|].
  destruct (Z.gtb_spec (A + 4) (heapStart s + allocsize s)); [lia|]. simpl.
  replace (A + 4 - 4) with A by lia.
  unfold load. rewrite Hh. simpl.
  rewrite hdr_rem2 by done. simpl.
  rewrite store_Some by (rewrite Hh; eauto). simpl.
  rewrite lookup_insert_eq. simpl.
  assert (isub (hdr (bsize b) (last_alloc true (take i bs)) true) 1
          = hdr (bsize b) (last_alloc true (take i bs)) false) as ->.
  { int_norm. unfold hdr. destruct (last_alloc true (take i bs)); lia. }
  rewrite hdr_size_c by done.
  rewrite lookup_insert_ne by lia.
  assert (is_Some (mem s !! (A + bsize b - 4))) as Hfm.
  { apply (heap_inv_mapped s bs); [done|lia|zlia]. }
  destruct (drop (S i) bs) as [|b2 post] eqn:Hdrop.
  - simpl in Has. assert (A + bsize b = heapStart s + allocsize s) as Hlast by lia.
    assert (mem s !! (A + bsize b) = Some 1) as -> by (rewrite Hlast; done). simpl.
    rewrite store_Some by (by apply insert_is_Some).
    simpl. eexists. split; [done|]. split; [|done].
    eapply heap_inv_update; [done|intros; by do 2 apply insert_is_Some| | |].
    + apply blocks_at_middle. split; [|split].
      * eapply blocks_at_frame; [|done]. intros x ?. msimpl. done.
      * simpl. rewrite <- HA. msimpl. repeat split; try done; lia.
      * done.
    + rewrite total_app. simpl. lia.
    + msimpl. done.
  - simpl in Hpost. destruct Hpost as (H28 & H2m & H2h & H2f & H2r).
    simpl in Has.
    pose proof (sizes_total _ (blocks_at_sizes _ _ _ _ H2r)) as [Hq0 _].
    rewrite H2h. simpl.
    rewrite hdr_not_end, hdr_land2 by (try done; lia). simpl.
    rewrite store_Some by (apply insert_is_Some; rewrite H2h; eauto). simpl.
    rewrite store_Some by (by do 2 apply insert_is_Some).
    simpl. eexists. split; [done|]. split; [|done].
    assert (isub (hdr (bsize b2) true (balloc b2)) 2
            = hdr (bsize b2) false (balloc b2)) as ->.
    { int_norm. unfold hdr. destruct (balloc b2); lia. }
    eapply heap_inv_update; [done|intros; by do 3 apply insert_is_Some| | |].
    + apply blocks_at_middle. split; [|split].
      * eapply blocks_at_frame; [|done]. intros x ?. msimpl. done.
      * simpl. rewrite <- HA. msimpl. repeat split; try done; lia.
      * simpl bsize. rewrite <- HA.
        set (m1 := <[A := hdr (bsize b) (last_alloc true (take i bs)) false]>
                     (mem s)).
        apply (blocks_at_frame
                 (<[A + bsize b := hdr (bsize b2) false (balloc b2)]> m1)).
        -- intros x ?. simpl in *. rewrite lookup_insert_ne by lia. done.
        -- apply (blocks_at_set_prev m1 _ true false (b2 :: post)).
           eapply blocks_at_frame; [|simpl; repeat split; done].
           intros x ?. unfold m1. msimpl. done.
    + rewrite total_app. simpl. lia.
    + msimpl. done.
Qed.

(** ** coalesce *)

Lemma merge_free_join b1 b2 rest :
  balloc b1 = false → balloc b2 = false →
  merge_free (b1 :: b2 :: rest) =
  merge_free (Block (bsize b1 + bsize b2) false :: rest).
Proof.
  destruct b1 as [s1 a1], b2 as [s2 a2]. simpl. intros -> ->.
  destruct (merge_free rest) as [|[sz []] r]; simpl; try done.
  f_equal. f_equal. lia.
Qed.

Lemma merge_free_alloc_head b rest :
  balloc b = true → merge_free (b :: rest) = b :: merge_free rest.
Proof. intros H. simpl. rewrite H. done. Qed.

Lemma unchanged_blocks_frame m1 m2 m' a pf bs :
  Forall (λ b, 8 ≤ bsize b ∧ bsize b mod 8 = 0) bs →
  (∀ x, a ≤ x → m2 !! x = m1 !! x) →
  unchanged_blocks m2 m' a pf bs → unchanged_blocks m1 m' a pf bs.
Proof.
  intros HF. revert a pf.
  induction HF as [|b bs [H8 _] HF IH]; intros a pf Hx H; [done|].
  simpl in *. destruct H as [Hb Hr]. split.
  - intros Hc x Hr'. rewrite (Hb Hc x Hr'). apply Hx. lia.
  - apply IH; [|done]. intros x ?. apply Hx. lia.
Qed.

Lemma unchanged_blocks_refl m a pf bs : unchanged_blocks m m a pf bs.
Proof. revert a pf. induction bs; intros; simpl; auto. Qed.

Lemma unchanged_blocks_before m m' a pf bs :
  Forall (λ b, 8 ≤ bsize b ∧ bsize b mod 8 = 0) bs →
  (∀ x, a ≤ x < a + total bs → m' !! x = m !! x) →
  unchanged_blocks m m' a pf bs.
Proof.
  intros HF. revert a pf.
  induction HF as [|b bs [H8 _] HF IH]; intros a pf Hx; [done|].
  pose proof (sizes_total _ HF) as [Ht _].
  simpl in *. split.
  - intros _ x ?. apply Hx. lia.
  - apply IH. intros x ?. apply Hx. lia.
Qed.

Lemma merge_free_single b : balloc b = false → merge_free [b] = [b].
Proof. intros H. simpl. rewrite H. done. Qed.

Lemma merge_free_free_alloc b b2 rest :
  balloc b2 = true →
  merge_free (b :: b2 :: rest) = b :: merge_free (b2 :: rest).
Proof.
  intros H2. rewrite (merge_free_alloc_head b2) by done.
  simpl. rewrite H2. destruct (balloc b); [done|].
  destruct b2 as [s2 a2]. simpl in H2. subst. done.
Qed.

Lemma coalesce_loop_spec fuel :
  ∀ bs m a p,
    blocks_at m a p bs → m !! (a + total bs) = Some 1 →
    total bs ≤ INT_MAX - 15 → (length bs < fuel)%nat →
    ∃ m', coalesce_loop ILP32 fuel m a = Some m' ∧
          blocks_at m' a p (merge_free bs) ∧
          (∀ x, is_Some (m !! x) → is_Some (m' !! x)) ∧
          (∀ x, x < a ∨ a + total bs ≤ x → m' !! x = m !! x) ∧
          ∀ pf, unchanged_blocks m m' a pf bs.
Proof.
  induction fuel as [|fuel IH]; intros bs m a p Hb Hend Hmax Hfuel; [lia|].
  pose proof (blocks_at_sizes _ _ _ _ Hb) as HF.
  destruct bs as [|b rest].
  { simpl in *. rewrite Z.add_0_r in Hend. unfold load. rewrite Hend.
    simpl. exists m. repeat split; auto. }
  remember (merge_free (b :: rest)) as M eqn:HM.
  remember (total (b :: rest)) as T eqn:HT.
  simpl. simpl in Hb. destruct Hb as (H8 & Hm & Hh & Hfoot & Hrest).
  apply Forall_cons in HF as [_ HFr].
  pose proof (sizes_total _ HFr) as [Hr0 _].
  simpl in HT, Hfuel.
  assert (8 ≤ bsize b ≤ INT_MAX - 15) as Hbr by lia.
  unfold load. rewrite Hh. simpl.
  rewrite hdr_not_end, hdr_size_c, hdr_land1 by done.
  rewrite negb_involutive.
  destruct (balloc b) eqn:Hba; simpl.
  - (* allocated: move to the next block *)
    destruct (IH rest m (a + bsize b) true Hrest)
      as (m' & -> & Hb' & Hdom & Hfr & Hun);
      [rewrite <- Z.add_assoc; by subst T|lia|lia|].
    exists m'. split; [done|]. split; [|split; [done|split]].
    + subst M. rewrite merge_free_alloc_head by done.
      simpl. rewrite Hba. repeat split; try done.
      rewrite Hfr by lia. done.
    + intros x ?. apply Hfr. lia.
    + intros pf. split; [|apply Hun].
      intros _ x ?. apply Hfr. lia.
  - (* free: look at the next block *)
    specialize (Hfoot eq_refl).
    destruct rest as [|b2 rest'].
    + (* the end mark follows *)
      simpl in HT. rewrite Z.add_0_r in HT. subst T.
      rewrite Hend. simpl.
      destruct fuel as [|fuel]; [lia|]. simpl. unfold load. rewrite Hend.
      simpl. exists m. subst M. rewrite merge_free_single by done.
      simpl. rewrite Hba. repeat split; auto; done.
    + simpl in Hrest. destruct Hrest as (H28 & H2m & H2h & H2f & H2r).
      apply Forall_cons in HFr as [_ HFr'].
      pose proof (sizes_total _ HFr') as [Hr0' _].
      simpl in HT, Hfuel, Hr0.
      assert (8 ≤ bsize b2 ≤ INT_MAX - 15) as Hbr2 by lia.
      rewrite H2h. simpl. rewrite hdr_land1 by done. rewrite negb_involutive.
      destruct (balloc b2) eqn:Hba2; simpl.
      * (* allocated: move to it *)
        destruct (IH (b2 :: rest') m (a + bsize b) false)
          as (m' & -> & Hb' & Hdom & Hfr & Hun);
          [simpl; rewrite Hba2; repeat split; done
          |simpl; rewrite <- Z.add_assoc; by subst T|simpl; lia|simpl; lia|].
        simpl in Hfr.
        exists m'. split; [done|]. split; [|split; [done|split]].
        -- subst M. rewrite merge_free_free_alloc by done.
           simpl. rewrite Hba.
           repeat split; try done; try (rewrite Hfr by lia; done).
        -- intros x ?. apply Hfr. lia.
        -- intros pf. specialize (Hun true). simpl in Hun.
           rewrite Hba2 in Hun. split; [|apply Hun].
           intros _ x ?. apply Hfr. lia.
      * (* free: merge the two blocks *)
        specialize (H2f eq_refl).
        rewrite (hdr_size_c (bsize b2)) by done.
        rewrite store_Some by (rewrite Hh; eauto). simpl.
        unfold ILP32. rewrite lookup_insert_ne by lia. rewrite H2f. simpl.
        rewrite store_Some by (apply insert_is_Some; rewrite H2f; eauto).
        assert (iadd (hdr (bsize b) p false) (bsize b2)
                = hdr (bsize b + bsize b2) p false) as ->.
        { int_norm. unfold hdr. destruct p; lia. }
        assert (iadd (bsize b2) (bsize b) = bsize b + bsize b2) as ->.
        { int_norm. lia. }
        simpl.
        set (m2 := <[a + bsize b + bsize b2 - 4 := bsize b + bsize b2]>
                     (<[a := hdr (bsize b + bsize b2) p false]> m)).
        assert (∀ x, x ≠ a → x ≠ a + bsize b + bsize b2 - 4 →
                     m2 !! x = m !! x) as Hm2.
        { intros x ? ?. unfold m2. rewrite !lookup_insert_ne by done. done. }
        destruct (IH (Block (bsize b + bsize b2) false :: rest') m2 a p)
          as (m' & Hc & Hb' & Hdom & Hfr & Hun).
        { simpl. repeat split; try lia; try zlia.
          - unfold m2. msimpl. done.
          - intros _. unfold m2.
            replace (a + (bsize b + bsize b2) - 4)
              with (a + bsize b + bsize b2 - 4) by lia.
            msimpl. done.
          - rewrite Z.add_assoc.
            eapply blocks_at_frame; [|done]. intros x ?. apply Hm2; lia. }
        { simpl. rewrite Hm2 by lia. rewrite <- Hend. f_equal. lia. }
        { simpl. lia. }
        { simpl. lia. }
        simpl in Hfr. unfold ILP32 in Hc. rewrite Hc.
        exists m'. split; [done|]. split; [|split; [|split]].
        -- subst M. rewrite merge_free_join by done. done.
        -- intros x Hx. apply Hdom. unfold m2. by do 2 apply insert_is_Some.
        -- intros x ?. rewrite Hfr by lia. apply Hm2; lia.
        -- intros pf. split; [intros [?|[_ ?]]; done|].
           split; [intros [?|[? _]]; done|].
           specialize (Hun pf). simpl in Hun. destruct Hun as [_ Hun].
           rewrite Z.add_assoc in Hun.
           eapply unchanged_blocks_frame; [done| |done].
           intros x ?. apply Hm2; lia.
Qed.

Lemma total_merge_free bs : total (merge_free bs) = total bs.
Proof.
  induction bs as [|b bs IH]; [done|]. simpl.
  destruct (balloc b); simpl; [lia|].
  destruct (merge_free bs) as [|[sz []] r]; simpl in *; lia.
Qed.

Lemma last_alloc_merge_free p bs :
  last_alloc p (merge_free bs) = last_alloc p bs.
Proof.
  revert p. induction bs as [|b bs IH]; intros p; [done|].
  rewrite last_alloc_cons, <- IH. simpl.
  destruct (balloc b) eqn:Hb; [by rewrite last_alloc_cons, Hb|].
  destruct (merge_free bs) as [|[sz []] r];
    rewrite ?last_alloc_cons; simpl; rewrite ?Hb; done.
Qed.

Lemma coalesce_inv s bs fuel :
  heap_inv s bs → (length bs < fuel)%nat →
  ∃ s', coalesce ILP32 fuel s = Some (s', 1) ∧
        heap_inv s' (merge_free bs) ∧
        heapStart s' = heapStart s ∧ allocsize s' = allocsize s ∧
        allocated_once s' = allocated_once s ∧
        unchanged_blocks (mem s) (mem s') (heapStart s) false bs.
Proof.
  intros H Hfuel. unfold coalesce.
  destruct (coalesce_loop_spec fuel bs (mem s) (heapStart s) true)
    as (m' & -> & Hb & Hdom & Hfr & Hun).
  - apply (inv_blocks _ _ H).
  - rewrite (inv_total _ _ H). apply (inv_end _ _ H).
  - rewrite (inv_total _ _ H). apply (inv_range _ _ H).
  - done.
  - simpl. eexists. split; [done|]. split; [|split; [done|]]; [|by auto].
    eapply heap_inv_update; [done|done|done| |].
    + rewrite total_merge_free. apply (inv_total _ _ H).
    + rewrite Hfr; [apply (inv_end _ _ H)|].
      rewrite (inv_total _ _ H). lia.
Qed.

Lemma merge_free_cons b l :
  merge_free (b :: l) =
  if balloc b then b :: merge_free l
  else match merge_free l with
       | Block sz false :: r' => Block (bsize b + sz) false :: r'
       | _ => b :: merge_free l
       end.
Proof. reflexivity. Qed.

(** A maximal run of free blocks is merged into one block. *)
Lemma merge_free_run run post :
  all_free run → run ≠ [] → starts_allocated post →
  merge_free (run ++ post) = Block (total run) false :: merge_free post.
Proof.
  intros Hfree Hne Hpost.
  induction Hfree as [|b run Hb Hfree IH]; [done|].
  destruct b as [sz al]. simpl in Hb. subst al.
  destruct run as [|b' run].
  - simpl. rewrite Z.add_0_r.
    destruct Hpost as [->|(c & post' & -> & Hc)]; [done|].
    rewrite merge_free_alloc_head by done.
    destruct c as [? ?]. simpl in Hc. subst. done.
  - rewrite <- app_comm_cons, merge_free_cons, IH by done. done.
Qed.

Lemma merge_free_nonempty bs : bs ≠ [] → merge_free bs ≠ [].
Proof.
  destruct bs as [|b bs]; [done|]. intros _. simpl.
  destruct (balloc b); [done|].
  destruct (merge_free bs) as [|[sz []] r]; done.
Qed.

Lemma merge_free_prefix pre l :
  ends_allocated pre → merge_free (pre ++ l) = merge_free pre ++ merge_free l.
Proof.
  intros [->|(pre' & c & -> & Hc)]; [done|].
  induction pre' as [|b pre' IH].
  - simpl. rewrite Hc. done.
  - rewrite <- !app_comm_cons, !merge_free_cons, IH.
    pose proof (merge_free_nonempty (pre' ++ [c])) as Hne.
    destruct (merge_free (pre' ++ [c])) as [|[sz al] r].
    { exfalso. apply Hne; [|done]. by destruct pre'. }
    destruct (balloc b), al; done.
Qed.

Lemma merge_free_runs pre run post :
  maximal_free_run pre run post →
  merge_free (pre ++ run ++ post) =
  merge_free pre ++ Block (total run) false :: merge_free post.
Proof.
  intros (Hpre & Hfree & Hne & Hpost).
  rewrite merge_free_prefix by done.
  rewrite merge_free_run by done. done.
Qed.

Lemma unchanged_blocks_lookup m m' bs :
  ∀ a pf i b,
    unchanged_blocks m m' a pf bs → bs !! i = Some b →
    balloc b = true ∨ (¬ free_neighbour bs i ∧ (i = 0%nat → pf = false)) →
    ∀ x, a + total (take i bs) ≤ x < a + total (take i bs) + bsize b →
         m' !! x = m !! x.
Proof.
  induction bs as [|b0 rest IH]; intros a pf i b Hun Hi Hc x Hx; [done|].
  simpl in Hun. destruct Hun as [Hhead Hrest].
  destruct i as [|j].
  - simpl in Hi. injection Hi as ->. simpl in Hx.
    apply Hhead; [|lia].
    destruct Hc as [?|[Hn Hpf]]; [by left|right].
    split; [by apply Hpf|].
    destruct rest as [|b2 rest']; [done|]. simpl.
    destruct (balloc b2) eqn:Hb2; [done|].
    exfalso. apply Hn. left. exists b2. done.
  - simpl in Hi, Hx.
    apply (IH (a + bsize b0) (negb (balloc b0)) j b Hrest Hi); [|lia].
    destruct Hc as [?|[Hn Hpf]]; [by left|right]. split.
    + intros [(b' & Hb' & Hf)|(j' & b' & -> & Hb' & Hf)]; apply Hn.
      * left. exists b'. done.
      * right. exists (S j'), b'. done.
    + intros ->. destruct (balloc b0) eqn:Hb0; [done|].
      exfalso. apply Hn. right. exists 0%nat, b0. done.
Qed.

(** ** dispMem *)

Lemma dispMem_loop_spec fuel :
  ∀ bs m a p u f,
    blocks_at m a p bs → m !! (a + total bs) = Some 1 →
    0 ≤ u → 0 ≤ f → u + f + total bs ≤ INT_MAX - 15 →
    (length bs < fuel)%nat →
    ∃ rows u' f',
      dispMem_loop fuel m a u f = Some (rows, u', f') ∧
      map r_size rows = map bsize bs ∧
      map r_used rows = map balloc bs ∧
      0 ≤ u' ∧ 0 ≤ f' ∧ u' + f' = u + f + total bs.
Proof.
  induction fuel as [|fuel IH]; intros bs m a p u f Hb Hend Hu Hf Hmax Hfuel;
    [lia|].
  pose proof (blocks_at_sizes _ _ _ _ Hb) as HF.
  destruct bs as [|b rest]; simpl.
  { simpl in Hend. rewrite Z.add_0_r in Hend. unfold load. rewrite Hend.
    simpl. exists [], u, f. simpl. repeat split; try done; lia. }
  simpl in Hb. destruct Hb as (H8 & Hm & Hh & Hfoot & Hrest).
  apply Forall_cons in HF as [_ HFr].
  pose proof (sizes_total _ HFr) as [Hr0 _].
  simpl in Hmax, Hend, Hfuel.
  assert (8 ≤ bsize b ≤ INT_MAX - 15) as Hbr by lia.
  unfold load. rewrite Hh. simpl.
  rewrite hdr_not_end, hdr_land1 by done. rewrite negb_involutive.
  set (t1 := if balloc b then isub (hdr (bsize b) p (balloc b)) 1
             else hdr (bsize b) p (balloc b)).
  assert (t1 = hdr (bsize b) p false) as Ht1.
  { unfold t1. destruct (balloc b); [|done]. int_norm. unfold hdr.
    destruct p; lia. }
  rewrite Ht1, hdr_land2 by done.
  set (t2 := if negb ((if p then 2 else 0) =? 0)
             then isub (hdr (bsize b) p false) 2 else hdr (bsize b) p false).
  assert (t2 = bsize b) as Ht2.
  { unfold t2. destruct p; simpl; [|unfold hdr; lia]. int_norm.
    unfold hdr. lia. }
  rewrite Ht2.
  set (u1 := if balloc b then iadd u (bsize b) else u).
  set (f1 := if balloc b then f else iadd f (bsize b)).
  assert (0 ≤ u1 ∧ 0 ≤ f1 ∧ u1 + f1 = u + f + bsize b) as (Hu1 & Hf1 & Huf).
  { unfold u1, f1. destruct (balloc b); int_norm; lia. }
  destruct (IH rest m (a + bsize b) (balloc b) u1 f1)
    as (rows & u' & f' & -> & Hs & Hus & Hu' & Hf' & Hsum);
    [done|by rewrite <- Z.add_assoc|lia|lia|lia|lia|].
  simpl. eexists _, u', f'. split; [done|]. simpl.
  rewrite Hs, Hus. destruct p; simpl; repeat split; try done; lia.
Qed.

(** ** myInit *)

Lemma zero_words_lookup n :
  ∀ p m x k, 0 ≤ k < Z.of_nat n → x = p + 4 * k →
             zero_words n p m !! x = Some 0.
Proof.
  induction n as [|n IH]; intros p m x k Hk ->; [lia|]. simpl.
  destruct (decide (k = 0)) as [->|Hne].
  - rewrite Z.mul_0_r, Z.add_0_r. apply lookup_insert_eq.
  - rewrite lookup_insert_ne by lia. apply (IH _ _ _ (k - 1)); lia.
Qed.

Lemma padded_spec ps sz :
  0 < ps → 0 < sz →
  sz ≤ padded ps sz < sz + ps ∧ padded ps sz mod ps = 0 ∧
  sz + Z.rem (ps - Z.rem sz ps) ps = padded ps sz.
Proof.
  intros Hps Hsz. unfold padded.
  rewrite (Z.rem_mod_nonneg sz ps) by lia.
  rewrite Z.rem_mod_nonneg by (pose proof (Z.mod_pos_bound sz ps Hps); lia).
  pose proof (Z.div_mod sz ps ltac:(lia)) as Hd.
  pose proof (Z.mod_pos_bound sz ps Hps) as Hr.
  set (q := sz / ps) in *. set (r := sz mod ps) in *.
  assert ((sz + ps - 1) / ps = if decide (r = 0) then q else q + 1) as ->.
  { destruct (decide (r = 0)) as [Hr0|Hr0].
    - symmetry. apply (Z.div_unique _ _ _ (ps - 1)); [lia|]. lia.
    - symmetry. apply (Z.div_unique _ _ _ (r - 1)); [lia|]. lia. }
  assert ((ps - r) mod ps = if decide (r = 0) then 0 else ps - r) as ->.
  { destruct (decide (r = 0)) as [Hr0|Hr0].
    - rewrite Hr0, Z.sub_0_r. apply Z_mod_same_full.
    - apply Z.mod_small. lia. }
  destruct (decide (r = 0)); (split; [nia|split; [apply Z_mod_mult|nia]]).
Qed.

Lemma myInit_ok e s0 sz p :
  env_ok e sz p → allocated_once s0 = 0 →
  ∃ s, myInit e s0 sz = Some (s, 0) ∧
       heap_inv s [Block (usable e sz) false] ∧
       heapStart s = p + 4 ∧ allocsize s = usable e sz ∧
       allocated_once s = 1.
Proof.
  intros [[Hp16 Hp8] Hsz Hopen Hmmap [Hp0 Hpa]] Honce.
  pose proof (padded_spec (getpagesize e) sz ltac:(lia) ltac:(lia))
    as ((Hpad1 & Hpad2) & Hpadm & Hpadc).
  set (P := padded (getpagesize e) sz) in *.
  assert (P mod 8 = 0) as HP8.
  { revert Hpadm Hp8. generalize (getpagesize e). intros ps ? ?.
    assert (P = ps * (P / ps)) as -> by zlia.
    assert (ps = 8 * (ps / 8)) as -> by zlia.
    rewrite <- Z.mul_assoc, Z.mul_comm. apply Z_mod_mult. }
  assert (16 ≤ P) as HP16.
  { assert (0 < P) by lia.
    revert Hpadm Hp16 H. generalize (getpagesize e). intros ps ? ? ?.
    assert (P = ps * (P / ps)) as Hq by zlia.
    assert (0 < P / ps) by nia. nia. }
  assert ((-1 =? open_dev_zero e) = false) as Hfd.
  { apply Z.eqb_neq. congruence. }
  unfold myInit. rewrite Honce. cbv zeta. rewrite Hfd.
  change (negb (0 =? 0)) with false. cbv iota.
  destruct (Z.leb_spec sz 0); [lia|].
  destruct (Z.eqb_spec (getpagesize e) 0); [lia|].
  unfold irem. simpl allocsize. simpl mem.
  assert (isub (getpagesize e) (Z.rem sz (getpagesize e))
          = getpagesize e - Z.rem sz (getpagesize e)) as ->.
  { unfold isub. apply wrap_id. unfold INT_MIN, INT_MAX in *.
    pose proof (Z.rem_bound_pos sz (getpagesize e) ltac:(lia) ltac:(lia)).
    lia. }
  assert (iadd sz (Z.rem (getpagesize e - Z.rem sz (getpagesize e))
                         (getpagesize e)) = P) as ->.
  { unfold iadd. rewrite Hpadc. apply wrap_id.
    unfold INT_MIN, INT_MAX in *. lia. }
  rewrite Hmmap. unfold sizeof_blockHeader.
  assert (isub P 8 = P - 8) as ->.
  { unfold isub. apply wrap_id. unfold INT_MIN, INT_MAX in *. lia. }
  set (m0 := map_region (mem s0) p P).
  assert (∀ k, 0 ≤ k < P / 4 → m0 !! (p + 4 * k) = Some 0) as Hm0.
  { intros k Hk. unfold m0, map_region.
    apply (zero_words_lookup _ _ _ _ k); [|done].
    rewrite Z2Nat.id by zlia. done. }
  assert (m0 !! (p + 1 * 4 + (P - 8)) = Some 0) as Hend.
  { replace (p + 1 * 4 + (P - 8)) with (p + 4 * (P / 4 - 1)) by zlia.
    apply Hm0. zlia. }
  assert (m0 !! (p + 1 * 4) = Some 0) as Hhd.
  { replace (p + 1 * 4) with (p + 4 * 1) by lia. apply Hm0. zlia. }
  assert (m0 !! (p + 1 * 4 + (P - 8) - 4) = Some 0) as Hft.
  { replace (p + 1 * 4 + (P - 8) - 4) with (p + 4 * (P / 4 - 2)) by zlia.
    apply Hm0. zlia. }
  rewrite store_Some by (rewrite Hend; eauto). simpl.
  rewrite store_Some by (apply insert_is_Some; rewrite Hhd; eauto). simpl.
  unfold load. rewrite lookup_insert_eq. simpl.
  rewrite store_Some by (do 2 apply insert_is_Some; rewrite Hhd; eauto). simpl.
  rewrite store_Some by (do 3 apply insert_is_Some; rewrite Hft; eauto). simpl.
  assert (iadd (P - 8) 2 = hdr (P - 8) true false) as ->.
  { unfold iadd, hdr. rewrite wrap_id; unfold INT_MIN, INT_MAX in *; lia. }
  eexists. split; [done|]. split; [|done].
  constructor; simpl; unfold usable; fold P.
  - lia.
  - zlia.
  - unfold INT_MAX in *. zlia.
  - intros k Hk. do 4 apply insert_is_Some.
    replace (p + 1 * 4 + 4 * k) with (p + 4 * (k + 1)) by lia.
    rewrite Hm0 by zlia. eauto.
  - repeat split; try lia; try done.
    + zlia.
    + msimpl. done.
    + intros _. msimpl. done.
  - lia.
  - msimpl. done.
Qed.

(** ** The executable checks *)

Lemma check_blocks_sound m bs :
  ∀ a p, check_blocks m a p bs = true → blocks_at m a p bs.
Proof.
  induction bs as [|b bs IH]; intros a p H; [done|]. simpl in *.
  apply andb_true_iff in H as [H C5]. apply andb_true_iff in H as [H C4].
  apply andb_true_iff in H as [H C3]. apply andb_true_iff in H as [C1 C2].
  apply Z.leb_le in C1. apply Z.eqb_eq in C2.
  apply bool_decide_eq_true in C3.
  repeat split; try done.
  - intros Hb. rewrite Hb in C4. simpl in C4.
    by apply bool_decide_eq_true in C4.
  - by apply IH.
Qed.

Lemma check_heap_sound s bs : check_heap s bs = true → heap_inv s bs.
Proof.
  unfold check_heap. intros H.
  apply andb_true_iff in H as [H C8]. apply andb_true_iff in H as [H C7].
  apply andb_true_iff in H as [H C6]. apply andb_true_iff in H as [H C5].
  apply andb_true_iff in H as [H C4]. apply andb_true_iff in H as [H C3].
  apply andb_true_iff in H as [C1 C2].
  constructor.
  - by apply Z.ltb_lt.
  - by apply Z.eqb_eq.
  - split; [by apply Z.leb_le|by apply Z.leb_le].
  - intros k Hk. rewrite forallb_forall in C5.
    specialize (C5 k). rewrite bool_decide_eq_true in C5. apply C5.
    apply list_elem_of_In, elem_of_seqZ. lia.
  - by apply check_blocks_sound.
  - by apply Z.eqb_eq.
  - by apply bool_decide_eq_true in C8.
Qed.

Lemma fit_check_sound size sz i bs :
  ∀ j0, fit_check size sz i j0 bs = true →
        ∀ j b', bs !! j = Some b' → balloc b' = false → size ≤ bsize b' →
                sz < bsize b' ∨ (sz = bsize b' ∧ (i ≤ j0 + j)%nat).
Proof.
  induction bs as [|b bs IH]; intros j0 H j b' Hj Hf Hs; [done|].
  simpl in H. apply andb_true_iff in H as [H Hr].
  destruct j as [|j]; simpl in Hj.
  - injection Hj as ->. rewrite Hf in H. simpl in H.
    destruct (Z.ltb_spec (bsize b') size) as [?|_]; [lia|]. simpl in H.
    destruct (Z.ltb_spec sz (bsize b')) as [?|_]; [by left|]. simpl in H.
    apply andb_true_iff in H as [C1 C2].
    apply Z.eqb_eq in C1. apply Nat.leb_le in C2. right. split; [done|lia].
  - destruct (IH (S j0) Hr j b' Hj Hf Hs) as [?|[? ?]]; [by left|].
    right. split; [done|lia].
Qed.

Lemma best_fit_check_sound bs size i :
  best_fit_check bs size i = true → is_best_fit bs size i.
Proof.
  unfold best_fit_check. destruct (bs !! i) as [b|] eqn:Hi; [|done].
  intros H. apply andb_true_iff in H as [H C3].
  apply andb_true_iff in H as [C1 C2].
  exists b. split; [done|]. split; [by apply negb_true_iff in C1|].
  split; [by apply Z.leb_le|].
  intros j b' Hj Hf Hs.
  apply (fit_check_sound _ _ _ _ _ C3 j b' Hj Hf Hs).
Qed.


(** * The headers under either pointer size *)

Lemma headers_at_sizes m a p bs :
  headers_at m a p bs → Forall (λ b, 8 ≤ bsize b ∧ bsize b mod 8 = 0) bs.
Proof.
  revert a p. induction bs as [|b bs IH]; intros a p H; constructor.
  - simpl in H. tauto.
  - simpl in H. destruct H as (_ & _ & _ & H). eauto.
Qed.

Lemma headers_at_frame m m' a p bs :
  (∀ x, a ≤ x < a + total bs → m' !! x = m !! x) →
  headers_at m a p bs → headers_at m' a p bs.
Proof.
  revert a p. induction bs as [|b bs IH]; intros a p Hx H; [done|].
  simpl in *. destruct H as (H8 & Hm & Hh & Hr).
  pose proof (headers_at_sizes _ _ _ _ Hr) as HF.
  apply sizes_total in HF as [HF _].
  repeat split; try done.
  - rewrite Hx by lia. done.
  - apply IH; [|done]. intros x ?. apply Hx. lia.
Qed.

Lemma blocks_at_headers m a p bs : blocks_at m a p bs → headers_at m a p bs.
Proof.
  revert a p. induction bs as [|b bs IH]; intros a p H; [done|].
  simpl in *. destruct H as (H8 & Hm & Hh & _ & Hr). auto.
Qed.

Lemma heap_inv_headers s bs : heap_inv s bs → headers_inv s bs.
Proof.
  intros [? ? ? ? Hb ? ?]. constructor; try done. by apply blocks_at_headers.
Qed.

Lemma headers_inv_length s bs :
  headers_inv s bs → (length bs ≤ Z.to_nat (allocsize s / 8))%nat.
Proof.
  intros H.
  pose proof (sizes_total _ (headers_at_sizes _ _ _ _ (hinv_headers _ _ H)))
    as [Hlen _].
  rewrite (hinv_total _ _ H) in Hlen. zlia.
Qed.

(** The loop of [coalesce] on well-formed headers: the headers become those
    of the merged list, whichever of the two pointer sizes line 306 uses.
    The word it adds to lies in the block being absorbed. *)
Lemma coalesce_loop_headers psz fuel :
  pointer_size psz →
  ∀ bs m a p,
    headers_at m a p bs → m !! (a + total bs) = Some 1 →
    (∀ k, 0 ≤ k < total bs / 4 → is_Some (m !! (a + 4 * k))) →
    total bs ≤ INT_MAX - 15 → (length bs < fuel)%nat →
    ∃ m', coalesce_loop psz fuel m a = Some m' ∧
          headers_at m' a p (merge_free bs) ∧
          (∀ x, is_Some (m !! x) → is_Some (m' !! x)) ∧
          (∀ x, x < a ∨ a + total bs ≤ x → m' !! x = m !! x) ∧
          ∀ pf, unchanged_blocks m m' a pf bs.
Proof.
  intros Hpsz.
  induction fuel as [|fuel IH]; intros bs m a p Hb Hend Hmap Hmax Hfuel;
    [lia|].
  pose proof (headers_at_sizes _ _ _ _ Hb) as HF.
  destruct bs as [|b rest].
  { simpl in *. rewrite Z.add_0_r in Hend. unfold load. rewrite Hend.
    simpl. exists m. repeat split; auto. }
  remember (merge_free (b :: rest)) as M eqn:HM.
  remember (total (b :: rest)) as T eqn:HT.
  simpl. simpl in Hb. destruct Hb as (H8 & Hm & Hh & Hrest).
  apply Forall_cons in HF as [_ HFr].
  pose proof (sizes_total _ HFr) as [Hr0 Hrm].
  simpl in HT, Hfuel.
  assert (8 ≤ bsize b ≤ INT_MAX - 15) as Hbr by lia.
  assert (∀ k, 0 ≤ k < total rest / 4 →
               is_Some (m !! (a + bsize b + 4 * k))) as Hmap'.
  { intros k Hk.
    replace (a + bsize b + 4 * k) with (a + 4 * (bsize b / 4 + k)) by zlia.
    apply Hmap. subst T. zlia. }
  unfold load. rewrite Hh. simpl.
  rewrite hdr_not_end, hdr_size_c, hdr_land1 by done.
  rewrite negb_involutive.
  destruct (balloc b) eqn:Hba; simpl.
  - (* allocated: move to the next block *)
    destruct (IH rest m (a + bsize b) true Hrest)
      as (m' & -> & Hb' & Hdom & Hfr & Hun);
      [rewrite <- Z.add_assoc; by subst T|done|lia|lia|].
    exists m'. split; [done|]. split; [|split; [done|split]].
    + subst M. rewrite merge_free_alloc_head by done.
      simpl. rewrite Hba. repeat split; try done.
      rewrite Hfr by lia. done.
    + intros x ?. apply Hfr. lia.
    + intros pf. split; [|apply Hun].
      intros _ x ?. apply Hfr. lia.
  - (* free: look at the next block *)
    destruct rest as [|b2 rest'].
    + (* the end mark follows *)
      simpl in HT. rewrite Z.add_0_r in HT. subst T.
      rewrite Hend. simpl.
      destruct fuel as [|fuel]; [lia|]. simpl. unfold load. rewrite Hend.
      simpl. exists m. subst M. rewrite merge_free_single by done.
      simpl. rewrite Hba. repeat split; auto; done.
    + pose proof Hrest as Hrest0.
      simpl in Hrest. destruct Hrest as (H28 & H2m & H2h & H2r).
      apply Forall_cons in HFr as [_ HFr'].
      pose proof (sizes_total _ HFr') as [Hr0' _].
      simpl in HT, Hfuel, Hr0.
      assert (8 ≤ bsize b2 ≤ INT_MAX - 15) as Hbr2 by lia.
      rewrite H2h. simpl. rewrite hdr_land1 by done. rewrite negb_involutive.
      destruct (balloc b2) eqn:Hba2; simpl.
      * (* allocated: move to it *)
        destruct (IH (b2 :: rest') m (a + bsize b) false)
          as (m' & -> & Hb' & Hdom & Hfr & Hun);
          [simpl; rewrite Hba2; repeat split; done
          |simpl; rewrite <- Z.add_assoc; by subst T|done|simpl; lia
          |simpl; lia|].
        simpl in Hfr.
        exists m'. split; [done|]. split; [|split; [done|split]].
        -- subst M. rewrite merge_free_free_alloc by done.
           simpl. rewrite Hba.
           repeat split; try done; try (rewrite Hfr by lia; done).
        -- intros x ?. apply Hfr. lia.
        -- intros pf. specialize (Hun true). simpl in Hun.
           rewrite Hba2 in Hun. split; [|apply Hun].
           intros _ x ?. apply Hfr. lia.
      * (* free: merge the two blocks *)
        rewrite (hdr_size_c (bsize b2)) by done.
        rewrite store_Some by (rewrite Hh; eauto). simpl.
        remember (a + bsize b + bsize b2 - psz) as F eqn:HFa.
        assert (a + bsize b ≤ F < a + bsize b + bsize b2) as HFr2.
        { destruct Hpsz as [->| ->]; unfold ILP32, LP64 in *; lia. }
        assert (is_Some (m !! F)) as [hf Hhf].
        { replace F with (a + 4 * ((F - a) / 4))
            by (destruct Hpsz as [->| ->]; unfold ILP32, LP64 in *; zlia).
          apply Hmap. subst T.
          destruct Hpsz as [->| ->]; unfold ILP32, LP64 in *; zlia. }
        rewrite lookup_insert_ne by lia. rewrite Hhf. simpl.
        rewrite store_Some by (apply insert_is_Some; rewrite Hhf; eauto).
        assert (iadd (hdr (bsize b) p false) (bsize b2)
                = hdr (bsize b + bsize b2) p false) as ->.
        { int_norm. unfold hdr. destruct p; lia. }
        simpl.
        remember (iadd hf (bsize b)) as v eqn:Hv. clear Hv.
        set (m2 := <[F := v]>
                     (<[a := hdr (bsize b + bsize b2) p false]> m)).
        assert (∀ x, x ≠ a → x ≠ F → m2 !! x = m !! x) as Hm2.
        { intros x ? ?. unfold m2. rewrite !lookup_insert_ne by done. done. }
        destruct (IH (Block (bsize b + bsize b2) false :: rest') m2 a p)
          as (m' & Hc & Hb' & Hdom & Hfr & Hun).
        { simpl. repeat split; try lia; try zlia.
          - unfold m2. rewrite lookup_insert_ne by lia.
            rewrite lookup_insert_eq. done.
          - rewrite Z.add_assoc.
            eapply headers_at_frame; [|done]. intros x ?. apply Hm2; lia. }
        { simpl. rewrite Hm2 by lia. rewrite <- Hend. f_equal. lia. }
        { intros k Hk. unfold m2. do 2 apply insert_is_Some. apply Hmap.
          subst T. simpl in Hk. zlia. }
        { simpl. lia. }
        { simpl. lia. }
        simpl in Hfr. rewrite Hc.
        exists m'. split; [done|]. split; [|split; [|split]].
        -- subst M. rewrite merge_free_join by done. done.
        -- intros x Hx. apply Hdom. unfold m2. by do 2 apply insert_is_Some.
        -- intros x ?. rewrite Hfr by lia. apply Hm2; lia.
        -- intros pf. split; [intros [?|[_ ?]]; done|].
           split; [intros [?|[? _]]; done|].
           specialize (Hun pf). simpl in Hun. destruct Hun as [_ Hun].
           rewrite Z.add_assoc in Hun.
           eapply unchanged_blocks_frame; [done| |done].
           intros x ?. apply Hm2; lia.
Qed.

Lemma coalesce_headers psz s bs fuel :
  pointer_size psz → headers_inv s bs → (length bs < fuel)%nat →
  ∃ s', coalesce psz fuel s = Some (s', 1) ∧
        headers_inv s' (merge_free bs) ∧
        heapStart s' = heapStart s ∧ allocsize s' = allocsize s ∧
        allocated_once s' = allocated_once s ∧
        unchanged_blocks (mem s) (mem s') (heapStart s) false bs.
Proof.
  intros Hpsz H Hfuel. unfold coalesce.
  pose proof (hinv_range _ _ H) as Hrg.
  destruct (coalesce_loop_headers psz fuel Hpsz bs (mem s) (heapStart s) true)
    as (m' & -> & Hb & Hdom & Hfr & Hun).
  - apply (hinv_headers _ _ H).
  - rewrite (hinv_total _ _ H). apply (hinv_end _ _ H).
  - intros k Hk. apply (hinv_mapped _ _ H). rewrite (hinv_total _ _ H) in Hk.
    lia.
  - rewrite (hinv_total _ _ H). lia.
  - done.
  - simpl. eexists. split; [done|]. split; [|split; [done|]]; [|by auto].
    destruct H as [? ? ? Hmp ? Ht He]. constructor; simpl; auto.
    + rewrite total_merge_free. done.
    + rewrite Hfr; [done|]. rewrite Ht. lia.
Qed.

(** The walk of [dispMem] reads headers only. *)
Lemma dispMem_loop_headers fuel :
  ∀ bs m a p u f,
    headers_at m a p bs → m !! (a + total bs) = Some 1 →
    0 ≤ u → 0 ≤ f → u + f + total bs ≤ INT_MAX - 15 →
    (length bs < fuel)%nat →
    dispMem_loop fuel m a u f =
      Some (rows_of a p bs, u + total_of true bs, f + total_of false bs).
Proof.
  induction fuel as [|fuel IH]; intros bs m a p u f Hb Hend Hu Hf Hmax Hfuel;
    [lia|].
  pose proof (headers_at_sizes _ _ _ _ Hb) as HF.
  destruct bs as [|b rest]; simpl.
  { simpl in Hend. rewrite Z.add_0_r in Hend. unfold load. rewrite Hend.
    simpl. rewrite !Z.add_0_r. done. }
  simpl in Hb. destruct Hb as (H8 & Hm & Hh & Hrest).
  apply Forall_cons in HF as [_ HFr].
  pose proof (sizes_total _ HFr) as [Hr0 _].
  simpl in Hmax, Hend, Hfuel.
  assert (8 ≤ bsize b ≤ INT_MAX - 15) as Hbr by lia.
  unfold load. rewrite Hh. simpl.
  rewrite hdr_not_end, hdr_land1 by done. rewrite negb_involutive.
  set (t1 := if balloc b then isub (hdr (bsize b) p (balloc b)) 1
             else hdr (bsize b) p (balloc b)).
  assert (t1 = hdr (bsize b) p false) as Ht1.
  { unfold t1. destruct (balloc b); [|done]. int_norm. unfold hdr.
    destruct p; lia. }
  rewrite Ht1, hdr_land2 by done.
  set (t2 := if negb ((if p then 2 else 0) =? 0)
             then isub (hdr (bsize b) p false) 2 else hdr (bsize b) p false).
  assert (t2 = bsize b) as Ht2.
  { unfold t2. destruct p; simpl; [|unfold hdr; lia]. int_norm.
    unfold hdr. lia. }
  rewrite Ht2.
  set (u1 := if balloc b then iadd u (bsize b) else u).
  set (f1 := if balloc b then f else iadd f (bsize b)).
  assert (0 ≤ u1 ∧ 0 ≤ f1 ∧ u1 + f1 = u + f + bsize b ∧
          u1 = u + (if bool_decide (balloc b = true) then bsize b else 0) ∧
          f1 = f + (if bool_decide (balloc b = false) then bsize b else 0))
    as (Hu1 & Hf1 & Huf & Hue & Hfe).
  { unfold u1, f1. destruct (balloc b); simpl; int_norm; lia. }
  rewrite (IH rest m (a + bsize b) (balloc b) u1 f1);
    [|done|by rewrite <- Z.add_assoc|lia|lia|lia|lia].
  simpl. rewrite Hue, Hfe, !Z.add_assoc.
  destruct p; done.
Qed.

Lemma dispMem_headers s bs fuel :
  headers_inv s bs → (length bs < fuel)%nat →
  dispMem fuel s =
    Some (rows_of (heapStart s) true bs, total_of true bs, total_of false bs).
Proof.
  intros H Hfuel. unfold dispMem.
  pose proof (hinv_range _ _ H) as Hr.
  rewrite (dispMem_loop_headers fuel bs (mem s) (heapStart s) true 0 0);
    [done|apply (hinv_headers _ _ H)| |lia|lia| |done].
  - rewrite (hinv_total _ _ H). apply (hinv_end _ _ H).
  - rewrite (hinv_total _ _ H). lia.
Qed.

(** With no two adjacent free blocks the loop of [coalesce] writes
    nothing. *)
Lemma coalesce_loop_no_pair psz fuel :
  ∀ bs m a p q,
    headers_at m a p bs → no_free_pair q bs = true →
    m !! (a + total bs) = Some 1 →
    total bs ≤ INT_MAX - 15 → (length bs < fuel)%nat →
    coalesce_loop psz fuel m a = Some m.
Proof.
  induction fuel as [|fuel IH]; intros bs m a p q Hb Hn Hend Hmax Hfuel; [lia|].
  pose proof (headers_at_sizes _ _ _ _ Hb) as HF.
  destruct bs as [|b rest].
  { simpl in *. rewrite Z.add_0_r in Hend. unfold load. rewrite Hend. done. }
  simpl. simpl in Hb. destruct Hb as (H8 & Hm & Hh & Hrest).
  apply Forall_cons in HF as [_ HFr].
  pose proof (sizes_total _ HFr) as [Hr0 _].
  simpl in Hmax, Hfuel, Hend, Hn.
  apply andb_true_iff in Hn as [_ Hn].
  assert (8 ≤ bsize b ≤ INT_MAX - 15) as Hbr by lia.
  unfold load. rewrite Hh. simpl.
  rewrite hdr_not_end, hdr_size_c, hdr_land1 by done.
  rewrite negb_involutive.
  destruct (balloc b) eqn:Hba; simpl.
  - apply (IH rest m (a + bsize b) true true Hrest Hn);
      [by rewrite <- Z.add_assoc|lia|lia].
  - destruct rest as [|b2 rest'].
    + simpl in Hend. rewrite Z.add_0_r in Hend. rewrite Hend. simpl.
      destruct fuel as [|fuel]; [lia|]. simpl. unfold load. rewrite Hend.
      done.
    + pose proof Hrest as Hrest'.
      simpl in Hrest. destruct Hrest as (H28 & H2m & H2h & _).
      pose proof Hn as Hn'. simpl in Hn.
      apply andb_true_iff in Hn as [Hb2 _]. simpl in Hb2.
      simpl in Hr0, Hmax.
      apply Forall_cons in HFr as [_ HFr'].
      pose proof (sizes_total _ HFr') as [Hr0' _].
      assert (8 ≤ bsize b2 ≤ INT_MAX - 15) as Hbr2 by lia.
      rewrite H2h. simpl. rewrite hdr_land1 by done. rewrite Hb2. simpl.
      apply (IH (b2 :: rest') m (a + bsize b) false false Hrest' Hn');
        [by rewrite <- Z.add_assoc|simpl; lia|simpl in *; lia].
Qed.

Lemma merge_free_no_pair bs : no_free_pair true (merge_free bs) = true.
Proof.
  induction bs as [|b bs IH]; [done|]. rewrite merge_free_cons.
  destruct (balloc b) eqn:Hb; simpl; [rewrite Hb; done|].
  destruct (merge_free bs) as [|[sz0 []] r]; simpl in *;
    rewrite ?Hb, ?orb_true_r; done.
Qed.

Lemma length_merge_free bs : (length (merge_free bs) ≤ length bs)%nat.
Proof.
  induction bs as [|b bs IH]; [done|]. rewrite merge_free_cons.
  destruct (balloc b); simpl; [lia|].
  destruct (merge_free bs) as [|[sz0 []] r]; simpl in *; lia.
Qed.

Lemma headers_at_app m a p l1 l2 :
  headers_at m a p (l1 ++ l2) ↔
  headers_at m a p l1 ∧ headers_at m (a + total l1) (last_alloc p l1) l2.
Proof.
  revert a p. induction l1 as [|b l1 IH]; intros a p; simpl.
  - rewrite Z.add_0_r. unfold last_alloc. simpl. tauto.
  - rewrite IH, last_alloc_cons.
    replace (a + (bsize b + total l1)) with (a + bsize b + total l1) by lia.
    tauto.
Qed.

Lemma headers_at_middle m a p pre b post :
  headers_at m a p (pre ++ b :: post) ↔
  headers_at m a p pre ∧
  (8 ≤ bsize b ∧ bsize b mod 8 = 0 ∧
   m !! (a + total pre) = Some (hdr (bsize b) (last_alloc p pre) (balloc b))) ∧
  headers_at m (a + total pre + bsize b) (balloc b) post.
Proof. rewrite headers_at_app. simpl. tauto. Qed.

Lemma total_of_merge_free al bs :
  total_of al (merge_free bs) = total_of al bs.
Proof.
  induction bs as [|b bs IH]; [done|]. rewrite merge_free_cons.
  destruct (balloc b) eqn:Hb; simpl; [rewrite Hb, IH; reflexivity|].
  rewrite Hb, <- IH.
  destruct (merge_free bs) as [|[sz0 []] r]; simpl; rewrite ?Hb; try done.
  destruct al; simpl; lia.
Qed.

Lemma check_headers_at_sound m bs :
  ∀ a p, check_headers_at m a p bs = true → headers_at m a p bs.
Proof.
  induction bs as [|b bs IH]; intros a p H; [done|]. simpl in *.
  apply andb_true_iff in H as [H C4]. apply andb_true_iff in H as [H C3].
  apply andb_true_iff in H as [C1 C2].
  apply Z.leb_le in C1. apply Z.eqb_eq in C2.
  apply bool_decide_eq_true in C3.
  repeat split; try done. by apply IH.
Qed.

Lemma check_headers_sound s bs : check_headers s bs = true → headers_inv s bs.
Proof.
  unfold check_headers. intros H.
  apply andb_true_iff in H as [H C8]. apply andb_true_iff in H as [H C7].
  apply andb_true_iff in H as [H C6]. apply andb_true_iff in H as [H C5].
  apply andb_true_iff in H as [H C4]. apply andb_true_iff in H as [H C3].
  apply andb_true_iff in H as [C1 C2].
  constructor.
  - by apply Z.ltb_lt.
  - by apply Z.eqb_eq.
  - split; [by apply Z.leb_le|by apply Z.leb_le].
  - intros k Hk. rewrite forallb_forall in C5.
    specialize (C5 k). rewrite bool_decide_eq_true in C5. apply C5.
    apply list_elem_of_In, elem_of_seqZ. lia.
  - by apply check_headers_at_sound.
  - by apply Z.eqb_eq.
  - by apply bool_decide_eq_true in C8.
Qed.


(** * The claims of the specification *)

Lemma place_shape bs i b size :
  bs !! i = Some b →
  ∃ rest, place bs i size = take i bs ++ Block size true :: rest.
Proof.
  intros Hi. unfold place. rewrite Hi.
  destruct (bsize b =? size); eexists; done.
Qed.

Lemma best_fit_size s bs n i b :
  heap_inv s bs → 0 < n → is_best_fit bs (needed n) i → bs !! i = Some b →
  8 ≤ needed n ≤ INT_MAX - 15 ∧ needed n mod 8 = 0 ∧ n ≤ allocsize s ∧
  needed n ≤ bsize b ∧ balloc b = false.
Proof.
  intros H Hn (c & Hc & Hf & Hs & _) Hi.
  assert (c = b) as -> by congruence.
  pose proof (heap_inv_block _ _ _ _ H Hi) as (Hb & _ & ? & _ & ? & _ & ? & _).
  pose proof (needed_spec n) as [? ?].
  pose proof (inv_range _ _ H).
  repeat split; try done; try lia. zlia.
Qed.

(** C1. On every initialized heap and for every positive request, [myAlloc]
    places the request in the best-fit block: the free block of smallest
    size among the free blocks of at least the needed size (the payload
    plus 4 bytes of header, rounded up to a multiple of 8), the first of
    them in address order when several have that size. It returns the
    payload address of that block and leaves its header allocated. *)
Theorem myAlloc_selects_best_fit s bs n i fuel :
  heap_inv s bs → 0 < n → (length bs < fuel)%nat →
  is_best_fit bs (needed n) i →
  block_size_for n = needed n ∧
  ∃ s' h, myAlloc fuel s n = Some (s', payload_addr s bs i) ∧
          mem s' !! block_addr s bs i = Some h ∧
          alloc_bit h = true ∧ size_of h = needed n ∧
          heap_inv s' (place bs i (needed n)).
Proof.
  intros H Hn Hfuel Hbf.
  destruct (Hbf) as (b & Hi & _).
  pose proof (best_fit_size _ _ _ _ _ H Hn Hbf Hi) as (Hr & Hm & Hna & _).
  split. { apply block_size_for_needed. pose proof (inv_range _ _ H). lia. }
  destruct (myAlloc_fit s bs n i fuel H Hn Hbf Hfuel)
    as (s' & Ha & H' & Hhs & _).
  destruct (place_shape bs i b (needed n) Hi) as (rest & Hshape).
  pose proof (inv_blocks _ _ H') as Hb. rewrite Hshape in Hb.
  apply blocks_at_middle in Hb as (_ & (_ & _ & Hh & _) & _).
  simpl in Hh. rewrite Hhs in Hh.
  exists s', (hdr (needed n) (last_alloc true (take i bs)) true).
  split; [done|]. split; [done|].
  rewrite hdr_alloc_bit, hdr_size_of by done. done.
Qed.

Lemma myAlloc_selects_best_fit_witness :
  block_size_for 20 = needed 20 ∧
  ∃ s' h, myAlloc 6 heap_40_24_64 20
            = Some (s', payload_addr heap_40_24_64 blocks_40_24_64 2) ∧
          mem s' !! block_addr heap_40_24_64 blocks_40_24_64 2 = Some h ∧
          alloc_bit h = true ∧ size_of h = needed 20 ∧
          heap_inv s' (place blocks_40_24_64 2 (needed 20)).
Proof.
  apply (myAlloc_selects_best_fit heap_40_24_64 blocks_40_24_64 20 2 6).
  - apply check_heap_sound. vm_compute. reflexivity.
  - lia.
  - simpl. lia.
  - apply best_fit_check_sound. vm_compute. reflexivity.
Defined.

(** C2. When the best-fit block is strictly larger than the needed size,
    [myAlloc] splits it: the first needed-size bytes become an allocated
    block whose header keeps the prev-alloc-bit of the candidate, the rest
    becomes a free block right after it with alloc-bit 0, prev-alloc-bit 1
    and a footer holding the size of the rest in its last word; the address
    returned is the one just past the header of the allocated block. *)
Theorem myAlloc_splits_larger_block s bs n i b fuel :
  heap_inv s bs → 0 < n → (length bs < fuel)%nat →
  is_best_fit bs (needed n) i → bs !! i = Some b → needed n < bsize b →
  let A := block_addr s bs i in
  ∃ s' h0 h hr,
    myAlloc fuel s n = Some (s', A + sizeof_blockHeader) ∧
    mem s !! A = Some h0 ∧
    mem s' !! A = Some h ∧
    size_of h = needed n ∧ alloc_bit h = true ∧
    prev_alloc_bit h = prev_alloc_bit h0 ∧
    mem s' !! (A + needed n) = Some hr ∧
    size_of hr = bsize b - needed n ∧ alloc_bit hr = false ∧
    prev_alloc_bit hr = true ∧
    mem s' !! (A + bsize b - 4) = Some (bsize b - needed n) ∧
    heap_inv s' (take i bs ++
                 [Block (needed n) true; Block (bsize b - needed n) false] ++
                 drop (S i) bs).
Proof.
  intros H Hn Hfuel Hbf Hi Hlt A.
  pose proof (best_fit_size _ _ _ _ _ H Hn Hbf Hi) as (Hr & Hm & Hna & _ & Hf).
  pose proof (heap_inv_block _ _ _ _ H Hi)
    as (Hb8 & Hbm & _ & _ & _ & _ & _ & _ & Hh0 & _).
  destruct (myAlloc_fit s bs n i fuel H Hn Hbf Hfuel)
    as (s' & Ha & H' & Hhs & _).
  unfold place in H'. rewrite Hi in H'.
  destruct (Z.eqb_spec (bsize b) (needed n)) as [?|_]; [lia|].
  pose proof (inv_blocks _ _ H') as Hb.
  apply blocks_at_middle in Hb as (_ & (_ & _ & Hh & _) & Hrest).
  simpl in Hh, Hrest. rewrite Hhs in Hh, Hrest.
  destruct Hrest as (Hr8 & Hrm & Hhr & Hfr & _).
  specialize (Hfr eq_refl). fold (block_addr s bs i) in Hh, Hhr, Hfr.
  fold A in Hh, Hhr, Hfr, Hh0.
  replace (A + needed n + (bsize b - needed n) - 4)
    with (A + bsize b - 4) in Hfr by lia.
  rewrite Hf in Hh0.
  eexists s', _, _, _.
  split; [exact Ha|]. split; [exact Hh0|]. split; [exact Hh|].
  rewrite !hdr_size_of, !hdr_alloc_bit, !hdr_prev_alloc_bit by (try done; lia).
  repeat (split; [done|]). exact H'.
Qed.

Lemma myAlloc_splits_larger_block_witness :
  let A := block_addr heap_64 [Block 64 false] 0 in
  ∃ s' h0 h hr,
    myAlloc 2 heap_64 20 = Some (s', A + sizeof_blockHeader) ∧
    mem heap_64 !! A = Some h0 ∧
    mem s' !! A = Some h ∧
    size_of h = needed 20 ∧ alloc_bit h = true ∧
    prev_alloc_bit h = prev_alloc_bit h0 ∧
    mem s' !! (A + needed 20) = Some hr ∧
    size_of hr = 64 - needed 20 ∧ alloc_bit hr = false ∧
    prev_alloc_bit hr = true ∧
    mem s' !! (A + 64 - 4) = Some (64 - needed 20) ∧
    heap_inv s' ([] ++ [Block (needed 20) true; Block (64 - needed 20) false]
                 ++ []).
Proof.
  apply (myAlloc_splits_larger_block heap_64 [Block 64 false] 20 0
           (Block 64 false) 2).
  - apply check_heap_sound. vm_compute. reflexivity.
  - lia.
  - simpl. lia.
  - apply best_fit_check_sound. vm_compute. reflexivity.
  - reflexivity.
  - vm_compute. reflexivity.
Defined.

Lemma myAlloc_total s bs n fuel :
  heap_inv s bs → (length bs < fuel)%nat →
  ∃ s' p, myAlloc fuel s n = Some (s', p) ∧
    ((p = NULL ∧ s' = s ∧ (n ≤ 0 ∨ no_fit bs (needed n))) ∨
     (0 < n ∧ ∃ i, is_best_fit bs (needed n) i ∧ p = payload_addr s bs i ∧
                   heap_inv s' (place bs i (needed n)) ∧
                   heapStart s' = heapStart s ∧ allocsize s' = allocsize s ∧
                   allocated_once s' = allocated_once s)).
Proof.
  intros H Hfuel.
  destruct (Z.le_gt_cases n 0) as [Hn|Hn].
  { exists s, NULL. split; [apply (myAlloc_no_fit s bs); auto|]. left. auto. }
  destruct (fit_dec bs (needed n)) as [Hnf|[i Hbf]].
  { exists s, NULL. split; [apply (myAlloc_no_fit s bs); auto|]. left. auto. }
  destruct (myAlloc_fit s bs n i fuel H ltac:(lia) Hbf Hfuel)
    as (s' & Ha & H' & Hg).
  exists s', (payload_addr s bs i). split; [done|]. right.
  split; [lia|]. exists i. done.
Qed.

Lemma payload_addr_range s bs i b :
  heap_inv s bs → bs !! i = Some b →
  payload_addr s bs i mod 8 = 0 ∧
  heapStart s < payload_addr s bs i < heapStart s + allocsize s.
Proof.
  intros H Hi.
  pose proof (heap_inv_block _ _ _ _ H Hi) as (? & ? & ? & ? & ? & ? & ? & _).
  pose proof (inv_align _ _ H).
  unfold payload_addr, block_addr, sizeof_blockHeader. split; [zlia|lia].
Qed.

(** C7. An address a successful [myAlloc] returns is a multiple of 8 and
    lies strictly inside the usable region, after its start and before the
    end mark. *)
Theorem myAlloc_address_aligned_in_region s bs n fuel s' p :
  heap_inv s bs → (length bs < fuel)%nat →
  myAlloc fuel s n = Some (s', p) → p ≠ NULL →
  p mod 8 = 0 ∧ heapStart s < p < heapStart s + allocsize s.
Proof.
  intros H Hfuel Ha Hp.
  destruct (myAlloc_total s bs n fuel H Hfuel) as (s1 & p1 & Ha1 & Hcase).
  rewrite Ha in Ha1. injection Ha1 as <- <-.
  destruct Hcase as [(? & _)|(_ & i & (b & Hi & _) & -> & _)]; [done|].
  by apply (payload_addr_range s bs i b).
Qed.

Lemma myAlloc_address_aligned_in_region_witness :
  4104 mod 8 = 0 ∧ heapStart heap_64 < 4104 < heapStart heap_64 + allocsize heap_64.
Proof.
  apply (myAlloc_address_aligned_in_region heap_64 [Block 64 false] 20 2
           (state_after (myAlloc 2 heap_64 20) heap_64) 4104).
  - apply check_heap_sound. vm_compute. reflexivity.
  - simpl. lia.
  - vm_compute. reflexivity.
  - unfold NULL. lia.
Defined.

(** C10. On a freshly initialized heap of usable size S, [myAlloc n]
    succeeds exactly when 0 < n <= S - 4: the check at the top of [myAlloc]
    lets every n <= S through, but the 4 bytes of header added before the
    rounding make the block larger than the region when n > S - 4. *)
Theorem fresh_heap_alloc_limit e s0 sz mp s n fuel :
  env_ok e sz mp → allocated_once s0 = 0 →
  myInit e s0 sz = Some (s, 0) → (1 < fuel)%nat →
  allocsize s = usable e sz ∧
  ∃ s' p, myAlloc fuel s n = Some (s', p) ∧
          (p ≠ NULL ↔ 0 < n ≤ allocsize s - 4).
Proof.
  intros He H0 Hinit Hfuel.
  destruct (myInit_ok e s0 sz mp He H0) as (s1 & Hi1 & H & Hhs & Has & _).
  rewrite Hinit in Hi1. injection Hi1 as <-.
  split; [done|].
  set (bs := [Block (usable e sz) false]) in *.
  destruct (myAlloc_total s bs n fuel H ltac:(simpl; lia))
    as (s' & p & Ha & Hcase).
  exists s', p. split; [done|].
  pose proof (heap_inv_block s bs 0 _ H eq_refl) as (Hb8 & Hbm & _).
  simpl in Hb8, Hbm. rewrite <- Has in Hb8, Hbm.
  pose proof (needed_spec n) as [Hn1 Hn2].
  destruct Hcase as [(-> & _ & Hno)|(Hn & i & Hbf & -> & _)].
  - split; [done|]. intros Hn. exfalso.
    destruct Hno as [?|Hnf]; [lia|].
    specialize (Hnf 0%nat _ eq_refl eq_refl). simpl in Hnf.
    rewrite <- Has in Hnf. zlia.
  - destruct (Hbf) as (b & Hi & _ & Hs & _).
    pose proof (payload_addr_range s bs i b H Hi) as [_ Hr].
    pose proof (inv_start _ _ H).
    split; [|unfold NULL; lia]. intros _.
    destruct i as [|i]; [|done]. simpl in Hi. injection Hi as <-.
    simpl in Hs. rewrite <- Has in Hs. lia.
Qed.

Lemma env_4096_ok : env_ok env_4096 100 40960.
Proof. constructor; simpl; try done; unfold INT_MAX; lia. Qed.

Lemma fresh_heap_alloc_limit_witness :
  let s := state_after (myInit env_4096 initial_state 100) initial_state in
  allocsize s = usable env_4096 100 ∧
  ∃ s' p, myAlloc 2 s 4084 = Some (s', p) ∧
          (p ≠ NULL ↔ 0 < 4084 ≤ allocsize s - 4).
Proof.
  apply (fresh_heap_alloc_limit env_4096 initial_state 100 40960).
  - apply env_4096_ok.
  - reflexivity.
  - vm_compute. reflexivity.
  - lia.
Defined.

(** ** myFree: failures *)

Lemma alloc_bit_irem h : alloc_bit h = negb (irem h 2 =? 0).
Proof.
  unfold alloc_bit, irem. rewrite testbit_0. f_equal.
  destruct (Z.eqb_spec (h mod 2) 0), (Z.eqb_spec (Z.rem h 2) 0);
    try done; zlia.
Qed.

Lemma aligned_irem ptr : (irem (wrap ptr) 8 =? 0) = (ptr mod 8 =? 0).
Proof.
  unfold irem. pose proof (wrap_mod8 ptr).
  destruct (Z.eqb_spec (Z.rem (wrap ptr) 8) 0), (Z.eqb_spec (ptr mod 8) 0);
    try done; zlia.
Qed.

Lemma myFree_failure_unchanged s ptr s' :
  myFree s ptr = Some (s', -1) → s' = s.
Proof.
  unfold myFree. intros H.
  repeat match type of H with
         | (if ?c then _ else _) = _ => destruct c
         | Some (_, _) = Some (_, _) => injection H as <-; try done
         | (?o ≫= _) = _ => destruct o; simpl in H; try done
         end.
Qed.

(** C5. [myFree ptr] returns -1 and leaves the state as it is if and only
    if [ptr] is NULL, or is not a multiple of 8, or lies outside the usable
    region, or the header in front of it has alloc-bit 0 (a block already
    freed); a call that returns -1 has written no word. *)
Theorem myFree_failure_iff s bs ptr :
  heap_inv s bs →
  (myFree s ptr = Some (s, -1) ↔
   ptr = NULL ∨ ptr mod 8 ≠ 0 ∨
   ¬ (heapStart s ≤ ptr < heapStart s + allocsize s) ∨
   (∃ h, mem s !! (ptr - sizeof_blockHeader) = Some h ∧ alloc_bit h = false)) ∧
  (∀ s', myFree s ptr = Some (s', -1) → s' = s).
Proof.
  intros H. split; [|apply myFree_failure_unchanged].
  pose proof (inv_align _ _ H) as Hal.
  pose proof (sizes_total _ (blocks_at_sizes _ _ _ _ (inv_blocks _ _ H)))
    as [_ Ht8].
  rewrite (inv_total _ _ H) in Ht8.
  unfold myFree, NULL. rewrite aligned_irem.
  destruct (Z.eqb_spec ptr 0) as [?|Hnull]; [split; auto|].
  destruct (Z.eqb_spec (ptr mod 8) 0) as [Ha|Ha]; simpl; [|split; auto].
  destruct (Z.ltb_spec ptr (heapStart s)) as [?|Hlo]; simpl.
  { split; [|done]. intros _. right. right. left. lia. }
  destruct (Z.gtb_spec ptr (heapStart s + allocsize s)) as [?|Hhi]; simpl.
  { split; [|done]. intros _. right. right. left. lia. }
  assert (heapStart s ≤ ptr < heapStart s + allocsize s) as Hin by zlia.
  unfold load. destruct (mem s !! (ptr - sizeof_blockHeader)) as [h|] eqn:Hh;
    simpl.
  2:{ split; [done|]. intros [?|[?|[?|(h & ? & _)]]]; done. }
  pose proof (alloc_bit_irem h) as Hbit.
  destruct (irem h 2 =? 0); simpl in Hbit.
  { split; [|done]. intros _. right. right. right. eauto. }
  split.
  - intros Hf. exfalso.
    repeat match type of Hf with
           | (if ?c then _ else _) = _ => destruct c
           | Some (_, _) = Some (_, _) => injection Hf as _ ?; done
           | (?o ≫= _) = _ => destruct o; simpl in Hf; try done
           end.
  - intros [?|[?|[?|(h' & Hh' & Hb')]]]; try done. congruence.
Qed.

Lemma myFree_failure_iff_witness :
  (myFree heap_40_24_64 4104 = Some (heap_40_24_64, -1) ↔
   4104 = NULL ∨ 4104 mod 8 ≠ 0 ∨
   ¬ (heapStart heap_40_24_64 ≤ 4104
      < heapStart heap_40_24_64 + allocsize heap_40_24_64) ∨
   (∃ h, mem heap_40_24_64 !! (4104 - sizeof_blockHeader) = Some h ∧
         alloc_bit h = false)) ∧
  (∀ s', myFree heap_40_24_64 4104 = Some (s', -1) → s' = heap_40_24_64).
Proof.
  apply (myFree_failure_iff heap_40_24_64 blocks_40_24_64 4104).
  apply check_heap_sound. vm_compute. reflexivity.
Defined.

(** ** myFree: successes *)

Lemma store_inv m a v m' : store m a v = Some m' → m' = <[a := v]> m.
Proof. unfold store. destruct (m !! a); [|done]. by intros [= <-]. Qed.

Lemma csize_mod8 x : csize x mod 8 = 0.
Proof.
  unfold csize, isub, irem. rewrite wrap_mod8. zlia.
Qed.

Lemma alloc_bit_wrap z : alloc_bit (wrap z) = alloc_bit z.
Proof.
  unfold alloc_bit. rewrite !testbit_0. f_equal. unfold wrap.
  destruct (Z.eqb_spec (((z + 2147483648) mod 4294967296 - 2147483648) mod 2) 0),
           (Z.eqb_spec (z mod 2) 0); try done; zlia.
Qed.

Lemma prev_alloc_bit_wrap z : prev_alloc_bit (wrap z) = prev_alloc_bit z.
Proof.
  unfold prev_alloc_bit. rewrite !testbit_1. f_equal. unfold wrap.
  destruct (Z.eqb_spec
              ((((z + 2147483648) mod 4294967296 - 2147483648) / 2) mod 2) 0),
           (Z.eqb_spec ((z / 2) mod 2) 0); try done; zlia.
Qed.

Lemma csize_size_of h :
  alloc_bit h = true → 0 ≤ h ≤ INT_MAX → csize (isub h 1) = size_of h.
Proof.
  rewrite alloc_bit_irem. intros Hb Hr.
  apply negb_true_iff, Z.eqb_neq in Hb.
  unfold csize, isub, irem, size_of, INT_MAX in *.
  rewrite (wrap_id (h - 1)) by (unfold INT_MIN, INT_MAX; lia).
  rewrite wrap_id by (unfold INT_MIN, INT_MAX; zlia). zlia.
Qed.

Lemma clear_alloc_bit h :
  alloc_bit h = true →
  alloc_bit (isub h 1) = false ∧
  prev_alloc_bit (isub h 1) = prev_alloc_bit h.
Proof.
  unfold isub. rewrite alloc_bit_wrap, prev_alloc_bit_wrap.
  unfold alloc_bit, prev_alloc_bit. rewrite !testbit_0, !testbit_1.
  intros H. apply negb_true_iff, Z.eqb_neq in H. split.
  - apply negb_false_iff, Z.eqb_eq. zlia.
  - f_equal.
    destruct (Z.eqb_spec (((h - 1) / 2) mod 2) 0),
             (Z.eqb_spec ((h / 2) mod 2) 0); try done; zlia.
Qed.

Lemma clear_prev_alloc_bit h :
  prev_alloc_bit (isub h (Z.land h 2)) = false ∧
  alloc_bit (isub h (Z.land h 2)) = alloc_bit h.
Proof.
  unfold isub. rewrite alloc_bit_wrap, prev_alloc_bit_wrap, land_2.
  unfold alloc_bit, prev_alloc_bit. rewrite !testbit_0, !testbit_1. split.
  - apply negb_false_iff, Z.eqb_eq. zlia.
  - f_equal.
    destruct (Z.eqb_spec ((h - 2 * ((h / 2) mod 2)) mod 2) 0),
             (Z.eqb_spec (h mod 2) 0); try done; zlia.
Qed.

(** C6. A call of [myFree] that succeeds returns 0 and writes three words
    at most: the header of the freed block, whose alloc-bit it clears; the
    header of the block that follows, whose prev-alloc-bit it clears unless
    that word is the end mark; and the last word of the freed block, where
    it writes the size of the block with the flag bits stripped. No other
    word changes (in particular no size field: nothing is merged), nor do
    [heapStart] and [allocsize]. *)
Theorem myFree_success_effect s ptr s' r :
  myFree s ptr = Some (s', r) → r ≠ -1 →
  ∃ h hn h',
    let hd := ptr - sizeof_blockHeader in
    let size := csize (isub h 1) in
    let next := hd + size in
    let footer := hd + size - sizeof_blockHeader in
    r = 0 ∧
    heapStart s' = heapStart s ∧ allocsize s' = allocsize s ∧
    allocated_once s' = allocated_once s ∧
    mem s !! hd = Some h ∧ alloc_bit h = true ∧
    (0 ≤ h ≤ INT_MAX → size = size_of h) ∧
    mem s' !! hd = Some h' ∧ alloc_bit h' = false ∧
    (next ≠ hd → h' = isub h 1 ∧ prev_alloc_bit h' = prev_alloc_bit h) ∧
    (if decide (next = hd) then hn = isub h 1 else mem s !! next = Some hn) ∧
    mem s' !! next = Some (if hn =? 1 then 1 else isub hn (Z.land hn 2)) ∧
    (hn ≠ 1 → prev_alloc_bit (isub hn (Z.land hn 2)) = false ∧
              alloc_bit (isub hn (Z.land hn 2)) = alloc_bit hn) ∧
    mem s' !! footer = Some size ∧
    (∀ x, x ≠ hd → x ≠ next → x ≠ footer → mem s' !! x = mem s !! x).
Proof.
  unfold myFree, sizeof_blockHeader. intros H Hr.
  destruct (ptr =? NULL); [injection H as _ <-; done|].
  destruct (negb (irem (wrap ptr) 8 =? 0)); [injection H as _ <-; done|].
  destruct ((ptr <? heapStart s) || (ptr >? heapStart s + allocsize s));
    [injection H as _ <-; done|].
  unfold load in H.
  destruct (mem s !! (ptr - 4)) as [h|] eqn:Hh;
    simpl in H; [|done].
  pose proof (alloc_bit_irem h) as Hbit.
  destruct (irem h 2 =? 0); [injection H as _ <-; done|]. simpl in Hbit.
  rewrite store_Some in H by (rewrite Hh; eauto). simpl in H.
  rewrite lookup_insert_eq in H. simpl in H. fold (csize (isub h 1)) in H.
  pose proof (csize_mod8 (isub h 1)) as Hm8.
  pose proof (csize_size_of h Hbit) as Hso.
  pose proof (clear_alloc_bit h Hbit) as [Hc1 Hc2].
  remember (csize (isub h 1)) as size eqn:Hsize.
  remember (ptr - 4) as hd eqn:Hhd.
  set (m1 := <[hd := isub h 1]> (mem s)) in *.
  destruct (m1 !! (hd + size)) as [hn|] eqn:Hn; simpl in H; [|done].
  pose proof (clear_prev_alloc_bit hn) as [Hp1 Hp2].
  assert (hd + size - 4 ≠ hd) as Hf1
    by zlia.
  assert (hd + size - 4 ≠ hd + size) as Hf2
    by lia.
  assert (hn = 1 → hd + size ≠ hd) as Hend.
  { intros -> Heq. rewrite Heq in Hn. unfold m1 in Hn.
    rewrite lookup_insert_eq in Hn. injection Hn as Hn.
    rewrite Hn in Hc1. done. }
  exists h, hn.
  destruct (Z.eqb_spec hn 1) as [->|Hne]; simpl in H.
  - (* the end mark follows *)
    destruct (store m1 (hd + size - 4) size) as [m3|] eqn:Hft;
      simpl in H; [|done].
    apply store_inv in Hft. subst m3.
    injection H as <- <-. simpl. rewrite <- Hsize. exists (isub h 1).
    specialize (Hend eq_refl).
    repeat (split; [done|]).
    split; [unfold m1; by rewrite !lookup_insert_ne, lookup_insert_eq by done|].
    split; [done|]. split; [done|].
    split. { destruct (decide (hd + size = hd)); [done|].
             unfold m1 in Hn. by rewrite lookup_insert_ne in Hn by done. }
    split; [by rewrite lookup_insert_ne by done|].
    split; [done|].
    split; [apply lookup_insert_eq|].
    intros x ? ? ?. unfold m1. by rewrite !lookup_insert_ne by done.
  - rewrite store_Some in H by (rewrite Hn; eauto). simpl in H.
    destruct (store (<[hd + size := isub hn (Z.land hn 2)]> m1)
                    (hd + size - 4) size) as [m3|] eqn:Hft;
      simpl in H; [|done].
    apply store_inv in Hft. subst m3.
    injection H as <- <-. simpl. rewrite <- Hsize.
    destruct (decide (hd + size = hd)) as [Heq|Hneq].
    + exists (isub hn (Z.land hn 2)).
      assert (hn = isub h 1) as Hhn.
      { rewrite Heq in Hn. unfold m1 in Hn.
        rewrite lookup_insert_eq in Hn. by injection Hn. }
      repeat (split; [done|]).
      split. { rewrite lookup_insert_ne by done. rewrite Heq.
               apply lookup_insert_eq. }
      split; [by rewrite Hp2, Hhn|]. split; [done|]. split; [done|].
      split. { rewrite lookup_insert_ne by done. apply lookup_insert_eq. }
      split; [done|].
      split; [apply lookup_insert_eq|].
      intros x ? ? ?. unfold m1. by rewrite !lookup_insert_ne by done.
    + exists (isub h 1).
      repeat (split; [done|]).
      split. { unfold m1. by rewrite !lookup_insert_ne, lookup_insert_eq by done. }
      split; [done|]. split; [done|].
      split. { unfold m1 in Hn. by rewrite lookup_insert_ne in Hn by done. }
      split. { rewrite lookup_insert_ne by done. apply lookup_insert_eq. }
      split; [done|].
      split; [apply lookup_insert_eq|].
      intros x ? ? ?. unfold m1. by rewrite !lookup_insert_ne by done.
Qed.

Lemma myFree_success_effect_witness :
  ∃ h hn h',
    let hd := 4144 - sizeof_blockHeader in
    let size := csize (isub h 1) in
    let next := hd + size in
    let footer := hd + size - sizeof_blockHeader in
    let s := heap_40_24_64 in
    let s' := state_after (myFree heap_40_24_64 4144) heap_40_24_64 in
    0 = 0 ∧
    heapStart s' = heapStart s ∧ allocsize s' = allocsize s ∧
    allocated_once s' = allocated_once s ∧
    mem s !! hd = Some h ∧ alloc_bit h = true ∧
    (0 ≤ h ≤ INT_MAX → size = size_of h) ∧
    mem s' !! hd = Some h' ∧ alloc_bit h' = false ∧
    (next ≠ hd → h' = isub h 1 ∧ prev_alloc_bit h' = prev_alloc_bit h) ∧
    (if decide (next = hd) then hn = isub h 1 else mem s !! next = Some hn) ∧
    mem s' !! next = Some (if hn =? 1 then 1 else isub hn (Z.land hn 2)) ∧
    (hn ≠ 1 → prev_alloc_bit (isub hn (Z.land hn 2)) = false ∧
              alloc_bit (isub hn (Z.land hn 2)) = alloc_bit hn) ∧
    mem s' !! footer = Some size ∧
    (∀ x, x ≠ hd → x ≠ next → x ≠ footer → mem s' !! x = mem s !! x).
Proof.
  apply (myFree_success_effect heap_40_24_64 4144
           (state_after (myFree heap_40_24_64 4144) heap_40_24_64) 0).
  - vm_compute. reflexivity.
  - lia.
Defined.

(** ** coalesce *)

Lemma run_total_bounds s pre run post :
  heap_inv s (pre ++ run ++ post) → run ≠ [] →
  8 ≤ total run ≤ INT_MAX - 15 ∧ total run mod 8 = 0 ∧ 0 ≤ total pre.
Proof.
  intros H Hne.
  pose proof (blocks_at_sizes _ _ _ _ (inv_blocks _ _ H)) as HF.
  apply Forall_app in HF as [HFp HF]. apply Forall_app in HF as [HFr HFq].
  pose proof (sizes_total _ HFp) as [? _].
  pose proof (sizes_total _ HFr) as [? ?].
  pose proof (sizes_total _ HFq) as [? _].
  pose proof (inv_total _ _ H) as Ht. rewrite !total_app in Ht.
  pose proof (inv_range _ _ H).
  destruct run as [|b run]; [done|]. simpl length in *.
  repeat split; try done; lia.
Qed.

(** X17. On a target where a pointer has the size of a header (4 bytes),
    one call of [coalesce] turns every maximal run of adjacent free blocks
    into one free block: its header holds the sum of the sizes of the run
    with alloc-bit 0 and the prev-alloc-bit of the first block of the run,
    and its last word is a footer holding that sum. No word of an allocated
    block, or of a free block with no free neighbour, changes. *)
Theorem coalesce_merges_free_runs s bs fuel :
  heap_inv s bs → (length bs < fuel)%nat →
  ∃ s', coalesce ILP32 fuel s = Some (s', 1) ∧
    heap_inv s' (merge_free bs) ∧
    (∀ pre run post,
        bs = pre ++ run ++ post → maximal_free_run pre run post →
        let A := heapStart s + total pre in
        merge_free bs =
          merge_free pre ++ Block (total run) false :: merge_free post ∧
        ∃ h0 h, mem s !! A = Some h0 ∧ mem s' !! A = Some h ∧
                size_of h = total run ∧ alloc_bit h = false ∧
                prev_alloc_bit h = prev_alloc_bit h0 ∧
                mem s' !! (A + total run - 4) = Some (total run)) ∧
    (∀ i b, bs !! i = Some b → balloc b = true ∨ ¬ free_neighbour bs i →
            ∀ x, block_addr s bs i ≤ x < block_addr s bs i + bsize b →
                 mem s' !! x = mem s !! x).
Proof.
  intros H Hfuel.
  destruct (coalesce_inv s bs fuel H Hfuel)
    as (s' & Hc & H' & Hhs & Has & _ & Hun).
  exists s'. split; [done|]. split; [done|]. split.
  - intros pre run post -> Hmax A.
    pose proof (merge_free_runs pre run post Hmax) as Hm.
    split; [done|].
    destruct Hmax as (Hpre & Hfree & Hne & Hpost).
    pose proof (run_total_bounds s pre run post H Hne) as (Hr & Hr8 & Hp0).
    pose proof (inv_blocks _ _ H') as Hb'. rewrite Hm in Hb'.
    apply blocks_at_middle in Hb' as (_ & (_ & _ & Hh & Hf) & _).
    simpl in Hh, Hf. specialize (Hf eq_refl).
    rewrite Hhs, total_merge_free, last_alloc_merge_free in *.
    destruct run as [|b1 run']; [done|].
    pose proof (inv_blocks _ _ H) as Hb.
    change (pre ++ (b1 :: run') ++ post) with (pre ++ b1 :: (run' ++ post))
      in Hb.
    apply blocks_at_middle in Hb as (_ & (Hb8 & Hbm & Hh0 & _) & _).
    apply Forall_cons in Hfree as [Hf1 _]. rewrite Hf1 in Hh0.
    pose proof (inv_range _ _ H).
    pose proof (run_total_bounds s pre [b1] (run' ++ post)) as (Hr1 & _).
    { exact H. } { done. }
    simpl in Hr1. rewrite Z.add_0_r in Hr1.
    eexists _, _. split; [exact Hh0|]. split; [exact Hh|].
    rewrite !hdr_size_of, !hdr_alloc_bit, !hdr_prev_alloc_bit by done.
    done.
  - intros i b Hi Hc' x Hx.
    apply (unchanged_blocks_lookup (mem s) (mem s') bs (heapStart s) false i b);
      try done.
    destruct Hc'; [by left|by right].
Qed.

Lemma coalesce_merges_free_runs_witness :
  ∃ s', coalesce ILP32 5 heap_16_24_8 = Some (s', 1) ∧
    heap_inv s' (merge_free blocks_16_24_8) ∧
    (∀ pre run post,
        blocks_16_24_8 = pre ++ run ++ post → maximal_free_run pre run post →
        let A := heapStart heap_16_24_8 + total pre in
        merge_free blocks_16_24_8 =
          merge_free pre ++ Block (total run) false :: merge_free post ∧
        ∃ h0 h, mem heap_16_24_8 !! A = Some h0 ∧ mem s' !! A = Some h ∧
                size_of h = total run ∧ alloc_bit h = false ∧
                prev_alloc_bit h = prev_alloc_bit h0 ∧
                mem s' !! (A + total run - 4) = Some (total run)) ∧
    (∀ i b, blocks_16_24_8 !! i = Some b →
            balloc b = true ∨ ¬ free_neighbour blocks_16_24_8 i →
            ∀ x, block_addr heap_16_24_8 blocks_16_24_8 i ≤ x
                 < block_addr heap_16_24_8 blocks_16_24_8 i + bsize b →
                 mem s' !! x = mem heap_16_24_8 !! x).
Proof.
  apply (coalesce_merges_free_runs heap_16_24_8 blocks_16_24_8 5).
  - apply check_heap_sound. vm_compute. reflexivity.
  - simpl. lia.
Defined.

Lemma headers_run_bounds s pre run post :
  headers_inv s (pre ++ run ++ post) → run ≠ [] →
  8 ≤ total run ≤ INT_MAX - 15 ∧ total run mod 8 = 0 ∧ 0 ≤ total pre.
Proof.
  intros H Hne.
  pose proof (headers_at_sizes _ _ _ _ (hinv_headers _ _ H)) as HF.
  apply Forall_app in HF as [HFp HF]. apply Forall_app in HF as [HFr HFq].
  pose proof (sizes_total _ HFp) as [? _].
  pose proof (sizes_total _ HFr) as [? ?].
  pose proof (sizes_total _ HFq) as [? _].
  pose proof (hinv_total _ _ H) as Ht. rewrite !total_app in Ht.
  pose proof (hinv_range _ _ H).
  destruct run as [|b run]; [done|]. simpl length in *.
  repeat split; try done; lia.
Qed.

(** X18. Whichever size a pointer has, 4 or 8 bytes, one call of [coalesce]
    on well-formed headers returns 1 and merges the headers: every maximal
    run of adjacent free blocks becomes one block whose header holds the sum
    of the sizes of the run with alloc-bit 0 and the prev-alloc-bit of the
    first block of the run, [dispMem] then reports the merged blocks, and no
    word of an allocated block, or of a free block with no free neighbour,
    changes. Only the footers depend on the pointer size. *)
Theorem coalesce_merges_headers psz s bs fuel :
  pointer_size psz → headers_inv s bs → (length bs < fuel)%nat →
  ∃ s', coalesce psz fuel s = Some (s', 1) ∧
    headers_inv s' (merge_free bs) ∧
    dispMem fuel s' =
      Some (rows_of (heapStart s) true (merge_free bs),
            total_of true bs, total_of false bs) ∧
    (∀ pre run post,
        bs = pre ++ run ++ post → maximal_free_run pre run post →
        let A := heapStart s + total pre in
        merge_free bs =
          merge_free pre ++ Block (total run) false :: merge_free post ∧
        ∃ h0 h, mem s !! A = Some h0 ∧ mem s' !! A = Some h ∧
                size_of h = total run ∧ alloc_bit h = false ∧
                prev_alloc_bit h = prev_alloc_bit h0) ∧
    (∀ i b, bs !! i = Some b → balloc b = true ∨ ¬ free_neighbour bs i →
            ∀ x, block_addr s bs i ≤ x < block_addr s bs i + bsize b →
                 mem s' !! x = mem s !! x).
Proof.
  intros Hpsz H Hfuel.
  destruct (coalesce_headers psz s bs fuel Hpsz H Hfuel)
    as (s' & Hc & H' & Hhs & Has & _ & Hun).
  exists s'. split; [done|]. split; [done|]. split; [|split].
  - pose proof (length_merge_free bs).
    rewrite (dispMem_headers s' _ fuel H') by lia.
    rewrite Hhs, !total_of_merge_free. done.
  - intros pre run post -> Hmax A.
    pose proof (merge_free_runs pre run post Hmax) as Hm.
    split; [done|].
    destruct Hmax as (Hpre & Hfree & Hne & Hpost).
    pose proof (headers_run_bounds s pre run post H Hne) as (Hr & Hr8 & Hp0).
    pose proof (hinv_headers _ _ H') as Hb'. rewrite Hm in Hb'.
    apply headers_at_middle in Hb' as (_ & (_ & _ & Hh) & _).
    simpl in Hh.
    rewrite Hhs, total_merge_free, last_alloc_merge_free in *.
    destruct run as [|b1 run']; [done|].
    pose proof (hinv_headers _ _ H) as Hb.
    change (pre ++ (b1 :: run') ++ post) with (pre ++ b1 :: (run' ++ post))
      in Hb.
    apply headers_at_middle in Hb as (_ & (Hb8 & Hbm & Hh0) & _).
    apply Forall_cons in Hfree as [Hf1 _]. rewrite Hf1 in Hh0.
    pose proof (hinv_range _ _ H).
    pose proof (headers_run_bounds s pre [b1] (run' ++ post)) as (Hr1 & _).
    { exact H. } { done. }
    simpl in Hr1. rewrite Z.add_0_r in Hr1.
    eexists _, _. split; [exact Hh0|]. split; [exact Hh|].
    rewrite !hdr_size_of, !hdr_alloc_bit, !hdr_prev_alloc_bit by done.
    done.
  - intros i b Hi Hc' x Hx.
    apply (unchanged_blocks_lookup (mem s) (mem s') bs (heapStart s) false i b);
      try done.
    destruct Hc'; [by left|by right].
Qed.

Lemma coalesce_merges_headers_witness :
  let s := run_16_24_8 in
  let bs := [Block 16 false; Block 24 false; Block 8 false; Block 16 true;
             Block 4024 false] in
  ∃ s', coalesce LP64 8 s = Some (s', 1) ∧
    headers_inv s' (merge_free bs) ∧
    dispMem 8 s' =
      Some (rows_of (heapStart s) true (merge_free bs),
            total_of true bs, total_of false bs) ∧
    (∀ pre run post,
        bs = pre ++ run ++ post → maximal_free_run pre run post →
        let A := heapStart s + total pre in
        merge_free bs =
          merge_free pre ++ Block (total run) false :: merge_free post ∧
        ∃ h0 h, mem s !! A = Some h0 ∧ mem s' !! A = Some h ∧
                size_of h = total run ∧ alloc_bit h = false ∧
                prev_alloc_bit h = prev_alloc_bit h0) ∧
    (∀ i b, bs !! i = Some b → balloc b = true ∨ ¬ free_neighbour bs i →
            ∀ x, block_addr s bs i ≤ x < block_addr s bs i + bsize b →
                 mem s' !! x = mem s !! x).
Proof.
  apply (coalesce_merges_headers LP64 run_16_24_8
           [Block 16 false; Block 24 false; Block 8 false; Block 16 true;
            Block 4024 false] 8).
  - right. reflexivity.
  - apply heap_inv_headers, check_heap_sound. vm_compute. reflexivity.
  - simpl. lia.
Defined.

(** C3 fails where a pointer has 8 bytes. Line 306 subtracts
    [sizeof(blockHeader* )] where lines 192 and 259 subtract
    [sizeof(blockHeader)], so it reaches the word before the last word of
    the block. After blocks of 16, 24, 8 and 16 bytes are allocated on a
    fresh heap and the first three are freed, [coalesce] merges the three
    headers into one of 48 bytes, but the last word of the merged block
    holds 8, the footer [myFree] wrote for the last block of the run, and
    the 48 is in the word before it; with 4-byte pointers the last word
    holds 48. *)
Theorem coalesce_footer_8_byte_pointers :
  let s := run_16_24_8 in
  let s4 := state_after (coalesce ILP32 8 s) s in
  let s8 := state_after (coalesce LP64 8 s) s in
  block_view 8 s =
    Some [(16, false); (24, false); (8, false); (16, true); (4024, false)] ∧
  coalesce ILP32 8 s = Some (s4, 1) ∧ coalesce LP64 8 s = Some (s8, 1) ∧
  block_view 8 s4 = Some [(48, false); (16, true); (4024, false)] ∧
  block_view 8 s8 = Some [(48, false); (16, true); (4024, false)] ∧
  mem s4 !! (heapStart s + 48 - 4) = Some 48 ∧
  mem s8 !! (heapStart s + 48 - 4) = Some 8 ∧
  mem s8 !! (heapStart s + 48 - 8) = Some 48.
Proof. repeat split; vm_compute; reflexivity. Qed.

(** More fuel does not change a result. *)
Lemma alloc_scan_mono fuel :
  ∀ fuel' m size cur flag best bsz r,
    alloc_scan fuel m size cur flag best bsz = Some r → (fuel ≤ fuel')%nat →
    alloc_scan fuel' m size cur flag best bsz = Some r.
Proof.
  induction fuel as [|fuel IH]; intros fuel' m size cur flag best bsz r H Hle;
    [done|].
  destruct fuel' as [|fuel']; [lia|]. simpl in *.
  destruct (load m cur) as [h|]; simpl in *; [|done].
  destruct (h =? 1); [done|].
  destruct (negb (irem h 2 =? 0) || (isub h (irem h 8) <? size)).
  { apply IH; [done|lia]. }
  destruct (flag =? 0); destruct (isub h (irem h 8) <? _);
    (apply IH; [done|lia]).
Qed.

Lemma myAlloc_mono fuel fuel' s n r :
  myAlloc fuel s n = Some r → (fuel ≤ fuel')%nat → myAlloc fuel' s n = Some r.
Proof.
  unfold myAlloc. intros H Hle.
  destruct ((n <=? 0) || (n >? allocsize s)); [done|].
  destruct (alloc_scan fuel _ _ _ _ _ _) as [acc|] eqn:Hs; simpl in H; [|done].
  rewrite (alloc_scan_mono _ _ _ _ _ _ _ _ _ Hs Hle). done.
Qed.

Lemma coalesce_loop_mono psz fuel :
  ∀ fuel' m ptr r,
    coalesce_loop psz fuel m ptr = Some r → (fuel ≤ fuel')%nat →
    coalesce_loop psz fuel' m ptr = Some r.
Proof.
  induction fuel as [|fuel IH]; intros fuel' m ptr r H Hle; [done|].
  destruct fuel' as [|fuel']; [lia|]. simpl in *.
  destruct (load m ptr) as [h|]; simpl in *; [|done].
  destruct (h =? 1); [done|].
  destruct (negb (Z.land h 1 =? 0)); [apply IH; [done|lia]|].
  destruct (load m _) as [hn|]; simpl in *; [|done].
  destruct (negb (Z.land hn 1 =? 0)); [apply IH; [done|lia]|].
  destruct (store m ptr _) as [m1|]; simpl in *; [|done].
  destruct (load m1 _) as [hf|]; simpl in *; [|done].
  destruct (store m1 _ _) as [m2|]; simpl in *; [|done].
  apply IH; [done|lia].
Qed.

Lemma coalesce_mono psz fuel fuel' s r :
  coalesce psz fuel s = Some r → (fuel ≤ fuel')%nat →
  coalesce psz fuel' s = Some r.
Proof.
  unfold coalesce. intros H Hle.
  destruct (coalesce_loop psz fuel _ _) as [m|] eqn:Hc; simpl in H; [|done].
  rewrite (coalesce_loop_mono _ _ _ _ _ _ Hc Hle). done.
Qed.

(** ** The round trip on a fresh heap *)

(** C4 as stated fails: the round trip does not restore the region to
    exactly its initial state. On a fresh heap of 4088 usable bytes, after
    [myAlloc 100], [myFree] of its result and [coalesce] (with 4-byte
    pointers), two words inside the block that were 0 keep what the calls
    wrote there: the size 104 that [myFree] wrote as a footer and the header
    3984 of the split-off block. *)
Lemma round_trip_leaves_stale_words :
  let s := fresh_4096 in
  let s1 := state_after (myAlloc 3 s 100) s in
  let s2 := state_after (myFree s1 40968) s1 in
  let s3 := state_after (coalesce ILP32 3 s2) s2 in
  myAlloc 3 s 100 = Some (s1, 40968) ∧ myFree s1 40968 = Some (s2, 0) ∧
  coalesce ILP32 3 s2 = Some (s3, 1) ∧
  mem s !! 41064 = Some 0 ∧ mem s3 !! 41064 = Some 104 ∧
  mem s !! 41068 = Some 0 ∧ mem s3 !! 41068 = Some 3984.
Proof. repeat split; vm_compute; reflexivity. Qed.

(** C4, amended. On a freshly initialized heap, a successful [myAlloc n],
    then [myFree] of the address it returned, then [coalesce] restore the
    blocks of the fresh heap, whichever size a pointer has (4 or 8 bytes):
    [dispMem] reports what it reports on the fresh heap, one free block of
    the usable size; the header at the region start holds the usable size
    with alloc-bit 0 and prev-alloc-bit 1, the end mark is in place, and
    [heapStart] and [allocsize] are those of the fresh heap. Where a pointer
    has the size of a header, the last word of the region holds the usable
    size again. Nothing is said of the other words inside the block. *)
Theorem alloc_free_coalesce_round_trip e s0 sz mp s n fuel s1 p psz cfuel :
  env_ok e sz mp → allocated_once s0 = 0 →
  myInit e s0 sz = Some (s, 0) →
  myAlloc fuel s n = Some (s1, p) → p ≠ NULL →
  pointer_size psz → (2 < cfuel)%nat →
  ∃ s2 s3,
    myFree s1 p = Some (s2, 0) ∧ coalesce psz cfuel s2 = Some (s3, 1) ∧
    heapStart s3 = heapStart s ∧ allocsize s3 = allocsize s ∧
    dispMem cfuel s =
      Some ([Row false true (heapStart s) (heapStart s + allocsize s - 1)
                 (allocsize s)], 0, allocsize s) ∧
    dispMem cfuel s3 = dispMem cfuel s ∧
    mem s3 !! heapStart s = Some (hdr (allocsize s) true false) ∧
    mem s3 !! heapStart s = mem s !! heapStart s ∧
    mem s3 !! (heapStart s + allocsize s) = Some 1 ∧
    mem s3 !! (heapStart s + allocsize s)
      = mem s !! (heapStart s + allocsize s) ∧
    (psz = sizeof_blockHeader →
     mem s3 !! (heapStart s + allocsize s - 4) = Some (allocsize s) ∧
     mem s3 !! (heapStart s + allocsize s - 4)
       = mem s !! (heapStart s + allocsize s - 4)).
Proof.
  intros He H0 Hinit Ha Hp Hpsz Hfuel.
  destruct (myInit_ok e s0 sz mp He H0) as (s' & Hi1 & H & _ & Has & _).
  rewrite Hinit in Hi1. injection Hi1 as <-. rewrite <- Has in H.
  set (S := allocsize s) in *. set (bs := [Block S false]) in *.
  apply (myAlloc_mono _ (fuel `max` 2)) in Ha; [|lia].
  destruct (myAlloc_total s bs n (fuel `max` 2) H ltac:(simpl; lia))
    as (s1' & p' & Ha' & Hcase).
  rewrite Ha in Ha'. injection Ha' as <- <-.
  destruct Hcase as [(? & _)|(Hn & i & Hbf & -> & H1 & Hhs1 & Has1 & _)];
    [done|].
  destruct (Hbf) as (b & Hi & _ & Hs & _).
  destruct i as [|i]; [|done]. simpl in Hi. injection Hi as <-. simpl in Hs.
  set (bs1 := place bs 0 (needed n)) in *.
  assert (∃ rest, bs1 = Block (needed n) true :: rest ∧
                  merge_free (Block (needed n) false :: rest) = bs ∧
                  (length rest ≤ 1)%nat)
    as (rest & Hbs1 & Hmerge & Hlen).
  { unfold bs1, place, bs. simpl.
    destruct (Z.eqb_spec S (needed n)) as [->|Hne]; eexists;
      (split; [done|]); (split; [|simpl; lia]); [done|].
    simpl. unfold bs. do 2 f_equal. lia. }
  destruct (myFree_block s1 bs1 0 (Block (needed n) true) H1)
    as (s2 & Hf & H2 & Hhs2 & Has2 & _); [by rewrite Hbs1|done|].
  assert (payload_addr s1 bs1 0 = payload_addr s bs 0) as Hpa.
  { unfold payload_addr, block_addr. simpl. by rewrite Hhs1. }
  rewrite Hpa in Hf.
  assert (release bs1 0 = Block (needed n) false :: rest) as Hrel.
  { unfold release. rewrite Hbs1. done. }
  rewrite Hrel in H2.
  destruct (coalesce_headers psz s2 _ cfuel Hpsz (heap_inv_headers _ _ H2))
    as (s3 & Hc & H3 & Hhs3 & Has3 & _); [simpl; lia|].
  rewrite Hmerge in H3.
  exists s2, s3. split; [done|]. split; [done|].
  assert (heapStart s3 = heapStart s) as Hhs by congruence.
  assert (allocsize s3 = allocsize s) as Has' by congruence.
  split; [done|]. split; [done|].
  pose proof (inv_blocks _ _ H) as Hb. pose proof (inv_end _ _ H) as Hend.
  pose proof (hinv_headers _ _ H3) as Hb3. pose proof (hinv_end _ _ H3) as He3.
  simpl in Hb3, Hb. rewrite Hhs in Hb3. rewrite Hhs, Has' in He3.
  destruct Hb3 as (_ & _ & Hh3 & _). destruct Hb as (_ & _ & Hh & Hf0 & _).
  specialize (Hf0 eq_refl). fold S in He3, Hend.
  rewrite (dispMem_headers s bs cfuel (heap_inv_headers _ _ H))
    by (simpl; lia).
  rewrite (dispMem_headers s3 bs cfuel H3) by (simpl; lia).
  rewrite Hhs. simpl. rewrite !Z.add_0_r.
  split; [done|]. split; [done|].
  rewrite Hh3, He3, Hh, Hend. repeat (split; [done|]).
  intros ->. change sizeof_blockHeader with ILP32 in Hc.
  destruct (coalesce_inv s2 _ cfuel H2) as (s3' & Hc' & H3' & _);
    [simpl; lia|].
  rewrite Hc in Hc'. injection Hc' as <-. rewrite Hmerge in H3'.
  pose proof (inv_blocks _ _ H3') as Hb3'. simpl in Hb3'.
  destruct Hb3' as (_ & _ & _ & Hf3 & _). specialize (Hf3 eq_refl).
  rewrite Hhs in Hf3. fold S. rewrite Hf3, Hf0. done.
Qed.

Lemma alloc_free_coalesce_round_trip_witness :
  let s := fresh_4096 in
  ∃ s2 s3,
    myFree (state_after (myAlloc 3 s 100) s) 40968 = Some (s2, 0) ∧
    coalesce ILP32 3 s2 = Some (s3, 1) ∧
    heapStart s3 = heapStart s ∧ allocsize s3 = allocsize s ∧
    dispMem 3 s =
      Some ([Row false true (heapStart s) (heapStart s + allocsize s - 1)
                 (allocsize s)], 0, allocsize s) ∧
    dispMem 3 s3 = dispMem 3 s ∧
    mem s3 !! heapStart s = Some (hdr (allocsize s) true false) ∧
    mem s3 !! heapStart s = mem s !! heapStart s ∧
    mem s3 !! (heapStart s + allocsize s) = Some 1 ∧
    mem s3 !! (heapStart s + allocsize s)
      = mem s !! (heapStart s + allocsize s) ∧
    (ILP32 = sizeof_blockHeader →
     mem s3 !! (heapStart s + allocsize s - 4) = Some (allocsize s) ∧
     mem s3 !! (heapStart s + allocsize s - 4)
       = mem s !! (heapStart s + allocsize s - 4)).
Proof.
  apply (alloc_free_coalesce_round_trip env_4096 initial_state 100 40960
           fresh_4096 100 3 _ 40968 ILP32 3).
  - apply env_4096_ok.
  - reflexivity.
  - vm_compute. reflexivity.
  - vm_compute. reflexivity.
  - unfold NULL. lia.
  - left. reflexivity.
  - lia.
Defined.

(** ** myInit: failures *)

(** C8 as stated fails: when /dev/zero cannot be opened, [myInit] returns
    -1 after it has stored the padded size in [allocsize]. *)
Lemma myInit_failure_changes_allocsize :
  ∃ s', myInit env_open_fails initial_state 100 = Some (s', -1) ∧
        allocsize initial_state = 0 ∧ allocsize s' = 4096.
Proof. eexists. split; [vm_compute; reflexivity|]. done. Qed.

(** C8, amended. A call of [myInit] that fails returns -1 and leaves
    [heapStart], the flag [allocated_once] and the memory as they were.
    When it fails because it was called before or because the size is not
    positive, [allocsize] is unchanged too; when it fails because /dev/zero
    cannot be opened or [mmap] fails, [allocsize] holds the requested size
    padded to the page size. *)
Theorem myInit_failure_state e s sz :
  getpagesize e ≠ 0 →
  let padsize := irem (isub (getpagesize e) (irem sz (getpagesize e)))
                      (getpagesize e) in
  (allocated_once s ≠ 0 ∨ sz ≤ 0 → myInit e s sz = Some (s, -1)) ∧
  (allocated_once s = 0 → 0 < sz →
   open_dev_zero e = -1 ∨ mmap e (iadd sz padsize) = None →
   myInit e s sz =
     Some (State (heapStart s) (iadd sz padsize) (allocated_once s) (mem s),
           -1)) ∧
  (∀ s', myInit e s sz = Some (s', -1) →
         heapStart s' = heapStart s ∧ allocated_once s' = allocated_once s ∧
         mem s' = mem s ∧
         (s' = s ∨ allocsize s' = iadd sz padsize)).
Proof.
  intros Hps padsize. unfold myInit. cbv zeta. fold padsize.
  simpl allocsize. simpl heapStart. simpl mem. simpl allocated_once.
  destruct (Z.eqb_spec (-1) (open_dev_zero e)) as [Hfd|Hfd];
    destruct (Z.eqb_spec 0 (allocated_once s)) as [Ho|Ho]; cbn [negb];
    try (split; [done|]; split; [intros; congruence|];
         intros s' [= <-]; by auto);
    (destruct (Z.leb_spec sz 0) as [Hs|Hs];
     [split; [done|]; split; [intros; lia|]; intros s' [= <-]; by auto|]);
    (destruct (Z.eqb_spec (getpagesize e) 0) as [?|_]; [done|]);
    (split; [intros [?|?]; [congruence|lia]|]).
  - split; [done|]. intros s' [= <-]. simpl. auto.
  - destruct (mmap e (iadd sz padsize)) as [p|] eqn:Hm.
    + split; [intros _ _ [?|?]; congruence|].
      intros s' Hi. exfalso.
      repeat match type of Hi with
             | Some (_, _) = Some (_, _) => injection Hi as _ ?; done
             | (?o ≫= _) = _ => destruct o; simpl in Hi; try done
             end.
    + split; [intros _ _ _; by rewrite <- Ho|].
      intros s' [= <-]. simpl. auto.
Qed.

Lemma myInit_failure_state_witness :
  let e := env_open_fails in
  let s := initial_state in
  let padsize := irem (isub (getpagesize e) (irem 100 (getpagesize e)))
                      (getpagesize e) in
  (allocated_once s ≠ 0 ∨ 100 ≤ 0 → myInit e s 100 = Some (s, -1)) ∧
  (allocated_once s = 0 → 0 < 100 →
   open_dev_zero e = -1 ∨ mmap e (iadd 100 padsize) = None →
   myInit e s 100 =
     Some (State (heapStart s) (iadd 100 padsize) (allocated_once s) (mem s),
           -1)) ∧
  (∀ s', myInit e s 100 = Some (s', -1) →
         heapStart s' = heapStart s ∧ allocated_once s' = allocated_once s ∧
         mem s' = mem s ∧
         (s' = s ∨ allocsize s' = iadd 100 padsize)).
Proof.
  apply (myInit_failure_state env_open_fails initial_state 100).
  simpl. lia.
Defined.

(** ** Conservation along runs of the operations *)

(** The addresses of the allocated payloads. *)
Lemma alloc_ptrs_app a l1 l2 :
  alloc_ptrs a (l1 ++ l2) = alloc_ptrs a l1 ∪ alloc_ptrs (a + total l1) l2.
Proof.
  revert a. induction l1 as [|b l1 IH]; intros a; simpl.
  - rewrite Z.add_0_r. set_solver.
  - rewrite IH, Z.add_assoc. set_solver.
Qed.

Lemma alloc_ptrs_range a bs x :
  Forall (λ b, 8 ≤ bsize b ∧ bsize b mod 8 = 0) bs →
  x ∈ alloc_ptrs a bs → a + 4 ≤ x ∧ x + 4 ≤ a + total bs.
Proof.
  intros HF. revert a.
  induction HF as [|b bs [H8 _] HF IH]; intros a Hx; simpl in Hx;
    [set_solver|].
  pose proof (sizes_total _ HF) as [? _]. simpl.
  apply elem_of_union in Hx as [Hx|Hx].
  - destruct (balloc b); [|set_solver].
    apply elem_of_singleton in Hx. unfold sizeof_blockHeader in Hx. lia.
  - apply IH in Hx. lia.
Qed.

Lemma alloc_ptrs_elem a bs x :
  x ∈ alloc_ptrs a bs →
  ∃ i b, bs !! i = Some b ∧ balloc b = true ∧
         x = a + total (take i bs) + sizeof_blockHeader.
Proof.
  revert a. induction bs as [|b0 bs IH]; intros a Hx; simpl in Hx;
    [set_solver|].
  apply elem_of_union in Hx as [Hx|Hx].
  - destruct (balloc b0) eqn:Hb; [|set_solver].
    apply elem_of_singleton in Hx. exists 0%nat, b0. simpl.
    split; [done|]. split; [done|]. lia.
  - apply IH in Hx as (i & b & Hi & Hb & ->).
    exists (S i), b. simpl. split; [done|]. split; [done|]. lia.
Qed.

Lemma alloc_ptrs_merge_free a bs :
  alloc_ptrs a (merge_free bs) = alloc_ptrs a bs.
Proof.
  revert a. induction bs as [|b bs IH]; intros a; [done|].
  rewrite merge_free_cons. simpl.
  destruct (balloc b) eqn:Hb; simpl; [by rewrite Hb, IH|].
  specialize (IH (a + bsize b)).
  destruct (merge_free bs) as [|[sz []] r]; simpl in *; rewrite ?Hb;
    rewrite <- IH; try done.
  rewrite Z.add_assoc. set_solver.
Qed.

Lemma alloc_ptrs_middle a (bs : list block) i b :
  bs !! i = Some b →
  alloc_ptrs a bs =
  alloc_ptrs a (take i bs) ∪
  (if balloc b then {[a + total (take i bs) + sizeof_blockHeader]} else ∅) ∪
  alloc_ptrs (a + total (take i bs) + bsize b) (drop (S i) bs).
Proof.
  intros Hi.
  assert (alloc_ptrs a bs = alloc_ptrs a (take i bs ++ b :: drop (S i) bs))
    as -> by (by rewrite take_drop_middle).
  rewrite alloc_ptrs_app. simpl. set_solver.
Qed.

(** A write into an allocated block keeps the block list. *)
Lemma heap_inv_payload_write s bs i b x v :
  heap_inv s bs → bs !! i = Some b → balloc b = true →
  block_addr s bs i + sizeof_blockHeader ≤ x < block_addr s bs i + bsize b →
  heap_inv (set_mem s (<[x := v]> (mem s))) bs.
Proof.
  intros H Hi Hb Hx.
  pose proof (heap_inv_block _ _ _ _ H Hi)
    as (Hb8 & Hbm & Hp0 & Hpm & Hd0 & Hdm & Has & Hpre & Hh & _ & Hpost).
  unfold block_addr, sizeof_blockHeader in *.
  eapply heap_inv_update; [done|intros; by apply insert_is_Some| |
                           apply (inv_total _ _ H)|].
  - rewrite <- (take_drop_middle bs i b Hi). apply blocks_at_middle.
    split; [|split].
    + eapply blocks_at_frame; [|done]. intros y ?.
      apply lookup_insert_ne. lia.
    + repeat split; try done.
      * lia.
      * rewrite lookup_insert_ne by lia. done.
      * intros ?. congruence.
    + eapply blocks_at_frame; [|done]. intros y ?.
      apply lookup_insert_ne. lia.
  - rewrite lookup_insert_ne by lia. apply (inv_end _ _ H).
Qed.

Lemma reachable_inv e sz mp s live :
  env_ok e sz mp → reachable e sz s live → run_inv e sz mp s live.
Proof.
  intros He Hr.
  induction Hr as [s0 s H0 Hinit
                  |s live fuel n s' p Hr IH Ha
                  |s live ptr s' r Hr IH Hf Hlive
                  |s live fuel s' r Hr IH Hc
                  |s live p h x v m' Hr IH Hp Hh Hx Hst].
  - destruct (myInit_ok e s0 sz mp He H0) as (s1 & Hi1 & H & Hhs & Has & _).
    rewrite Hinit in Hi1. injection Hi1 as <-.
    exists [Block (usable e sz) false]. split; [done|].
    split; [simpl; set_solver|]. done.
  - destruct IH as (bs & H & -> & Hhs & Has).
    apply (myAlloc_mono _ (fuel `max` S (length bs))) in Ha; [|lia].
    destruct (myAlloc_total s bs n (fuel `max` S (length bs)) H ltac:(lia))
      as (s1 & p1 & Ha1 & Hcase).
    rewrite Ha in Ha1. injection Ha1 as <- <-.
    destruct Hcase as [(-> & -> & _)
                      |(Hn & i & Hbf & -> & H1 & Hhs1 & Has1 & _)].
    { rewrite decide_True by done. exists bs. done. }
    destruct (Hbf) as (b & Hi & Hfree & _).
    pose proof (payload_addr_range s bs i b H Hi) as [_ Hrange].
    pose proof (inv_start _ _ H).
    rewrite decide_False by (unfold NULL; lia).
    exists (place bs i (needed n)).
    split; [done|]. split; [|split; congruence].
    rewrite Hhs1. unfold place. rewrite Hi.
    rewrite (alloc_ptrs_middle (heapStart s) bs i b Hi), Hfree.
    rewrite !alloc_ptrs_app.
    unfold payload_addr, block_addr.
    destruct (Z.eqb_spec (bsize b) (needed n)) as [Heq|Hneq]; simpl;
      rewrite ?Z.add_0_r, ?Z.add_assoc.
    + rewrite Heq. set_solver.
    + replace (heapStart s + total (take i bs) + needed n +
               (bsize b - needed n))
        with (heapStart s + total (take i bs) + bsize b) by lia.
      set_solver.
  - destruct IH as (bs & H & -> & Hhs & Has).
    destruct (decide (r = -1)) as [->|Hne].
    { apply myFree_failure_unchanged in Hf as ->. exists bs. done. }
    destruct Hlive as [?|Hlive]; [done|].
    apply alloc_ptrs_elem in Hlive as (i & b & Hi & Hb & Hptr).
    destruct (myFree_block s bs i b H Hi Hb)
      as (s1 & Hf1 & H1 & Hhs1 & Has1 & _).
    unfold payload_addr, block_addr in Hf1. rewrite <- Hptr in Hf1.
    rewrite Hf in Hf1. injection Hf1 as <- _.
    exists (release bs i). split; [done|]. split; [|split; congruence].
    rewrite Hhs1. unfold release. rewrite Hi.
    rewrite (alloc_ptrs_middle (heapStart s) bs i b Hi), Hb.
    rewrite !alloc_ptrs_app. simpl. rewrite <- Hptr.
    pose proof (blocks_at_sizes _ _ _ _ (inv_blocks _ _ H)) as HF.
    pose proof (sizes_lookup _ _ _ HF Hi) as (? & _).
    pose proof (alloc_ptrs_range (heapStart s) (take i bs) ptr
                  (Forall_take _ i _ HF)) as Hpre.
    pose proof (alloc_ptrs_range (heapStart s + total (take i bs) + bsize b)
                  (drop (S i) bs) ptr (Forall_drop _ (S i) _ HF)) as Hpost.
    unfold sizeof_blockHeader in *.
    assert (ptr ∉ alloc_ptrs (heapStart s) (take i bs)) as Hn1.
    { intros Hin. apply Hpre in Hin. lia. }
    assert (ptr ∉ alloc_ptrs (heapStart s + total (take i bs) + bsize b)
                (drop (S i) bs)) as Hn2.
    { intros Hin. apply Hpost in Hin. lia. }
    set_solver.
  - destruct IH as (bs & H & -> & Hhs & Has).
    apply (coalesce_mono _ _ (fuel `max` S (length bs))) in Hc; [|lia].
    destruct (coalesce_inv s bs (fuel `max` S (length bs)) H ltac:(lia))
      as (s1 & Hc1 & H1 & Hhs1 & Has1 & _).
    rewrite Hc in Hc1. injection Hc1 as <- _.
    exists (merge_free bs). split; [done|].
    rewrite alloc_ptrs_merge_free, Hhs1. split; [done|split; congruence].
  - destruct IH as (bs & H & -> & Hhs & Has).
    apply alloc_ptrs_elem in Hp as (i & b & Hi & Hb & Hptr).
    pose proof (heap_inv_block _ _ _ _ H Hi)
      as (Hb8 & Hbm & _ & _ & _ & _ & _ & _ & Hh' & _).
    unfold block_addr in Hh'.
    replace (p - sizeof_blockHeader)
      with (heapStart s + total (take i bs)) in Hh, Hx by lia.
    rewrite Hh' in Hh. injection Hh as <-.
    rewrite hdr_size_of in Hx by done.
    apply store_inv in Hst as ->.
    exists bs. split; [|done].
    apply (heap_inv_payload_write s bs i b); try done.
    unfold block_addr. lia.
Qed.

(** C9. After a successful [myInit] and after every later call of
    [myAlloc], [myFree] (on an address obtained from [myAlloc] and not yet
    freed, or failing) and [coalesce], whatever the caller writes into the
    blocks it holds, the walk over the headers from [heapStart] (the one
    [dispMem] makes) ends at the end mark and the sizes it meets add up to
    the usable size fixed by [myInit]: the padded size less 8; [heapStart]
    and [allocsize] are those [myInit] set. *)
Theorem block_sizes_conserved e sz mp s live fuel :
  env_ok e sz mp → reachable e sz s live →
  (Z.to_nat (allocsize s / 8) < fuel)%nat →
  heapStart s = mp + sizeof_blockHeader ∧
  allocsize s = usable e sz ∧
  mem s !! (heapStart s + allocsize s) = Some 1 ∧
  ∃ rows used_size free_size,
    dispMem fuel s = Some (rows, used_size, free_size) ∧
    sum_sizes rows + 0 = allocsize s ∧
    used_size + free_size = allocsize s.
Proof.
  intros He Hr Hfuel.
  destruct (reachable_inv e sz mp s live He Hr) as (bs & H & _ & Hhs & Has).
  split; [done|]. split; [done|]. split; [apply (inv_end _ _ H)|].
  pose proof (inv_total _ _ H) as Ht. pose proof (inv_range _ _ H) as Hrg.
  pose proof (sizes_total _ (blocks_at_sizes _ _ _ _ (inv_blocks _ _ H)))
    as [Hlen _].
  destruct (dispMem_loop_spec fuel bs (mem s) (heapStart s) true 0 0)
    as (rows & u & f & Hd & Hsz & _ & Hu & Hf & Hsum).
  - apply (inv_blocks _ _ H).
  - rewrite Ht. apply (inv_end _ _ H).
  - done.
  - done.
  - lia.
  - zlia.
  - exists rows, u, f. split; [done|]. split; [|lia].
    rewrite Z.add_0_r, <- Ht. unfold sum_sizes, total.
    clear -Hsz. revert rows Hsz.
    induction bs as [|b bs IH]; intros [|r rows] Hsz; try done.
    simpl in *. injection Hsz as -> Hsz. f_equal. by apply IH.
Qed.

Lemma block_sizes_conserved_witness :
  let s0 := state_after (myInit env_4096 initial_state 100) initial_state in
  let s := state_after (myAlloc 3 s0 100) s0 in
  heapStart s = 40960 + sizeof_blockHeader ∧
  allocsize s = usable env_4096 100 ∧
  mem s !! (heapStart s + allocsize s) = Some 1 ∧
  ∃ rows used_size free_size,
    dispMem 600 s = Some (rows, used_size, free_size) ∧
    sum_sizes rows + 0 = allocsize s ∧
    used_size + free_size = allocsize s.
Proof.
  apply (block_sizes_conserved env_4096 100 40960 _
           (if decide (40968 = NULL) then ∅ else {[40968]} ∪ ∅) 600).
  - apply env_4096_ok.
  - apply (reach_alloc env_4096 100
             (state_after (myInit env_4096 initial_state 100) initial_state)
             ∅ 3 100 _ 40968).
    + apply (reach_init env_4096 100 initial_state);
        [reflexivity|vm_compute; reflexivity].
    + vm_compute. reflexivity.
  - apply Nat.ltb_lt. vm_compute. reflexivity.
Defined.

(** * Examples

    The scenarios of the specification, run on the code. *)

(** Free blocks of 40, 24 and 64 bytes, request needing 24: the 24-byte
    block is taken whole. *)
Example best_fit_40_24_64 :
  snd <$> myAlloc 6 heap_40_24_64 20 = Some 4160 ∧
  block_view 6 (state_after (myAlloc 6 heap_40_24_64 20) heap_40_24_64)
  = Some [(40, false); (16, true); (24, true); (16, true); (64, false)].
Proof. split; vm_compute; reflexivity. Qed.

(** One free block of 64 bytes, request needing 24: an allocated block of 24
    and a free block of 40. *)
Example split_64 :
  block_view 3 (state_after (myAlloc 3 heap_64 20) heap_64)
  = Some [(24, true); (40, false)].
Proof. vm_compute. reflexivity. Qed.

(** Free blocks of 16, 24 and 8 bytes: one free block of 48 bytes, whose
    last word holds 48. *)
Example coalesce_16_24_8 :
  let s' := state_after (coalesce ILP32 5 heap_16_24_8) heap_16_24_8 in
  block_view 5 s' = Some [(48, false); (16, true)] ∧
  mem s' !! (heapStart s' + 48 - 4) = Some 48.
Proof. split; vm_compute; reflexivity. Qed.

(** With 8-byte pointers line 306 reaches the word before the footer: the
    header is merged but the last word of the merged block keeps the size of
    the last block of the run. *)
Example coalesce_16_24_8_lp64 :
  let s' := state_after (coalesce LP64 5 heap_16_24_8) heap_16_24_8 in
  block_view 5 s' = Some [(48, false); (16, true)] ∧
  mem s' !! (heapStart s' + 48 - 4) = Some 8.
Proof. split; vm_compute; reflexivity. Qed.

(** Freeing an address twice: the second call fails and changes nothing. *)
Example double_free_rejected :
  let s1 := state_after (myAlloc 3 heap_64 20) heap_64 in
  let s2 := state_after (myFree s1 4104) s1 in
  myFree s1 4104 = Some (s2, 0) ∧ myFree s2 4104 = Some (s2, -1).
Proof. split; vm_compute; reflexivity. Qed.

(** After the round trip the words inside the block are not those of the
    fresh heap: the header written for the split-off block stays behind. *)
Example round_trip_inner_word :
  let s := heap_64 in
  let s1 := state_after (myAlloc 3 s 20) s in
  let s2 := state_after (myFree s1 4104) s1 in
  let s3 := state_after (coalesce ILP32 3 s2) s2 in
  block_view 3 s3 = block_view 3 s ∧
  mem s !! 4124 = Some 0 ∧ mem s3 !! 4124 = Some 40.
Proof. repeat split; vm_compute; reflexivity. Qed.

(** With 8-byte pointers the round trip restores the header and what
    [dispMem] shows, while the last word of the region keeps the size of the
    split-off block. *)
Example round_trip_lp64 :
  let s := fresh_4096 in
  let s1 := state_after (myAlloc 3 s 100) s in
  let s2 := state_after (myFree s1 40968) s1 in
  let s3 := state_after (coalesce LP64 3 s2) s2 in
  block_view 3 s3 = block_view 3 s ∧
  mem s3 !! heapStart s = mem s !! heapStart s ∧
  mem s !! (heapStart s + allocsize s - 4) = Some 4088 ∧
  mem s3 !! (heapStart s + allocsize s - 4) = Some 3984.
Proof. repeat split; vm_compute; reflexivity. Qed.

(** After a failed [myInit], [allocsize] lets a request through to the walk
    from the NULL [heapStart]. *)
Example alloc_after_failed_init :
  let s := state_after (myInit env_open_fails initial_state 100) initial_state in
  myAlloc 3 initial_state 8 = Some (initial_state, NULL) ∧
  myAlloc 3 s 8 = None.
Proof. split; vm_compute; reflexivity. Qed.


(** * Further properties of the code *)

(** ** myAlloc *)

(** X1. [myAlloc] returns NULL exactly when the request is not positive or
    no free block has the needed size (adjacent free blocks are not added
    up), and a call that returns NULL leaves the state as it was. *)
Theorem myAlloc_null_iff_no_fit s bs n fuel :
  heap_inv s bs → (length bs < fuel)%nat →
  ∃ s' p, myAlloc fuel s n = Some (s', p) ∧
          (p = NULL ↔ n ≤ 0 ∨ no_fit bs (needed n)) ∧
          (p = NULL → s' = s).
Proof.
  intros H Hfuel.
  destruct (myAlloc_total s bs n fuel H Hfuel) as (s' & p & Ha & Hcase).
  exists s', p. split; [done|].
  destruct Hcase as [(-> & -> & Hno)|(Hn & i & Hbf & -> & _)].
  - split; [|done]. split; done.
  - destruct (Hbf) as (b & Hi & Hf & Hs & _).
    pose proof (payload_addr_range s bs i b H Hi) as [_ Hr].
    pose proof (inv_start _ _ H).
    assert (payload_addr s bs i ≠ NULL) as Hp by (unfold NULL; lia).
    split; [|done]. split; [done|].
    intros [?|Hnf]; [lia|]. specialize (Hnf i b Hi Hf). lia.
Qed.

Lemma myAlloc_null_iff_no_fit_witness :
  ∃ s' p, myAlloc 6 heap_40_24_64 100 = Some (s', p) ∧
          (p = NULL ↔ 100 ≤ 0 ∨ no_fit blocks_40_24_64 (needed 100)) ∧
          (p = NULL → s' = heap_40_24_64).
Proof.
  apply (myAlloc_null_iff_no_fit heap_40_24_64 blocks_40_24_64 100 6).
  - apply check_heap_sound. vm_compute. reflexivity.
  - unfold blocks_40_24_64. simpl. lia.
Defined.

(** X2. When the best-fit block has exactly the needed size, [myAlloc]
    takes it whole: its header gets alloc-bit 1 and keeps its size and
    prev-alloc-bit, no block is added to the list, the header of the block
    that follows gets prev-alloc-bit 1 and keeps its size and alloc-bit,
    and when the end mark follows it stays 1. *)
Theorem myAlloc_exact_fit s bs n i b fuel :
  heap_inv s bs → 0 < n → (length bs < fuel)%nat →
  is_best_fit bs (needed n) i → bs !! i = Some b → bsize b = needed n →
  let A := block_addr s bs i in
  ∃ s' h0 h,
    myAlloc fuel s n = Some (s', A + sizeof_blockHeader) ∧
    mem s !! A = Some h0 ∧ mem s' !! A = Some h ∧
    size_of h = bsize b ∧ alloc_bit h = true ∧
    prev_alloc_bit h = prev_alloc_bit h0 ∧
    heap_inv s' (take i bs ++ Block (bsize b) true :: drop (S i) bs) ∧
    (∀ b2, bs !! S i = Some b2 →
           ∃ hn, mem s' !! (A + bsize b) = Some hn ∧
                 prev_alloc_bit hn = true ∧ size_of hn = bsize b2 ∧
                 alloc_bit hn = balloc b2) ∧
    (bs !! S i = None → mem s' !! (A + bsize b) = Some 1).
Proof.
  intros H Hn Hfuel Hbf Hi Heq A.
  pose proof (best_fit_size _ _ _ _ _ H Hn Hbf Hi) as (Hr & Hm & Hna & _ & Hf).
  pose proof (heap_inv_block _ _ _ _ H Hi)
    as (Hb8 & Hbm & _ & _ & _ & _ & Has & _ & Hh0 & _).
  destruct (myAlloc_fit s bs n i fuel H Hn Hbf Hfuel)
    as (s' & Ha & H' & Hhs & Has' & _).
  unfold place in H'. rewrite Hi in H'.
  destruct (Z.eqb_spec (bsize b) (needed n)) as [_|?]; [|done].
  rewrite <- Heq in H'. simpl in H'.
  pose proof (inv_blocks _ _ H') as Hb.
  apply blocks_at_middle in Hb as (_ & (_ & _ & Hh & _) & Hrest).
  simpl in Hh, Hrest. rewrite Hhs in Hh, Hrest.
  fold (block_addr s bs i) in Hh, Hrest. fold A in Hh, Hrest, Hh0.
  rewrite Hf in Hh0.
  eexists s', _, _.
  split; [exact Ha|]. split; [exact Hh0|]. split; [exact Hh|].
  rewrite !hdr_size_of, !hdr_alloc_bit, !hdr_prev_alloc_bit by done.
  repeat (split; [done|]). split.
  - intros b2 H2. rewrite (drop_S bs b2 (S i) H2) in Hrest.
    simpl in Hrest. destruct Hrest as (H28 & H2m & H2h & _).
    pose proof (heap_inv_block _ _ _ _ H H2) as (H2r & _).
    eexists. split; [exact H2h|].
    rewrite hdr_size_of, hdr_alloc_bit, hdr_prev_alloc_bit by done. done.
  - intros Hnone.
    assert (drop (S i) bs = []) as Hd.
    { apply drop_ge. by apply lookup_ge_None. }
    rewrite Hd in Has. simpl in Has.
    pose proof (inv_end _ _ H') as He. rewrite Hhs, Has' in He.
    replace (A + bsize b) with (heapStart s + allocsize s);
      [done|unfold A, block_addr; lia].
Qed.

Lemma myAlloc_exact_fit_witness :
  let A := block_addr heap_40_24_64 blocks_40_24_64 2 in
  ∃ s' h0 h,
    myAlloc 6 heap_40_24_64 20 = Some (s', A + sizeof_blockHeader) ∧
    mem heap_40_24_64 !! A = Some h0 ∧ mem s' !! A = Some h ∧
    size_of h = 24 ∧ alloc_bit h = true ∧
    prev_alloc_bit h = prev_alloc_bit h0 ∧
    heap_inv s' (take 2 blocks_40_24_64 ++
                 Block 24 true :: drop 3 blocks_40_24_64) ∧
    (∀ b2, blocks_40_24_64 !! 3%nat = Some b2 →
           ∃ hn, mem s' !! (A + 24) = Some hn ∧
                 prev_alloc_bit hn = true ∧ size_of hn = bsize b2 ∧
                 alloc_bit hn = balloc b2) ∧
    (blocks_40_24_64 !! 3%nat = None → mem s' !! (A + 24) = Some 1).
Proof.
  apply (myAlloc_exact_fit heap_40_24_64 blocks_40_24_64 20 2
           (Block 24 false) 6).
  - apply check_heap_sound. vm_compute. reflexivity.
  - lia.
  - simpl. lia.
  - apply best_fit_check_sound. vm_compute. reflexivity.
  - reflexivity.
  - vm_compute. reflexivity.
Defined.

(** The words [myAlloc] writes lie between the header of the block it
    chooses and the header of the block that follows. *)
Lemma myAlloc_writes_in_block s bs n i b fuel s' p :
  heap_inv s bs → 0 < n → (length bs < fuel)%nat →
  is_best_fit bs (needed n) i → bs !! i = Some b →
  myAlloc fuel s n = Some (s', p) →
  ∀ x, x < block_addr s bs i ∨ block_addr s bs i + bsize b < x →
       mem s' !! x = mem s !! x.
Proof.
  intros H Hn Hfuel Hbf Hi Ha x Hx.
  pose proof (best_fit_size _ _ _ _ _ H Hn Hbf Hi) as (Hr & Hm & Hna & Hle & Hf).
  pose proof (heap_inv_block _ _ _ _ H Hi) as (Hb8 & _).
  pose proof (inv_range _ _ H) as Hrg.
  unfold block_addr in Hx. unfold myAlloc in Ha.
  destruct (Z.leb_spec n 0); [lia|].
  destruct (Z.gtb_spec n (allocsize s)); [lia|]. simpl in Ha.
  rewrite block_size_for_needed in Ha by lia.
  destruct (myAlloc_scan_result s bs n fuel H Hfuel) as (acc & Hs & Hinv).
  rewrite Hs in Ha. simpl in Ha. destruct acc as [[flag best] bsz].
  simpl in Hinv.
  destruct Hinv as [[-> Hnf]|[-> (i' & b' & Hbf' & Hi' & -> & ->)]].
  { specialize (Hnf i b Hi Hf). lia. }
  assert (i' = i) as -> by (eapply best_fit_unique; done).
  assert (b' = b) as -> by congruence.
  simpl in Ha. unfold sizeof_blockHeader in Ha.
  repeat match type of Ha with
         | (if ?c then _ else _) = _ => destruct c
         | (load ?m ?a ≫= _) = _ => destruct (load m a); simpl in Ha; [|done]
         | (store ?m ?a ?v ≫= _) = _ =>
           let E := fresh "E" in
           destruct (store m a v) eqn:E; simpl in Ha; [|done];
           apply store_inv in E; subst
         | ((if ?c then _ else _) ≫= _) = _ => destruct c
         | (Some _ ≫= _) = _ => simpl in Ha
         end;
    injection Ha as <- _; simpl; rewrite ?lookup_insert_ne by lia; done.
Qed.

Lemma block_addr_order (bs : list block) :
  Forall (λ b, 8 ≤ bsize b ∧ bsize b mod 8 = 0) bs →
  ∀ i j bi, (i < j)%nat → (j ≤ length bs)%nat → bs !! i = Some bi →
            total (take i bs) + bsize bi ≤ total (take j bs).
Proof.
  induction 1 as [|b bs [H8 _] HF IH]; intros i j bi Hij Hj Hi; [done|].
  destruct j as [|j]; [lia|]. simpl in Hj. destruct i as [|i]; simpl in *.
  - injection Hi as ->.
    pose proof (sizes_total _ (Forall_take _ j _ HF)) as [? _]. lia.
  - specialize (IH i j bi ltac:(lia) ltac:(lia) Hi). lia.
Qed.

(** X3. A successful [myAlloc] writes only between the header of the block
    it chooses and the header of the block that follows: every word of
    every allocated block after its own header is the same after the call. *)
Theorem myAlloc_keeps_allocated_payloads s bs n fuel s' p :
  heap_inv s bs → (length bs < fuel)%nat →
  myAlloc fuel s n = Some (s', p) →
  ∀ j bj, bs !! j = Some bj → balloc bj = true →
          ∀ x, block_addr s bs j + sizeof_blockHeader ≤ x
               < block_addr s bs j + bsize bj →
               mem s' !! x = mem s !! x.
Proof.
  intros H Hfuel Ha j bj Hj Hbj x Hx.
  destruct (myAlloc_total s bs n fuel H Hfuel) as (s1 & p1 & Ha1 & Hcase).
  rewrite Ha in Ha1. injection Ha1 as <- <-.
  destruct Hcase as [(_ & -> & _)|(Hn & i & Hbf & _)]; [done|].
  destruct (Hbf) as (b & Hi & Hf & _).
  apply (myAlloc_writes_in_block s bs n i b fuel s' p); try done.
  pose proof (blocks_at_sizes _ _ _ _ (inv_blocks _ _ H)) as HF.
  pose proof (lookup_lt_Some _ _ _ Hi). pose proof (lookup_lt_Some _ _ _ Hj).
  unfold block_addr, sizeof_blockHeader in *.
  destruct (Nat.lt_trichotomy i j) as [Hlt|[->|Hlt]].
  - right. pose proof (block_addr_order bs HF i j b Hlt ltac:(lia) Hi). lia.
  - congruence.
  - left. pose proof (block_addr_order bs HF j i bj Hlt ltac:(lia) Hj). lia.
Qed.

Lemma myAlloc_keeps_allocated_payloads_witness :
  mem (state_after (myAlloc 6 heap_40_24_64 20) heap_40_24_64) !! 4144
  = mem heap_40_24_64 !! 4144.
Proof.
  apply (myAlloc_keeps_allocated_payloads heap_40_24_64 blocks_40_24_64 20 6
           (state_after (myAlloc 6 heap_40_24_64 20) heap_40_24_64) 4160)
    with (j := 1%nat) (bj := Block 16 true).
  - apply check_heap_sound. vm_compute. reflexivity.
  - unfold blocks_40_24_64. simpl. lia.
  - vm_compute. reflexivity.
  - reflexivity.
  - reflexivity.
  - vm_compute. split; [discriminate|reflexivity].
Defined.

Lemma reachable_fresh_4096_alloc :
  reachable env_4096 100 fresh_4096_alloc live_40968.
Proof.
  apply (reach_alloc env_4096 100 fresh_4096 ∅ 3 100 _ 40968).
  - apply (reach_init env_4096 100 initial_state);
      [reflexivity|vm_compute; reflexivity].
  - vm_compute. reflexivity.
Qed.

Lemma reachable_fresh_4096_alloc2 :
  reachable env_4096 100 fresh_4096_alloc2 live_41072_40968.
Proof.
  apply (reach_alloc env_4096 100 fresh_4096_alloc live_40968 3 50 _ 41072).
  - apply reachable_fresh_4096_alloc.
  - vm_compute. reflexivity.
Qed.

Lemma reachable_fresh_4096_freed :
  reachable env_4096 100 fresh_4096_freed live_freed.
Proof.
  apply (reach_free env_4096 100 fresh_4096_alloc live_40968 40968 _ 0).
  - apply reachable_fresh_4096_alloc.
  - vm_compute. reflexivity.
  - right. vm_compute. set_solver.
Qed.

(** X4. The block a successful [myAlloc n] places is new to the caller: the
    address returned is not one of the live addresses, the block has room
    for the [n] bytes after its header, and it overlaps no block the caller
    still holds. *)
Theorem myAlloc_block_is_fresh e sz mp s live fuel n s' p :
  env_ok e sz mp → reachable e sz s live →
  myAlloc fuel s n = Some (s', p) → p ≠ NULL →
  (p ∉ live) ∧
  (∃ h, mem s' !! (p - sizeof_blockHeader) = Some h ∧
        size_of h = needed n ∧ n ≤ needed n - sizeof_blockHeader) ∧
  ∀ q, q ∈ live →
       ∃ hq, mem s !! (q - sizeof_blockHeader) = Some hq ∧
             (p - sizeof_blockHeader + needed n ≤ q - sizeof_blockHeader ∨
              q - sizeof_blockHeader + size_of hq ≤ p - sizeof_blockHeader).
Proof.
  intros He Hr Ha Hp.
  destruct (reachable_inv e sz mp s live He Hr) as (bs & H & -> & _).
  apply (myAlloc_mono _ (fuel `max` (S (length bs)))) in Ha; [|lia].
  destruct (myAlloc_total s bs n (fuel `max` (S (length bs))) H ltac:(lia))
    as (s1 & p1 & Ha1 & Hcase).
  rewrite Ha in Ha1. injection Ha1 as <- <-.
  destruct Hcase as [(? & _)|(Hn & i & Hbf & -> & H' & Hhs & _)]; [done|].
  destruct (Hbf) as (b & Hi & Hf & _).
  pose proof (best_fit_size _ _ _ _ _ H Hn Hbf Hi) as (Hnr & Hnm & _ & Hle & _).
  pose proof (needed_spec n) as [Hn1 _].
  pose proof (blocks_at_sizes _ _ _ _ (inv_blocks _ _ H)) as HF.
  pose proof (lookup_lt_Some _ _ _ Hi) as Hilen.
  assert (∀ q, q ∈ alloc_ptrs (heapStart s) bs →
            ∃ hq, mem s !! (q - sizeof_blockHeader) = Some hq ∧ 8 ≤ size_of hq ∧
              (payload_addr s bs i - sizeof_blockHeader + needed n
               ≤ q - sizeof_blockHeader ∨
               q - sizeof_blockHeader + size_of hq
               ≤ payload_addr s bs i - sizeof_blockHeader)) as Hlive.
  { intros q Hq. apply alloc_ptrs_elem in Hq as (j & bj & Hj & Hbj & ->).
    pose proof (heap_inv_block _ _ _ _ H Hj) as (Hj8 & Hjm & _ & _ & _ & _ & _ & _ & Hhj & _).
    pose proof (lookup_lt_Some _ _ _ Hj) as Hjlen.
    unfold block_addr in Hhj. unfold payload_addr, block_addr.
    eexists. split.
    { replace (heapStart s + total (take j bs) + sizeof_blockHeader
               - sizeof_blockHeader)
        with (heapStart s + total (take j bs)) by lia. exact Hhj. }
    rewrite hdr_size_of by done. split; [lia|].
    destruct (Nat.lt_trichotomy i j) as [Hlt|[->|Hlt]].
    - left. pose proof (block_addr_order bs HF i j b Hlt ltac:(lia) Hi). lia.
    - congruence.
    - right. pose proof (block_addr_order bs HF j i bj Hlt ltac:(lia) Hj). lia. }
  split; [|split].
  - intros Hin. destruct (Hlive _ Hin) as (hq & _ & ? & [?|?]); lia.
  - destruct (place_shape bs i b (needed n) Hi) as (rest & Hshape).
    pose proof (inv_blocks _ _ H') as Hb. rewrite Hshape in Hb.
    apply blocks_at_middle in Hb as (_ & (_ & _ & Hh & _) & _).
    simpl in Hh. rewrite Hhs in Hh. unfold payload_addr, block_addr.
    eexists. split.
    { replace (heapStart s + total (take i bs) + sizeof_blockHeader
               - sizeof_blockHeader)
        with (heapStart s + total (take i bs)) by lia. exact Hh. }
    rewrite hdr_size_of by done. unfold sizeof_blockHeader. split; [done|lia].
  - intros q Hq. destruct (Hlive q Hq) as (hq & ? & _ & ?). eauto.
Qed.

Lemma myAlloc_block_is_fresh_witness :
  let s := fresh_4096_alloc in
  let s' := state_after (myAlloc 3 s 50) s in
  (41072 ∉ live_40968) ∧
  (∃ h, mem s' !! (41072 - sizeof_blockHeader) = Some h ∧
        size_of h = needed 50 ∧ 50 ≤ needed 50 - sizeof_blockHeader) ∧
  ∀ q, q ∈ live_40968 →
       ∃ hq, mem s !! (q - sizeof_blockHeader) = Some hq ∧
             (41072 - sizeof_blockHeader + needed 50 ≤ q - sizeof_blockHeader ∨
              q - sizeof_blockHeader + size_of hq ≤ 41072 - sizeof_blockHeader).
Proof.
  apply (myAlloc_block_is_fresh env_4096 100 40960 fresh_4096_alloc
           live_40968 3 50).
  - apply env_4096_ok.
  - apply reachable_fresh_4096_alloc.
  - vm_compute. reflexivity.
  - unfold NULL. lia.
Defined.

(** ** myFree twice, and myAlloc after myFree *)

Lemma middle_lookup (bs : list block) i b c rest :
  bs !! i = Some b →
  (take i bs ++ c :: rest) !! i = Some c ∧
  take i (take i bs ++ c :: rest) = take i bs ∧
  drop (S i) (take i bs ++ c :: rest) = rest.
Proof.
  intros Hi. pose proof (lookup_lt_Some _ _ _ Hi) as Hlen.
  assert (length (take i bs) = i) as Hl by (rewrite length_take; lia).
  split; [|split].
  - rewrite lookup_app_r by lia. rewrite Hl, Nat.sub_diag. done.
  - rewrite take_app_le by lia. rewrite take_take. f_equal. lia.
  - rewrite drop_app_ge by lia. rewrite Hl.
    replace (S i - i)%nat with 1%nat by lia. done.
Qed.

Lemma myFree_free_block s bs i b :
  heap_inv s bs → bs !! i = Some b → balloc b = false →
  myFree s (payload_addr s bs i) = Some (s, -1).
Proof.
  intros H Hi Hfree.
  pose proof (heap_inv_block _ _ _ _ H Hi)
    as (Hb8 & Hbm & Hp0 & Hpm & Hd0 & Hdm & Has & Hpre & Hh & _ & Hpost).
  rewrite Hfree in Hh.
  pose proof (inv_range _ _ H) as Hr.
  pose proof (inv_start _ _ H) as Hst.
  pose proof (inv_align _ _ H) as Hal.
  unfold payload_addr.
  assert (block_addr s bs i = heapStart s + total (take i bs)) as HA by done.
  remember (block_addr s bs i) as A eqn:HAeq. clear HAeq.
  unfold myFree, sizeof_blockHeader, NULL.
  destruct (Z.eqb_spec (A + 4) 0); [lia|].
  assert (irem (wrap (A + 4)) 8 = 0) as ->.
  { unfold irem. pose proof (wrap_mod8 (A + 4)). zlia. }
  simpl.
  destruct (Z.ltb_spec (A + 4) (heapStart s)); [lia|].
  destruct (Z.gtb_spec (A + 4) (heapStart s + allocsize s)); [lia|]. simpl.
  replace (A + 4 - 4) with A by lia.
  unfold load. rewrite Hh. simpl.
  rewrite hdr_rem2 by done. done.
Qed.

(** X5. Freeing an address the caller holds succeeds, and freeing the same
    address once more, with no call in between, is refused with -1 and
    leaves the state as the first call left it. *)
Theorem myFree_twice_rejected e sz mp s live p :
  env_ok e sz mp → reachable e sz s live → p ∈ live →
  ∃ s', myFree s p = Some (s', 0) ∧ myFree s' p = Some (s', -1).
Proof.
  intros He Hr Hp.
  destruct (reachable_inv e sz mp s live He Hr) as (bs & H & -> & _).
  apply alloc_ptrs_elem in Hp as (i & b & Hi & Hb & ->).
  destruct (myFree_block s bs i b H Hi Hb) as (s' & Hf & H' & Hhs & _).
  exists s'. split; [exact Hf|].
  unfold release in H'. rewrite Hi in H'.
  destruct (middle_lookup bs i b (Block (bsize b) false) (drop (S i) bs) Hi)
    as (Hl & Ht & _).
  pose proof (myFree_free_block s' _ i _ H' Hl eq_refl) as Hf2.
  unfold payload_addr, block_addr in Hf2. rewrite Ht, Hhs in Hf2. exact Hf2.
Qed.

Lemma myFree_twice_rejected_witness :
  ∃ s', myFree fresh_4096_alloc 40968 = Some (s', 0) ∧
        myFree s' 40968 = Some (s', -1).
Proof.
  apply (myFree_twice_rejected env_4096 100 40960 fresh_4096_alloc live_40968).
  - apply env_4096_ok.
  - apply reachable_fresh_4096_alloc.
  - vm_compute. set_solver.
Defined.

Lemma best_fit_after_release bs size i b rest :
  is_best_fit bs size i → bs !! i = Some b →
  is_best_fit (take i bs ++ Block size false :: rest) size i.
Proof.
  intros (c & Hc & Hf & Hs & Hmin) Hi.
  destruct (middle_lookup bs i b (Block size false) rest Hi) as (Hl & _ & _).
  exists (Block size false). split; [done|]. split; [done|]. simpl.
  split; [lia|]. intros j b' Hj Hfj Hsj.
  destruct (Nat.lt_ge_cases j i) as [Hlt|Hge]; [|lia].
  pose proof (lookup_lt_Some _ _ _ Hi) as Hlen.
  rewrite lookup_app_l in Hj by (rewrite length_take; lia).
  rewrite lookup_take_lt in Hj by done.
  destruct (Hmin j b' Hj Hfj Hsj) as [?|[_ ?]]; lia.
Qed.

(** X6. An address obtained from [myAlloc n] and freed at once is handed out
    again by the next [myAlloc n]: the freed block is the best fit for the
    same request, whenever the loop is given the steps to reach the end
    mark. *)
Theorem myAlloc_reuses_freed_block e sz mp s live fuel n s1 p s2 r :
  env_ok e sz mp → reachable e sz s live →
  myAlloc fuel s n = Some (s1, p) → p ≠ NULL →
  myFree s1 p = Some (s2, r) →
  r = 0 ∧
  ∃ fuel', ∀ f, (fuel' ≤ f)%nat → ∃ s3, myAlloc f s2 n = Some (s3, p).
Proof.
  intros He Hr Ha Hp Hfr.
  destruct (reachable_inv e sz mp s live He Hr) as (bs & H & _ & _).
  apply (myAlloc_mono _ (fuel `max` (S (length bs)))) in Ha; [|lia].
  destruct (myAlloc_total s bs n (fuel `max` (S (length bs))) H ltac:(lia))
    as (s1' & p1 & Ha1 & Hcase).
  rewrite Ha in Ha1. injection Ha1 as <- <-.
  destruct Hcase as [(? & _)|(Hn & i & Hbf & -> & H1 & Hhs & _)]; [done|].
  destruct (Hbf) as (b & Hi & _).
  destruct (place_shape bs i b (needed n) Hi) as (rest & Hshape).
  rewrite Hshape in H1.
  destruct (middle_lookup bs i b (Block (needed n) true) rest Hi)
    as (Hl1 & Ht1 & Hd1).
  destruct (myFree_block s1 _ i _ H1 Hl1 eq_refl) as (s2' & Hf & H2 & Hhs2 & _).
  unfold payload_addr, block_addr in Hf. rewrite Ht1, Hhs in Hf.
  unfold payload_addr, block_addr in Hfr. rewrite Hfr in Hf.
  injection Hf as <- ->. split; [done|].
  unfold release in H2. rewrite Hl1, Ht1, Hd1 in H2. simpl in H2.
  pose proof (best_fit_after_release bs (needed n) i b rest Hbf Hi) as Hbf2.
  set (bs2 := take i bs ++ Block (needed n) false :: rest) in *.
  exists (S (length bs2)). intros f Hfuel.
  destruct (myAlloc_total s2 bs2 n f H2 ltac:(lia))
    as (s3 & p3 & Ha3 & Hcase).
  exists s3. rewrite Ha3. do 2 f_equal.
  destruct Hcase as [(_ & _ & [?|Hnf])|(_ & i' & Hbf' & -> & _)].
  - lia.
  - destruct Hbf2 as (c & Hc & Hfc & Hsc & _).
    pose proof (Hnf i c Hc Hfc). lia.
  - rewrite (best_fit_unique _ _ _ _ Hbf' Hbf2).
    destruct (middle_lookup bs i b (Block (needed n) false) rest Hi)
      as (_ & Ht2 & _).
    unfold payload_addr, block_addr. fold bs2 in Ht2. rewrite Ht2.
    rewrite Hhs2, Hhs. done.
Qed.

Lemma myAlloc_reuses_freed_block_witness :
  0 = 0 ∧
  ∃ fuel', ∀ f, (fuel' ≤ f)%nat →
    ∃ s3, myAlloc f
            (state_after (myFree (state_after (myAlloc 3 fresh_4096_alloc 50)
                                              fresh_4096_alloc) 41072)
                         fresh_4096_alloc) 50
          = Some (s3, 41072).
Proof.
  apply (myAlloc_reuses_freed_block env_4096 100 40960 fresh_4096_alloc
           live_40968 3 50
           (state_after (myAlloc 3 fresh_4096_alloc 50) fresh_4096_alloc)).
  - apply env_4096_ok.
  - apply reachable_fresh_4096_alloc.
  - vm_compute. reflexivity.
  - unfold NULL. lia.
  - vm_compute. reflexivity.
Defined.

(** ** dispMem *)

Lemma total_of_split bs :
  Forall (λ b, 8 ≤ bsize b ∧ bsize b mod 8 = 0) bs →
  0 ≤ total_of true bs ∧ 0 ≤ total_of false bs ∧
  total_of true bs + total_of false bs = total bs.
Proof.
  induction 1 as [|b bs [H8 _] _ (IH1 & IH2 & IH3)]; simpl; [lia|].
  destruct (balloc b); simpl; lia.
Qed.

Lemma total_of_app al l1 l2 :
  total_of al (l1 ++ l2) = total_of al l1 + total_of al l2.
Proof. induction l1 as [|b l1 IH]; simpl; [|rewrite IH]; lia. Qed.

Lemma dispMem_loop_rows fuel :
  ∀ bs m a p u f,
    blocks_at m a p bs → m !! (a + total bs) = Some 1 →
    0 ≤ u → 0 ≤ f → u + f + total bs ≤ INT_MAX - 15 →
    (length bs < fuel)%nat →
    dispMem_loop fuel m a u f =
      Some (rows_of a p bs, u + total_of true bs, f + total_of false bs).
Proof.
  intros bs m a p u f Hb. apply dispMem_loop_headers.
  by apply blocks_at_headers.
Qed.

(** X7. When the region holds the block list [bs], [dispMem] prints one row
    per block, in address order: the block's status, the status of the
    block before it (used for the first), its first and last byte and its
    size; the totals it prints are the bytes of the used and of the free
    blocks. *)
Theorem dispMem_reports_blocks s bs fuel :
  heap_inv s bs → (length bs < fuel)%nat →
  dispMem fuel s =
    Some (rows_of (heapStart s) true bs, total_of true bs, total_of false bs).
Proof.
  intros H Hfuel. unfold dispMem.
  pose proof (inv_range _ _ H) as Hr.
  rewrite (dispMem_loop_rows fuel bs (mem s) (heapStart s) true 0 0).
  - done.
  - apply (inv_blocks _ _ H).
  - rewrite (inv_total _ _ H). apply (inv_end _ _ H).
  - lia.
  - lia.
  - rewrite (inv_total _ _ H). lia.
  - done.
Qed.

Lemma dispMem_reports_blocks_witness :
  dispMem 6 heap_40_24_64 =
    Some (rows_of (heapStart heap_40_24_64) true blocks_40_24_64,
          total_of true blocks_40_24_64, total_of false blocks_40_24_64).
Proof.
  apply (dispMem_reports_blocks heap_40_24_64 blocks_40_24_64 6).
  - apply check_heap_sound. vm_compute. reflexivity.
  - unfold blocks_40_24_64. simpl. lia.
Defined.

Lemma heap_inv_length s bs :
  heap_inv s bs → (length bs ≤ Z.to_nat (allocsize s / 8))%nat.
Proof.
  intros H.
  pose proof (sizes_total _ (blocks_at_sizes _ _ _ _ (inv_blocks _ _ H)))
    as [Hlen _].
  rewrite (inv_total _ _ H) in Hlen. zlia.
Qed.

Lemma rows_of_consistent m :
  ∀ bs a p, blocks_at m a p bs → rows_consistent m a p (rows_of a p bs).
Proof.
  induction bs as [|b bs IH]; intros a p Hb; simpl; [done|].
  simpl in Hb. destruct Hb as (H8 & Hm & _ & Hfoot & Hrest).
  repeat (split; [done|]). split.
  - intros Hf. replace (a + bsize b - 1 - 3) with (a + bsize b - 4) by lia.
    auto.
  - replace (a + bsize b - 1 + 1) with (a + bsize b) by lia. auto.
Qed.

Lemma rows_of_last_end :
  ∀ bs a p, bs ≠ [] →
    last (map r_end (rows_of a p bs)) = Some (a + total bs - 1).
Proof.
  induction bs as [|b bs IH]; intros a p Hne; [done|].
  destruct bs as [|b2 bs].
  - simpl. do 2 f_equal. lia.
  - specialize (IH (a + bsize b) (balloc b) ltac:(done)).
    change (rows_of a p (b :: b2 :: bs))
      with (Row (balloc b) p a (a + bsize b - 1) (bsize b)
            :: rows_of (a + bsize b) (balloc b) (b2 :: bs)).
    rewrite total_cons. remember (rows_of (a + bsize b) (balloc b) (b2 :: bs))
      as rs eqn:Hrs.
    destruct rs as [|r0 rs]; [simpl in Hrs; done|].
    rewrite !map_cons, last_cons_cons. rewrite !map_cons in IH.
    rewrite IH. f_equal. lia.
Qed.

Lemma rows_of_used :
  ∀ bs a p r,
    Forall (λ b, 8 ≤ bsize b ∧ bsize b mod 8 = 0) bs →
    r ∈ rows_of a p bs →
    a ≤ r_begin r ∧
    (r_used r = true ↔ r_begin r + sizeof_blockHeader ∈ alloc_ptrs a bs).
Proof.
  induction bs as [|b bs IH]; intros a p r HF Hr; simpl in Hr;
    [by apply elem_of_nil in Hr|].
  apply Forall_cons in HF as [[H8 _] HF].
  apply elem_of_cons in Hr as [->|Hr]; simpl.
  - split; [lia|]. split.
    + intros ->. set_solver.
    + intros Hin. apply elem_of_union in Hin as [Hin|Hin].
      * destruct (balloc b); [done|set_solver].
      * apply alloc_ptrs_range in Hin; [|done]. unfold sizeof_blockHeader in *.
        lia.
  - destruct (IH _ _ _ HF Hr) as [Hge Hiff]. split; [lia|].
    rewrite Hiff. split; [set_solver|].
    intros Hin. apply elem_of_union in Hin as [Hin|Hin]; [|done].
    destruct (balloc b); [|set_solver].
    apply elem_of_singleton in Hin. lia.
Qed.

(** X8. On a target where a pointer has the size of a header (4 bytes), in
    every state reached from a successful [myInit] the rows [dispMem] prints
    tile the region from [heapStart] to the byte before the end mark: each
    row starts where the row before ends, shows as previous status the
    status of the row before (used for the first), has a size that is a
    positive multiple of 8, and a free row has its size in its last word.
    The rows printed as used are exactly the blocks whose payload address
    the caller holds. *)
Theorem dispMem_rows_tile_region e sz mp s live fuel :
  env_ok e sz mp → reachable e sz s live →
  (Z.to_nat (allocsize s / 8) < fuel)%nat →
  ∃ rows used_size free_size,
    dispMem fuel s = Some (rows, used_size, free_size) ∧
    rows_consistent (mem s) (heapStart s) true rows ∧
    last (map r_end rows) = Some (heapStart s + allocsize s - 1) ∧
    ∀ r, r ∈ rows →
         (r_used r = true ↔ r_begin r + sizeof_blockHeader ∈ live).
Proof.
  intros He Hr Hfuel.
  destruct (reachable_inv e sz mp s live He Hr) as (bs & H & -> & Hhs & Has).
  pose proof (heap_inv_length s bs H) as Hlen.
  pose proof (inv_range _ _ H) as Hrg.
  pose proof (blocks_at_sizes _ _ _ _ (inv_blocks _ _ H)) as HF.
  pose proof (total_of_split bs HF) as (Hu & Hf & Hsum).
  exists (rows_of (heapStart s) true bs), (total_of true bs),
         (total_of false bs).
  split; [|split; [|split]].
  - unfold dispMem.
    rewrite (dispMem_loop_rows fuel bs (mem s) (heapStart s) true 0 0);
      [done|apply (inv_blocks _ _ H)| |lia|lia| |lia].
    + rewrite (inv_total _ _ H). apply (inv_end _ _ H).
    + rewrite (inv_total _ _ H). lia.
  - apply rows_of_consistent, (inv_blocks _ _ H).
  - rewrite <- (inv_total _ _ H). apply rows_of_last_end.
    intros ->. pose proof (inv_total _ _ H) as Ht. simpl in Ht.
    destruct He as [[Hp16 _] Hsz _ _ _].
    pose proof (padded_spec (getpagesize e) sz ltac:(lia) ltac:(lia))
      as ((Hpad1 & _) & Hpadm & _).
    apply Z.mod_divide in Hpadm as [k Hk]; [|lia].
    unfold usable in Has.
    remember (padded (getpagesize e) sz) as P eqn:HP. clear HP.
    destruct (Z.le_gt_cases k 0); nia.
  - intros r Hin. apply (rows_of_used bs _ true r HF Hin).
Qed.

Lemma dispMem_rows_tile_region_witness :
  let s := fresh_4096_alloc in
  ∃ rows used_size free_size,
    dispMem 600 s = Some (rows, used_size, free_size) ∧
    rows_consistent (mem s) (heapStart s) true rows ∧
    last (map r_end rows) = Some (heapStart s + allocsize s - 1) ∧
    ∀ r, r ∈ rows →
         (r_used r = true ↔ r_begin r + sizeof_blockHeader ∈ live_40968).
Proof.
  apply (dispMem_rows_tile_region env_4096 100 40960 fresh_4096_alloc
           live_40968 600).
  - apply env_4096_ok.
  - apply reachable_fresh_4096_alloc.
  - vm_compute. lia.
Defined.

Lemma dispMem_totals s bs fuel :
  heap_inv s bs → (Z.to_nat (allocsize s / 8) < fuel)%nat →
  dispMem fuel s =
    Some (rows_of (heapStart s) true bs, total_of true bs, total_of false bs).
Proof.
  intros H Hfuel. unfold dispMem.
  pose proof (inv_range _ _ H) as Hr.
  pose proof (heap_inv_length s bs H) as Hlen.
  rewrite (dispMem_loop_rows fuel bs (mem s) (heapStart s) true 0 0);
    [done|apply (inv_blocks _ _ H)| |lia|lia| |lia].
  - rewrite (inv_total _ _ H). apply (inv_end _ _ H).
  - rewrite (inv_total _ _ H). lia.
Qed.

Lemma length_rows_of bs : ∀ a p, length (rows_of a p bs) = length bs.
Proof. induction bs as [|b bs IH]; intros a p; simpl; [done|by rewrite IH]. Qed.

Lemma total_of_middle al (bs : list block) i b :
  bs !! i = Some b →
  total_of al bs =
    total_of al (take i bs) + (if bool_decide (balloc b = al) then bsize b else 0)
    + total_of al (drop (S i) bs).
Proof.
  intros Hi. rewrite <- (take_drop_middle bs i b Hi) at 1.
  rewrite total_of_app. simpl. lia.
Qed.

(** X9. A successful [myAlloc n] moves the block size computed from [n]
    ([n] plus the header, rounded up to a multiple of 8) from the free total
    to the used total that [dispMem] prints, and adds at most one row: none
    when the block found has that size, one when it is split. *)
Theorem myAlloc_moves_block_size e sz mp s live fuel n s' p f :
  env_ok e sz mp → reachable e sz s live →
  myAlloc fuel s n = Some (s', p) → p ≠ NULL →
  (Z.to_nat (allocsize s / 8) < f)%nat →
  ∃ rows used_size free_size rows',
    dispMem f s = Some (rows, used_size, free_size) ∧
    dispMem f s' =
      Some (rows', used_size + needed n, free_size - needed n) ∧
    needed n ≤ free_size ∧
    (length rows ≤ length rows' ≤ S (length rows))%nat.
Proof.
  intros He Hr Ha Hp Hf.
  destruct (reachable_inv e sz mp s live He Hr) as (bs & H & _ & _).
  apply (myAlloc_mono _ (fuel `max` (S (length bs)))) in Ha; [|lia].
  destruct (myAlloc_total s bs n (fuel `max` (S (length bs))) H ltac:(lia))
    as (s1 & p1 & Ha1 & Hcase).
  rewrite Ha in Ha1. injection Ha1 as <- <-.
  destruct Hcase as [(? & _)|(Hn & i & Hbf & -> & H' & Hhs & Has & _)];
    [done|].
  destruct (Hbf) as (b & Hi & _).
  pose proof (best_fit_size _ _ _ _ _ H Hn Hbf Hi) as (_ & _ & _ & Hle & Hfree).
  pose proof (blocks_at_sizes _ _ _ _ (inv_blocks _ _ H)) as HF.
  pose proof (total_of_split _ (Forall_take _ i _ HF)) as (_ & Hf1 & _).
  pose proof (total_of_split _ (Forall_drop _ (S i) _ HF)) as (_ & Hf2 & _).
  rewrite (dispMem_totals s bs f H Hf).
  rewrite (dispMem_totals s' _ f H') by (rewrite Has; done).
  exists (rows_of (heapStart s) true bs), (total_of true bs),
         (total_of false bs),
         (rows_of (heapStart s') true (place bs i (needed n))).
  split; [done|]. rewrite !length_rows_of.
  assert (length bs = length (take i bs) + S (length (drop (S i) bs)))%nat
    as Hlen.
  { rewrite <- (take_drop_middle bs i b Hi) at 1. rewrite length_app. done. }
  assert (total_of true (place bs i (needed n)) = total_of true bs + needed n ∧
          total_of false (place bs i (needed n))
          = total_of false bs - needed n ∧
          needed n ≤ total_of false bs ∧
          (length bs ≤ length (place bs i (needed n)) ≤ S (length bs))%nat)
    as (-> & -> & ? & ?); [|done].
  rewrite (total_of_middle true bs i b Hi), (total_of_middle false bs i b Hi).
  rewrite Hfree. rewrite Hlen. unfold place. rewrite Hi.
  destruct (Z.eqb_spec (bsize b) (needed n)) as [Heq|Hne];
    rewrite !total_of_app, !length_app; simpl; lia.
Qed.

Lemma myAlloc_moves_block_size_witness :
  let s := fresh_4096_alloc in
  let s' := state_after (myAlloc 3 s 50) s in
  ∃ rows used_size free_size rows',
    dispMem 600 s = Some (rows, used_size, free_size) ∧
    dispMem 600 s' =
      Some (rows', used_size + needed 50, free_size - needed 50) ∧
    needed 50 ≤ free_size ∧
    (length rows ≤ length rows' ≤ S (length rows))%nat.
Proof.
  apply (myAlloc_moves_block_size env_4096 100 40960 fresh_4096_alloc
           live_40968 3 50 _ 41072).
  - apply env_4096_ok.
  - apply reachable_fresh_4096_alloc.
  - vm_compute. reflexivity.
  - unfold NULL. lia.
  - vm_compute. lia.
Defined.

(** X10. Freeing an address the caller holds moves the size in the header
    before it from the used total to the free total that [dispMem] prints,
    and leaves the number of rows as it is: [myFree] merges nothing. *)
Theorem myFree_moves_block_size e sz mp s live p f :
  env_ok e sz mp → reachable e sz s live → p ∈ live →
  (Z.to_nat (allocsize s / 8) < f)%nat →
  ∃ s' h rows used_size free_size rows',
    myFree s p = Some (s', 0) ∧
    mem s !! (p - sizeof_blockHeader) = Some h ∧
    dispMem f s = Some (rows, used_size, free_size) ∧
    dispMem f s' =
      Some (rows', used_size - size_of h, free_size + size_of h) ∧
    size_of h ≤ used_size ∧
    length rows' = length rows.
Proof.
  intros He Hr Hp Hf.
  destruct (reachable_inv e sz mp s live He Hr) as (bs & H & -> & _).
  apply alloc_ptrs_elem in Hp as (i & b & Hi & Hb & ->).
  destruct (myFree_block s bs i b H Hi Hb) as (s' & Hfr & H' & Hhs & Has & _).
  pose proof (heap_inv_block _ _ _ _ H Hi)
    as (Hj8 & Hjm & _ & _ & _ & _ & _ & _ & Hh & _).
  pose proof (blocks_at_sizes _ _ _ _ (inv_blocks _ _ H)) as HF.
  pose proof (total_of_split _ (Forall_take _ i _ HF)) as (Hu1 & _ & _).
  pose proof (total_of_split _ (Forall_drop _ (S i) _ HF)) as (Hu2 & _ & _).
  exists s', (hdr (bsize b) (last_alloc true (take i bs)) (balloc b)),
         (rows_of (heapStart s) true bs), (total_of true bs),
         (total_of false bs), (rows_of (heapStart s') true (release bs i)).
  split; [exact Hfr|]. split.
  { unfold block_addr in Hh.
    replace (heapStart s + total (take i bs) + sizeof_blockHeader
             - sizeof_blockHeader)
      with (heapStart s + total (take i bs)) by lia. exact Hh. }
  rewrite hdr_size_of by done.
  split; [apply (dispMem_totals s bs f H Hf)|].
  rewrite (dispMem_totals s' _ f H') by (rewrite Has; done).
  rewrite !length_rows_of.
  assert (total_of true (release bs i) = total_of true bs - bsize b ∧
          total_of false (release bs i) = total_of false bs + bsize b ∧
          bsize b ≤ total_of true bs ∧
          length (release bs i) = length bs)
    as (-> & -> & ? & ?); [|done].
  rewrite (total_of_middle true bs i b Hi), (total_of_middle false bs i b Hi).
  assert (length bs = length (take i bs) + S (length (drop (S i) bs)))%nat
    as Hlen.
  { rewrite <- (take_drop_middle bs i b Hi) at 1. rewrite length_app. done. }
  rewrite Hb, Hlen. unfold release. rewrite Hi.
  rewrite !total_of_app, !length_app. simpl. lia.
Qed.

Lemma myFree_moves_block_size_witness :
  ∃ s' h rows used_size free_size rows',
    myFree fresh_4096_alloc 40968 = Some (s', 0) ∧
    mem fresh_4096_alloc !! (40968 - sizeof_blockHeader) = Some h ∧
    dispMem 600 fresh_4096_alloc = Some (rows, used_size, free_size) ∧
    dispMem 600 s' =
      Some (rows', used_size - size_of h, free_size + size_of h) ∧
    size_of h ≤ used_size ∧
    length rows' = length rows.
Proof.
  apply (myFree_moves_block_size env_4096 100 40960 fresh_4096_alloc
           live_40968 40968 600).
  - apply env_4096_ok.
  - apply reachable_fresh_4096_alloc.
  - vm_compute. set_solver.
  - vm_compute. lia.
Defined.

(** ** coalesce, seen through dispMem, and twice *)

Lemma rows_of_no_pair :
  ∀ bs a p r, no_free_pair p bs = true → r ∈ rows_of a p bs →
              r_used r = true ∨ r_prev_used r = true.
Proof.
  induction bs as [|b bs IH]; intros a p r Hn Hr; simpl in Hr;
    [by apply elem_of_nil in Hr|].
  simpl in Hn. apply andb_true_iff in Hn as [Hpb Hn].
  apply elem_of_cons in Hr as [->|Hr]; simpl.
  - apply orb_true_iff in Hpb. tauto.
  - eauto.
Qed.

(** X11. After [coalesce] the totals [dispMem] prints are those before it,
    the rows are no more than before, and no row is a free block after a
    free block. *)
Theorem coalesce_leaves_no_free_pair e sz mp s live fuel f :
  env_ok e sz mp → reachable e sz s live →
  (Z.to_nat (allocsize s / 8) < fuel)%nat →
  (Z.to_nat (allocsize s / 8) < f)%nat →
  ∃ s' rows used_size free_size rows',
    coalesce ILP32 fuel s = Some (s', 1) ∧
    dispMem f s = Some (rows, used_size, free_size) ∧
    dispMem f s' = Some (rows', used_size, free_size) ∧
    (length rows' ≤ length rows)%nat ∧
    ∀ r, r ∈ rows' → r_used r = true ∨ r_prev_used r = true.
Proof.
  intros He Hr Hfuel Hf.
  destruct (reachable_inv e sz mp s live He Hr) as (bs & H & _ & _).
  pose proof (heap_inv_length s bs H) as Hlen.
  destruct (coalesce_inv s bs fuel H ltac:(lia))
    as (s' & Hc & H' & Hhs & Has & _).
  exists s', (rows_of (heapStart s) true bs), (total_of true bs),
         (total_of false bs), (rows_of (heapStart s') true (merge_free bs)).
  split; [done|]. split; [apply (dispMem_totals s bs f H Hf)|].
  rewrite (dispMem_totals s' _ f H') by (rewrite Has; done).
  rewrite !total_of_merge_free, !length_rows_of.
  split; [done|]. split; [apply length_merge_free|].
  intros r. apply rows_of_no_pair, merge_free_no_pair.
Qed.

Lemma coalesce_leaves_no_free_pair_witness :
  ∃ s' rows used_size free_size rows',
    coalesce ILP32 600 fresh_4096_freed = Some (s', 1) ∧
    dispMem 600 fresh_4096_freed = Some (rows, used_size, free_size) ∧
    dispMem 600 s' = Some (rows', used_size, free_size) ∧
    (length rows' ≤ length rows)%nat ∧
    ∀ r, r ∈ rows' → r_used r = true ∨ r_prev_used r = true.
Proof.
  apply (coalesce_leaves_no_free_pair env_4096 100 40960 fresh_4096_freed
           live_freed 600 600).
  - apply env_4096_ok.
  - apply reachable_fresh_4096_freed.
  - vm_compute. lia.
  - vm_compute. lia.
Defined.

(** X12. Whichever size a pointer has (4 or 8 bytes), on a region whose
    headers are well formed, whatever its footers hold, a second [coalesce]
    right after the first finds nothing to merge: it returns 1 and leaves
    the state as the first call left it. *)
Theorem coalesce_twice_same_state psz s bs fuel :
  pointer_size psz → headers_inv s bs → (length bs < fuel)%nat →
  ∃ s', coalesce psz fuel s = Some (s', 1) ∧
        coalesce psz fuel s' = Some (s', 1).
Proof.
  intros Hpsz H Hfuel.
  destruct (coalesce_headers psz s bs fuel Hpsz H Hfuel)
    as (s' & Hc & H' & _).
  exists s'. split; [done|]. unfold coalesce.
  pose proof (length_merge_free bs) as Hlm.
  pose proof (hinv_range _ _ H') as Hrg.
  rewrite (coalesce_loop_no_pair psz fuel (merge_free bs) (mem s')
             (heapStart s') true true).
  - simpl. destruct s'. done.
  - apply (hinv_headers _ _ H').
  - apply merge_free_no_pair.
  - rewrite (hinv_total _ _ H'). apply (hinv_end _ _ H').
  - rewrite (hinv_total _ _ H'). lia.
  - lia.
Qed.

Lemma coalesce_twice_same_state_witness :
  ∃ s', coalesce LP64 4 run_lp64_freed = Some (s', 1) ∧
        coalesce LP64 4 s' = Some (s', 1).
Proof.
  apply (coalesce_twice_same_state LP64 run_lp64_freed
           [Block 48 false; Block 16 false; Block 4024 false] 4).
  - right. reflexivity.
  - apply check_headers_sound. vm_compute. reflexivity.
  - simpl. lia.
Defined.

(** ** myInit *)

Lemma zero_words_outside n :
  ∀ p m x, x < p ∨ p + 4 * Z.of_nat n ≤ x → zero_words n p m !! x = m !! x.
Proof.
  induction n as [|n IH]; intros p m x Hx; [done|]. simpl.
  rewrite lookup_insert_ne by lia. apply IH. lia.
Qed.

Lemma myInit_mem e s0 sz p :
  env_ok e sz p → allocated_once s0 = 0 →
  let P := padded (getpagesize e) sz in
  16 ≤ P ≤ INT_MAX ∧ P mod 8 = 0 ∧
  myInit e s0 sz =
    Some (State (p + 4) (P - 8) 1
            (<[p + 4 + (P - 8) - 4 := P - 8]>
               (<[p + 4 := P - 8 + 2]>
                  (<[p + 4 := P - 8]>
                     (<[p + 4 + (P - 8) := 1]>
                        (map_region (mem s0) p P))))), 0).
Proof.
  intros [[Hp16 Hp8] Hsz Hopen Hmmap [Hp0 Hpa]] Honce.
  pose proof (padded_spec (getpagesize e) sz ltac:(lia) ltac:(lia))
    as ((Hpad1 & Hpad2) & Hpadm & Hpadc).
  cbv zeta.
  set (P := padded (getpagesize e) sz) in *.
  assert (P mod 8 = 0) as HP8.
  { revert Hpadm Hp8. generalize (getpagesize e). intros ps ? ?.
    assert (P = ps * (P / ps)) as -> by zlia.
    assert (ps = 8 * (ps / 8)) as -> by zlia.
    rewrite <- Z.mul_assoc, Z.mul_comm. apply Z_mod_mult. }
  assert (16 ≤ P) as HP16.
  { assert (0 < P) by lia.
    revert Hpadm Hp16 H. generalize (getpagesize e). intros ps ? ? ?.
    assert (P = ps * (P / ps)) as Hq by zlia.
    assert (0 < P / ps) by nia. nia. }
  split; [lia|]. split; [done|].
  assert ((-1 =? open_dev_zero e) = false) as Hfd.
  { apply Z.eqb_neq. congruence. }
  unfold myInit. rewrite Honce. cbv zeta. rewrite Hfd.
  change (negb (0 =? 0)) with false. cbv iota.
  destruct (Z.leb_spec sz 0); [lia|].
  destruct (Z.eqb_spec (getpagesize e) 0); [lia|].
  unfold irem. simpl allocsize. simpl mem.
  assert (isub (getpagesize e) (Z.rem sz (getpagesize e))
          = getpagesize e - Z.rem sz (getpagesize e)) as ->.
  { unfold isub. apply wrap_id. unfold INT_MIN, INT_MAX in *.
    pose proof (Z.rem_bound_pos sz (getpagesize e) ltac:(lia) ltac:(lia)).
    lia. }
  assert (iadd sz (Z.rem (getpagesize e - Z.rem sz (getpagesize e))
                         (getpagesize e)) = P) as ->.
  { unfold iadd. rewrite Hpadc. apply wrap_id.
    unfold INT_MIN, INT_MAX in *. lia. }
  rewrite Hmmap. unfold sizeof_blockHeader.
  assert (isub P 8 = P - 8) as ->.
  { unfold isub. apply wrap_id. unfold INT_MIN, INT_MAX in *. lia. }
  set (m0 := map_region (mem s0) p P).
  assert (∀ k, 0 ≤ k < P / 4 → m0 !! (p + 4 * k) = Some 0) as Hm0.
  { intros k Hk. unfold m0, map_region.
    apply (zero_words_lookup _ _ _ _ k); [|done].
    rewrite Z2Nat.id by zlia. done. }
  assert (m0 !! (p + 1 * 4 + (P - 8)) = Some 0) as Hend.
  { replace (p + 1 * 4 + (P - 8)) with (p + 4 * (P / 4 - 1)) by zlia.
    apply Hm0. zlia. }
  assert (m0 !! (p + 1 * 4) = Some 0) as Hhd.
  { replace (p + 1 * 4) with (p + 4 * 1) by lia. apply Hm0. zlia. }
  assert (m0 !! (p + 1 * 4 + (P - 8) - 4) = Some 0) as Hft.
  { replace (p + 1 * 4 + (P - 8) - 4) with (p + 4 * (P / 4 - 2)) by zlia.
    apply Hm0. zlia. }
  rewrite store_Some by (rewrite Hend; eauto). simpl.
  rewrite store_Some by (apply insert_is_Some; rewrite Hhd; eauto). simpl.
  unfold load. rewrite lookup_insert_eq. simpl.
  rewrite store_Some by (do 2 apply insert_is_Some; rewrite Hhd; eauto). simpl.
  rewrite store_Some by (do 3 apply insert_is_Some; rewrite Hft; eauto). simpl.
  assert (iadd (P - 8) 2 = P - 8 + 2) as ->.
  { unfold iadd. rewrite wrap_id; unfold INT_MIN, INT_MAX in *; lia. }
  replace (p + 1 * 4) with (p + 4) by lia. done.
Qed.

(** X13. A successful [myInit] leaves one free block over the whole
    region: [heapStart] is 4 bytes into the mapped region and [allocsize] is
    the padded size less 8; the header holds [allocsize] with the
    prev-alloc-bit set, the last word of the block holds [allocsize], the
    word after it is the end mark 1, and the skipped first word and the
    words between header and footer are the zeroes of the fresh mapping.
    Nothing outside the mapped region changes. *)
Theorem myInit_success_layout e s0 sz mp :
  env_ok e sz mp → allocated_once s0 = 0 →
  ∃ s, myInit e s0 sz = Some (s, 0) ∧
    heapStart s = mp + sizeof_blockHeader ∧
    allocsize s = padded (getpagesize e) sz - 8 ∧
    allocated_once s = 1 ∧
    mem s !! heapStart s = Some (allocsize s + 2) ∧
    mem s !! (heapStart s + allocsize s - 4) = Some (allocsize s) ∧
    mem s !! (heapStart s + allocsize s) = Some 1 ∧
    mem s !! mp = Some 0 ∧
    (∀ k, 1 ≤ k < allocsize s / 4 - 1 →
          mem s !! (heapStart s + 4 * k) = Some 0) ∧
    (∀ x, x < mp ∨ mp + padded (getpagesize e) sz ≤ x →
          mem s !! x = mem s0 !! x).
Proof.
  intros He Honce.
  destruct (myInit_mem e s0 sz mp He Honce) as (HP & HP8 & Hi).
  remember (padded (getpagesize e) sz) as P eqn:HPe. clear HPe.
  eexists. split; [exact Hi|]. simpl. unfold sizeof_blockHeader.
  assert (∀ k, 0 ≤ k < P / 4 →
            map_region (mem s0) mp P !! (mp + 4 * k) = Some 0) as Hm0.
  { intros k Hk. unfold map_region.
    apply (zero_words_lookup _ _ _ _ k); [|done].
    rewrite Z2Nat.id by zlia. done. }
  repeat (split; [done|]).
  split; [msimpl; done|]. split; [msimpl; done|]. split; [msimpl; done|].
  split; [|split].
  - msimpl. replace mp with (mp + 4 * 0) at 1 by lia. apply Hm0. zlia.
  - intros k Hk. rewrite !lookup_insert_ne by zlia.
    replace (mp + 4 + 4 * k) with (mp + 4 * (k + 1)) by lia.
    apply Hm0. zlia.
  - intros x Hx. rewrite !lookup_insert_ne by lia.
    unfold map_region. apply zero_words_outside.
    rewrite Z2Nat.id by zlia. zlia.
Qed.

Lemma myInit_success_layout_witness :
  ∃ s, myInit env_4096 initial_state 100 = Some (s, 0) ∧
    heapStart s = 40960 + sizeof_blockHeader ∧
    allocsize s = padded (getpagesize env_4096) 100 - 8 ∧
    allocated_once s = 1 ∧
    mem s !! heapStart s = Some (allocsize s + 2) ∧
    mem s !! (heapStart s + allocsize s - 4) = Some (allocsize s) ∧
    mem s !! (heapStart s + allocsize s) = Some 1 ∧
    mem s !! 40960 = Some 0 ∧
    (∀ k, 1 ≤ k < allocsize s / 4 - 1 →
          mem s !! (heapStart s + 4 * k) = Some 0) ∧
    (∀ x, x < 40960 ∨ 40960 + padded (getpagesize env_4096) 100 ≤ x →
          mem s !! x = mem initial_state !! x).
Proof.
  apply (myInit_success_layout env_4096 initial_state 100 40960).
  - apply env_4096_ok.
  - reflexivity.
Defined.

Lemma myAlloc_globals fuel s n s' p :
  myAlloc fuel s n = Some (s', p) →
  heapStart s' = heapStart s ∧ allocsize s' = allocsize s ∧
  allocated_once s' = allocated_once s.
Proof.
  unfold myAlloc. intros H.
  destruct ((n <=? 0) || (n >? allocsize s)); [by injection H as <- _|].
  destruct (alloc_scan _ _ _ _ _ _ _) as [[[flag best] best_size]|];
    [|done].
  simpl in H.
  destruct (flag =? 0); [by injection H as <- _|].
  destruct (best_size =? _).
  - destruct (load _ _); [|done]. simpl in H.
    destruct (store _ _ _); [|done]. simpl in H.
    destruct (load _ _); [|done]. simpl in H.
    destruct (if negb _ then _ else _); [|done]. simpl in H.
    by injection H as <- _.
  - destruct (load _ _); [|done]. simpl in H.
    destruct (store _ _ _); [|done]. simpl in H.
    destruct (store _ _ _); [|done]. simpl in H.
    destruct (store _ _ _); [|done]. simpl in H.
    by injection H as <- _.
Qed.

Lemma myFree_globals s ptr s' r :
  myFree s ptr = Some (s', r) →
  heapStart s' = heapStart s ∧ allocsize s' = allocsize s ∧
  allocated_once s' = allocated_once s.
Proof.
  unfold myFree. intros H.
  destruct (ptr =? NULL); [by injection H as <- _|].
  destruct (negb _); [by injection H as <- _|].
  destruct (_ || _); [by injection H as <- _|].
  destruct (load _ _) as [h|]; [|done]. simpl in H.
  destruct (irem h 2 =? 0); [by injection H as <- _|].
  destruct (store _ _ _); [|done]. simpl in H.
  destruct (load _ _); [|done]. simpl in H.
  destruct (load _ _); [|done]. simpl in H.
  destruct (if negb _ then _ else _); [|done]. simpl in H.
  destruct (store _ _ _); [|done]. simpl in H.
  by injection H as <- _.
Qed.

Lemma reachable_allocated_once e sz mp s live :
  env_ok e sz mp → reachable e sz s live → allocated_once s = 1.
Proof.
  intros He Hr.
  induction Hr as [s0 s H0 Hinit
                  |s live fuel n s' p Hr IH Ha
                  |s live ptr s' r Hr IH Hf Hlive
                  |s live fuel s' r Hr IH Hc
                  |s live p h x v m' Hr IH Hp Hh Hx Hst].
  - destruct (myInit_ok e s0 sz mp He H0) as (s1 & Hi & _ & _ & _ & Hone).
    rewrite Hinit in Hi. by injection Hi as ->.
  - destruct (myAlloc_globals _ _ _ _ _ Ha) as (_ & _ & ->). done.
  - destruct (myFree_globals _ _ _ _ Hf) as (_ & _ & ->). done.
  - unfold coalesce in Hc. destruct (coalesce_loop _ _ _ _); [|done].
    simpl in Hc. by injection Hc as <- _.
  - done.
Qed.

(** X14. [myInit] works once: in every state reached from a successful
    [myInit], a further call returns -1 whatever the size asked and
    whatever the system would answer, and changes nothing. *)
Theorem myInit_again_rejected e sz mp s live e' sz' :
  env_ok e sz mp → reachable e sz s live →
  myInit e' s sz' = Some (s, -1).
Proof.
  intros He Hr. unfold myInit.
  rewrite (reachable_allocated_once e sz mp s live He Hr). done.
Qed.

Lemma myInit_again_rejected_witness :
  myInit env_4096 fresh_4096_alloc 8192 = Some (fresh_4096_alloc, -1).
Proof.
  apply (myInit_again_rejected env_4096 100 40960 fresh_4096_alloc
           live_40968 env_4096 8192).
  - apply env_4096_ok.
  - apply reachable_fresh_4096_alloc.
Defined.

(** ** Before myInit *)

(** X15. Before [myInit], when [heapStart] is NULL and [allocsize] is 0,
    [myAlloc] returns NULL for every size, without entering its loop, and
    [myFree] returns -1 for every address, without reading a header; the
    state is unchanged. *)
Theorem calls_before_myInit s :
  uninitialized s →
  (∀ fuel n, myAlloc fuel s n = Some (s, NULL)) ∧
  (∀ ptr, myFree s ptr = Some (s, -1)).
Proof.
  intros [Hhs Has]. split.
  - intros fuel n. unfold myAlloc. rewrite Has.
    destruct (Z.leb_spec n 0); [done|].
    destruct (Z.gtb_spec n 0); [done|lia].
  - intros ptr. unfold myFree. rewrite Hhs, Has. unfold NULL.
    destruct (Z.eqb_spec ptr 0); [done|].
    destruct (negb _); [done|].
    destruct (Z.ltb_spec ptr 0); [done|].
    destruct (Z.gtb_spec ptr (0 + 0)); [done|lia].
Qed.

Lemma calls_before_myInit_witness :
  (∀ fuel n, myAlloc fuel initial_state n = Some (initial_state, NULL)) ∧
  (∀ ptr, myFree initial_state ptr = Some (initial_state, -1)).
Proof.
  apply (calls_before_myInit initial_state). split; reflexivity.
Defined.

(** ** The blocks the caller holds *)

(** X16. In every state reached from a successful [myInit], whatever the
    caller has written into its blocks, each address it holds is a multiple
    of 8 behind a header with alloc-bit 1, its block lies inside the region,
    and the blocks of two different addresses do not overlap. *)
Theorem live_blocks_apart e sz mp s live p q :
  env_ok e sz mp → reachable e sz s live → p ∈ live → q ∈ live →
  ∃ hp hq,
    mem s !! (p - sizeof_blockHeader) = Some hp ∧
    mem s !! (q - sizeof_blockHeader) = Some hq ∧
    alloc_bit hp = true ∧ p mod 8 = 0 ∧ 8 ≤ size_of hp ∧
    heapStart s ≤ p - sizeof_blockHeader ∧
    p - sizeof_blockHeader + size_of hp ≤ heapStart s + allocsize s ∧
    (p ≠ q →
     p - sizeof_blockHeader + size_of hp ≤ q - sizeof_blockHeader ∨
     q - sizeof_blockHeader + size_of hq ≤ p - sizeof_blockHeader).
Proof.
  intros He Hr Hp Hq.
  destruct (reachable_inv e sz mp s live He Hr) as (bs & H & -> & _).
  apply alloc_ptrs_elem in Hp as (i & b & Hi & Hb & ->).
  apply alloc_ptrs_elem in Hq as (j & c & Hj & Hc & ->).
  pose proof (heap_inv_block _ _ _ _ H Hi)
    as (Hi8 & Him & Hi0 & Hipm & Hid & _ & Has & _ & Hhi & _).
  pose proof (heap_inv_block _ _ _ _ H Hj)
    as (Hj8 & Hjm & _ & _ & _ & _ & _ & _ & Hhj & _).
  pose proof (blocks_at_sizes _ _ _ _ (inv_blocks _ _ H)) as HF.
  pose proof (inv_align _ _ H) as Hal.
  pose proof (lookup_lt_Some _ _ _ Hi) as Hilen.
  pose proof (lookup_lt_Some _ _ _ Hj) as Hjlen.
  unfold block_addr in Hhi, Hhj. unfold sizeof_blockHeader.
  exists (hdr (bsize b) (last_alloc true (take i bs)) (balloc b)),
         (hdr (bsize c) (last_alloc true (take j bs)) (balloc c)).
  replace (heapStart s + total (take i bs) + 4 - 4)
    with (heapStart s + total (take i bs)) by lia.
  replace (heapStart s + total (take j bs) + 4 - 4)
    with (heapStart s + total (take j bs)) by lia.
  rewrite !hdr_size_of, hdr_alloc_bit by done.
  split; [done|]. split; [done|]. split; [done|]. split; [zlia|].
  split; [lia|]. split; [lia|]. split; [lia|].
  intros Hne.
  destruct (Nat.lt_trichotomy i j) as [Hlt|[->|Hlt]].
  - left. pose proof (block_addr_order bs HF i j b Hlt ltac:(lia) Hi). lia.
  - done.
  - right. pose proof (block_addr_order bs HF j i c Hlt ltac:(lia) Hj). lia.
Qed.

Lemma live_blocks_apart_witness :
  let s := fresh_4096_alloc2 in
  ∃ hp hq,
    mem s !! (40968 - sizeof_blockHeader) = Some hp ∧
    mem s !! (41072 - sizeof_blockHeader) = Some hq ∧
    alloc_bit hp = true ∧ 40968 mod 8 = 0 ∧ 8 ≤ size_of hp ∧
    heapStart s ≤ 40968 - sizeof_blockHeader ∧
    40968 - sizeof_blockHeader + size_of hp ≤ heapStart s + allocsize s ∧
    (40968 ≠ 41072 →
     40968 - sizeof_blockHeader + size_of hp ≤ 41072 - sizeof_blockHeader ∨
     41072 - sizeof_blockHeader + size_of hq ≤ 40968 - sizeof_blockHeader).
Proof.
  apply (live_blocks_apart env_4096 100 40960 fresh_4096_alloc2
           live_41072_40968 40968 41072).
  - apply env_4096_ok.
  - apply reachable_fresh_4096_alloc2.
  - vm_compute. set_solver.
  - vm_compute. set_solver.
Defined.
